(** * Transcript analytics pipeline: shallow embedding and verification

    The development embeds the hand-written logic of the meeting assistant
    backend (the interval aligner of [app/api.py], the action item extractor,
    the mention tracker, the name variations and the personal summary of the
    personal insight synthesizer, and the summarization service) and proves
    the properties stated for it.

    Conventions of the embedding:
    - a Python [str] is a list of characters ([str := list ascii]); the text is
      taken to be ASCII, so [lower], [upper], [isspace] and the regular
      expression classes are the ASCII ones;
    - a Python [float] is a binary64 primitive float, a Python [int] is a [Z],
      a length is a [nat];
    - a dictionary with a fixed set of keys is a record with the same keys;
    - code that can raise returns a [result], an exception handler is a match
      on it;
    - the constant regular expressions are syntax trees run by a backtracking
      matcher ([Regex]);
    - what the services obtain from outside is a parameter: the sentences and
      entities of spaCy, the transformer pipeline and its tokenizer, the
      regular expression engine on the patterns built from the user name,
      the iteration order of a set, and the reading of the clock. *)

From Stdlib Require Import Ascii String List ZArith Bool Lia Sorted Permutation.
From Stdlib Require Import Floats.
Import ListNotations.

Set Warnings "-inexact-float".

(* ===================================================================== *)
(** * Part I: the embedding *)
(* ===================================================================== *)

(** ** Python values shared by all services *)

Module Py.

Definition str := list ascii.

(** Literal of the source text. *)
Definition lit (s : string) : str := list_ascii_of_string s.

Definition str_eq_dec : forall a b : str, {a = b} + {a <> b} :=
  list_eq_dec ascii_dec.

Definition str_eqb (a b : str) : bool :=
  if str_eq_dec a b then true else false.

(** Exceptions of the [Exception] hierarchy that the modelled code can meet. *)
Inductive exn : Type :=
| TypeError (msg : str)
| IndexError
| AttributeError
| ZeroDivisionError
| ReError
| RuntimeError (msg : str).

Definition result (A : Type) : Type := (exn + A)%type.

Definition ret {A} (a : A) : result A := inr a.
Definition raise {A} (e : exn) : result A := inl e.
Definition bind {A B} (m : result A) (k : A -> result B) : result B :=
  match m with
  | inl e => inl e
  | inr a => k a
  end.

(** *** Character classes (ASCII) *)

Definition in_range (lo hi : nat) (c : ascii) : bool :=
(lo <=? nat_of_ascii c) && (nat_of_ascii c <=? hi).

(** [str.isspace]: tab, line feed, vertical tab, form feed, carriage return,
    the separators 0x1c-0x1f and the space. *)
Definition is_space (c : ascii) : bool := in_range 9 13 c || in_range 28 32 c.
Definition is_upper (c : ascii) : bool := in_range 65 90 c.
Definition is_lower (c : ascii) : bool := in_range 97 122 c.
Definition is_alpha (c : ascii) : bool := is_upper c || is_lower c.
Definition is_digit (c : ascii) : bool := in_range 48 57 c.
(** The class [\w]: letters, digits and the underscore. *)
Definition is_word (c : ascii) : bool :=
is_alpha c || is_digit c || Ascii.eqb c "_"%char.

Definition lower_char (c : ascii) : ascii :=
if is_upper c then ascii_of_nat (nat_of_ascii c + 32) else c.
Definition upper_char (c : ascii) : ascii :=
if is_lower c then ascii_of_nat (nat_of_ascii c - 32) else c.

(** A text of ASCII characters. On such a text the classes and the case
    mappings above are those of Python's [str] and of its [re] module, also
    under [re.IGNORECASE]; on other text Python follows Unicode. *)
Definition ascii_text (s : str) : Prop :=
forallb (fun c => nat_of_ascii c <? 128) s = true.

(** *** Methods of [str] *)

(** [s.lower()] *)
Definition lower (s : str) : str := map lower_char s.

Fixpoint lstrip (s : str) : str :=
match s with
| c :: s' => if is_space c then lstrip s' else s
| [] => []
end.

Definition rstrip (s : str) : str := rev (lstrip (rev s)).

(** [s.strip()] *)
Definition strip (s : str) : str := rstrip (lstrip s).

(** [s.split()]: the maximal runs of non-blank characters. [cur] is the
    current run, reversed. *)
Fixpoint split_aux (cur : str) (s : str) : list str :=
match s with
| [] => match cur with [] => [] | _ => [rev cur] end
| c :: s' =>
    if is_space c
    then match cur with
         | [] => split_aux [] s'
         | _ => rev cur :: split_aux [] s'
         end
    else split_aux (c :: cur) s'
end.

Definition split (s : str) : list str := split_aux [] s.

(** [s.startswith(p)] *)
Fixpoint starts_with (p s : str) : bool :=
match p, s with
| [], _ => true
| a :: p', b :: s' => Ascii.eqb a b && starts_with p' s'
| _ :: _, [] => false
end.

(** [needle in hay] *)
Fixpoint contains (needle hay : str) : bool :=
starts_with needle hay
|| match hay with
   | [] => false
   | _ :: hay' => contains needle hay'
   end.

(** [sep.join(parts)] *)
Fixpoint join (sep : str) (parts : list str) : str :=
match parts with
| [] => []
| [p] => p
| p :: rest => p ++ sep ++ join sep rest
end.

(** [s.title()]: a letter that follows a letter is lower-cased, any other
    letter is upper-cased. *)
Fixpoint title_aux (previous_is_cased : bool) (s : str) : str :=
match s with
| [] => []
| c :: s' =>
    (if is_alpha c
     then if previous_is_cased then lower_char c else upper_char c
     else c) :: title_aux (is_alpha c) s'
end.

Definition title (s : str) : str := title_aux false s.

(** [text[0].upper() + text[1:]] on a non-empty string, the string itself
    when it is empty. *)
Definition capitalize_first (s : str) : str :=
match s with
| [] => []
| c :: s' => upper_char c :: s'
end.

(** *** Slices

    A slice bound [i] of a sequence of length [len]: a negative bound counts
    from the end, and every bound is clamped to [0, len]. *)
Definition slice_index (len : nat) (i : Z) : nat :=
if (i <? 0)%Z
then Z.to_nat (Z.max 0 (Z.of_nat len + i))
else Nat.min len (Z.to_nat i).

(** [s[:i]] *)
Definition slice_to (s : str) (i : Z) : str :=
firstn (slice_index (length s) i) s.

(** [s[i:]] *)
Definition slice_from (s : str) (i : Z) : str :=
skipn (slice_index (length s) i) s.

(** [s[i:j]] *)
Definition slice (s : str) (i j : Z) : str :=
let a := slice_index (length s) i in
let b := slice_index (length s) j in
firstn (b - a) (skipn a s).

(** *** [sorted] and [list.sort] with an integer key

    Python's sort is stable. The stable ordering of a list by a key is unique,
    so the insertion sort below returns the list Python returns. *)
Fixpoint insert_by {A : Type} (key : A -> Z) (x : A) (l : list A) : list A :=
match l with
| [] => [x]
| y :: l' => if (key x <=? key y)%Z then x :: l else y :: insert_by key x l'
end.

(** [sorted(l, key=key)] *)
Definition sorted_by {A : Type} (key : A -> Z) (l : list A) : list A :=
fold_right (insert_by key) [] l.

Fixpoint insert_by_desc {A : Type} (key : A -> Z) (x : A) (l : list A) : list A :=
match l with
| [] => [x]
| y :: l' => if (key y <=? key x)%Z then x :: l else y :: insert_by_desc key x l'
end.

(** [sorted(l, key=key, reverse=True)]: descending keys, elements with equal
    keys in their original order. *)
Definition sorted_by_desc {A : Type} (key : A -> Z) (l : list A) : list A :=
fold_right (insert_by_desc key) [] l.

(** [list(set(l))]: the elements of [l] without repetition, in the iteration
    order of the set. That order is fixed within one interpreter process and
    otherwise unspecified, so the services below take it as a parameter of
    this type. *)
Definition set_iteration : Type := list str -> list str.

(** An iteration order lists every element of the set, once. *)
Definition lists_each_once (list_set : set_iteration) : Prop :=
forall l, NoDup (list_set l) /\ (forall x, In x (list_set l) <-> In x l).

(** The order obtained by keeping first occurrences; one admissible order. *)
Definition first_occurrence_order : set_iteration := fun l => rev (nodup str_eq_dec (rev l)).

End Py.

Import Py.

Declare Scope py_scope.
Delimit Scope py_scope with py.
Notation "x <- m ;; k" := (bind m (fun x => k))
  (at level 61, m at next level, right associativity) : py_scope.

(* --------------------------------------------------------------------- *)
(** ** Interval aligner ([app/api.py], [merge_transcription_diarization]) *)
(* --------------------------------------------------------------------- *)

Module Api.

(** Segment of the transcription service: keys [start], [end], [text]. *)
Record Segment : Type := mkSegment {
  seg_start : float;
  seg_end : float;
  seg_text : str
}.

(** Result of the transcription service. [language] is read with
    [.get("language", "en")], so it may be absent. *)
Record Transcription : Type := mkTranscription {
  tr_text : str;
  tr_segments : list Segment;
  tr_language : option str
}.

(** Segment of the diarization service: [start], [end], [speaker],
    [duration]. *)
Record DiaSegment : Type := mkDiaSegment {
  dia_start : float;
  dia_end : float;
  dia_speaker : str;
  dia_duration : float
}.

(** Output segment: [start], [end], [text], [speaker]. *)
Record SpeakerSegment : Type := mkSpeakerSegment {
  start : float;
  end_ : float;
  text : str;
  speaker : str
}.

Record MergedTranscript : Type := mkMerged {
  full_text : str;
  segments : list SpeakerSegment;
  language : str
}.

Definition DEFAULT_SPEAKER : str := lit "Speaker_0".

(** [dia_segment["start"] < segment_end and dia_segment["end"] > segment_start];
    on floats [a > b] is [b < a]. *)
Definition overlap_test (dia_segment : DiaSegment) (segment_start segment_end : float) : bool :=
  PrimFloat.ltb (dia_start dia_segment) segment_end
  && PrimFloat.ltb segment_start (dia_end dia_segment).

(** The inner [for dia_segment in diarization: ... break] loop; [speaker] is
    the value the variable holds when the loop is entered. *)
Fixpoint scan_diarization (diarization : list DiaSegment)
         (segment_start segment_end : float) (speaker : str) : str :=
  match diarization with
  | [] => speaker
  | dia_segment :: rest =>
      if overlap_test dia_segment segment_start segment_end
      then dia_speaker dia_segment
      else scan_diarization rest segment_start segment_end speaker
  end.

Definition merge_transcription_diarization
           (transcription : Transcription) (diarization : list DiaSegment)
  : MergedTranscript :=
  let segments_with_speakers :=
    match diarization with
    | _ :: _ =>
        map (fun segment =>
               let segment_start := seg_start segment in
               let segment_end := seg_end segment in
               let speaker :=
                 scan_diarization diarization segment_start segment_end
                                  DEFAULT_SPEAKER in
               {| start := seg_start segment;
                  end_ := seg_end segment;
                  text := seg_text segment;
                  speaker := speaker |})
            (tr_segments transcription)
    | [] =>
        map (fun segment =>
               {| start := seg_start segment;
                  end_ := seg_end segment;
                  text := seg_text segment;
                  speaker := DEFAULT_SPEAKER |})
            (tr_segments transcription)
    end in
  {| full_text := tr_text transcription;
     segments := segments_with_speakers;
     language := match tr_language transcription with
                 | Some l => l
                 | None => lit "en"
                 end |}.

(** *** What the specification asks of the aligner *)

(** Strict temporal overlap, as the specification writes it:
    [dia.start < seg.end] and [dia.end > seg.start]. *)
Definition strict_overlap (dia : DiaSegment) (seg : Segment) : Prop :=
  PrimFloat.ltb (dia_start dia) (seg_end seg) = true /\
  PrimFloat.ltb (seg_start seg) (dia_end dia) = true.

(** The label the specification assigns to a segment: the speaker of the
    first overlapping interval in input order, or the sentinel when no
    interval overlaps. *)
Inductive assigned_speaker (diarization : list DiaSegment) (seg : Segment)
  : str -> Prop :=
| assigned_first : forall before dia after,
    diarization = before ++ dia :: after ->
    Forall (fun d => ~ strict_overlap d seg) before ->
    strict_overlap dia seg ->
    assigned_speaker diarization seg (dia_speaker dia)
| assigned_default :
    Forall (fun d => ~ strict_overlap d seg) diarization ->
    assigned_speaker diarization seg DEFAULT_SPEAKER.

End Api.

(* --------------------------------------------------------------------- *)
(** ** Regular expressions of the [re] module

    The patterns that the services write as constants are given as syntax
    trees, next to the pattern text of the source. The matcher follows the
    backtracking order of [re]: alternatives from left to right, greedy
    repetition from the longest run down, and a search that tries the start
    positions from left to right.

    Patterns into which the services paste unescaped text are not covered
    here: see [MentionTracker.raw_finditer]. *)
(* --------------------------------------------------------------------- *)

Module Regex.

Inductive re : Type :=
| Cls (p : ascii -> bool)                      (* one character of a class *)
| Str (ignore_case : bool) (s : str)           (* a literal, as re.escape gives *)
| Seq (r1 r2 : re)                             (* r1 r2 *)
| Alt (r1 r2 : re)                             (* r1|r2 *)
| Rep (p : ascii -> bool) (lo : nat) (hi : option nat)   (* [p]{lo,hi}, greedy *)
| WordB                                        (* \b *)
| Behind (p : ascii -> bool)                   (* (?<=[p]) *)
| Bos.                                         (* ^ without re.MULTILINE *)

(** Character comparison, under [re.IGNORECASE] when [ignore_case]. *)
Definition chr_eqb (ignore_case : bool) (a b : ascii) : bool :=
if ignore_case
then Ascii.eqb (lower_char a) (lower_char b)
else Ascii.eqb a b.

Fixpoint lit_match (ignore_case : bool) (l s : str) : bool :=
match l, s with
| [], _ => true
| a :: l', b :: s' => chr_eqb ignore_case a b && lit_match ignore_case l' s'
| _ :: _, [] => false
end.

Fixpoint run_length (p : ascii -> bool) (s : str) : nat :=
match s with
| c :: s' => if p c then S (run_length p s') else 0
| [] => 0
end.

(** Lengths a greedy repetition can take at the head of [s], longest first. *)
Definition rep_ends (p : ascii -> bool) (lo : nat) (hi : option nat) (s : str)
  : list nat :=
let run := run_length p s in
let top := match hi with
           | Some h => Nat.min h run
           | None => run
           end in
if top <? lo then [] else rev (seq lo (top - lo + 1)).

Definition is_word_opt (c : option ascii) : bool :=
match c with
| Some c => is_word c
| None => false
end.

(** [\b] holds between [prev] and the head of [s]. *)
Definition word_boundary (prev : option ascii) (s : str) : bool :=
xorb (is_word_opt prev) (is_word_opt (hd_error s)).

(** The character before the position reached after [n] characters of [s]. *)
Definition prev_after (prev : option ascii) (s : str) (n : nat) : option ascii :=
match n with
| 0 => prev
| S k => nth_error s k
end.

(** [ends r prev s]: the lengths of the prefixes of [s] that [r] matches when
    the character before [s] is [prev] ([None] at the start of the text), in
    the order in which backtracking finds them. *)
Fixpoint ends (r : re) (prev : option ascii) (s : str) : list nat :=
match r with
| Cls p =>
    match s with
    | c :: _ => if p c then [1] else []
    | [] => []
    end
| Str ic l => if lit_match ic l s then [length l] else []
| Seq r1 r2 =>
    flat_map (fun n1 =>
                map (Nat.add n1)
                    (ends r2 (prev_after prev s n1) (skipn n1 s)))
             (ends r1 prev s)
| Alt r1 r2 => ends r1 prev s ++ ends r2 prev s
| Rep p lo hi => rep_ends p lo hi s
| WordB => if word_boundary prev s then [0] else []
| Behind p =>
    match prev with
    | Some c => if p c then [0] else []
    | None => []
    end
| Bos =>
    match prev with
    | None => [0]
    | Some _ => []
    end
end.

(** Length of the match of [r] at this position, if there is one. *)
Definition match_at (r : re) (prev : option ascii) (s : str) : option nat :=
hd_error (ends r prev s).

(** [re.search]: the span [(start, end)] of the leftmost match. *)
Fixpoint search_from (r : re) (prev : option ascii) (s : str) (pos : nat)
  : option (nat * nat) :=
match match_at r prev s with
| Some n => Some (pos, pos + n)
| None =>
    match s with
    | [] => None
    | c :: s' => search_from r (Some c) s' (S pos)
    end
end.

Definition search (r : re) (s : str) : option (nat * nat) :=
search_from r None s 0.

(** [re.finditer]: the spans of the successive matches. After a match of
    [n > 0] characters the scan resumes at its end ([skip] counts the
    characters still to pass over); after an empty match it resumes one
    character further. (The patterns of the services match either never or
    always the empty string at a position, so the rule of [re] for a pattern
    that can do both at one position does not arise.) *)
Fixpoint finditer_from (r : re) (prev : option ascii) (s : str) (pos skip : nat)
  : list (nat * nat) :=
match skip with
| S k =>
    match s with
    | [] => []
    | c :: s' => finditer_from r (Some c) s' (S pos) k
    end
| 0 =>
    match match_at r prev s with
    | Some n =>
        (pos, pos + n) ::
        match s with
        | [] => []
        | c :: s' => finditer_from r (Some c) s' (S pos) (pred n)
        end
    | None =>
        match s with
        | [] => []
        | c :: s' => finditer_from r (Some c) s' (S pos) 0
        end
    end
end.

Definition finditer (r : re) (s : str) : list (nat * nat) :=
finditer_from r None s 0 0.

(** The text between the matches [spans], from [pos] on. *)
Fixpoint pieces (s : str) (pos : nat) (spans : list (nat * nat)) : list str :=
match spans with
| [] => [skipn pos s]
| (a, b) :: rest => firstn (a - pos) (skipn pos s) :: pieces s b rest
end.

(** [re.split(r, s)] for a pattern without capturing groups. *)
Definition re_split (r : re) (s : str) : list str :=
pieces s 0 (finditer r s).

(** [re.sub(r, '', s)] *)
Definition sub_empty (r : re) (s : str) : str :=
concat (pieces s 0 (finditer r s)).

(** [(l1|l2|...)] *)
Fixpoint any_of (ignore_case : bool) (ls : list str) : re :=
match ls with
| [] => Cls (fun _ => false)
| [l] => Str ignore_case l
| l :: rest => Alt (Str ignore_case l) (any_of ignore_case rest)
end.

(** [\b] + [re.escape(word)] + [\b] *)
Definition whole_word (ignore_case : bool) (word : str) : re :=
Seq WordB (Seq (Str ignore_case word) WordB).

(** The words a pattern can match when the assertions [\b], [(?<=...)] and
    [^] are taken to hold: every match of the matcher is one of them
    ([ends_matches] below). *)
Inductive matches : re -> str -> Prop :=
| m_cls : forall p c, p c = true -> matches (Cls p) [c]
| m_str : forall ic l w, lit_match ic l w = true -> length w = length l ->
                         matches (Str ic l) w
| m_seq : forall r1 r2 w1 w2, matches r1 w1 -> matches r2 w2 ->
                              matches (Seq r1 r2) (w1 ++ w2)
| m_alt_l : forall r1 r2 w, matches r1 w -> matches (Alt r1 r2) w
| m_alt_r : forall r1 r2 w, matches r2 w -> matches (Alt r1 r2) w
| m_rep : forall p lo hi w, Forall (fun c => p c = true) w -> lo <= length w ->
                            matches (Rep p lo hi) w
| m_wordb : matches WordB []
| m_behind : forall p, matches (Behind p) []
| m_bos : matches Bos [].

End Regex.

(* --------------------------------------------------------------------- *)
(** ** Action item extractor ([services/action_items.py]) *)
(* --------------------------------------------------------------------- *)

Module ActionItems.
Import Regex.

(** *** The sentence and entity collaborator (spaCy)

    [ent.text] and [ent.label_] of an entity span; [sent.text] and
    [sent.ents] of a sentence; [doc.sents] of a document. *)
Record Ent : Type := mkEnt {
  ent_text : str;
  ent_label : str
}.

Record Sent : Type := mkSent {
  sent_text : str;
  sent_ents : list Ent
}.

Definition Doc : Type := list Sent.

(** [self.nlp]: the loaded pipeline, which may raise. *)
Definition Nlp : Type := str -> result Doc.

(** *** [round(x, 2)] on floats

    Python rounds the exact value of the float to two decimals, half to
    even, and returns the float nearest to that decimal. [num / den] is the
    exact value scaled by 100. The conversion of the scaled integer is exact
    below 2^53, which covers every float of magnitude below 2^46. *)
Definition round_half_even (num den : Z) : Z :=
let q := (num / den)%Z in
let r := (num mod den)%Z in
match (2 * r ?= den)%Z with
| Lt => q
| Gt => (q + 1)%Z
| Eq => if Z.even q then q else (q + 1)%Z
end.

Definition round2 (x : float) : float :=
match Prim2SF x with
| S754_finite s m e =>
    if (0 <=? e)%Z then x
    else
      let n := round_half_even (Zpos m * 100) (2 ^ (- e)) in
      let y := (PrimFloat.of_uint63 (Uint63.of_Z n) / 100)%float in
      if s then (- y)%float else y
| _ => x
end.

(** *** The tables of [__init__] *)

Definition action_verbs : list str :=
map lit ["will"; "should"; "must"; "need to"; "needs to"; "have to"; "has to";
         "going to"; "plan to"; "plans to"; "responsible for"; "assigned to";
         "take care of"; "handle"; "complete"; "finish"; "deliver"; "prepare";
         "create"; "build"; "develop"; "design"; "implement"; "review"; "send"]%string.

Definition priority_keywords_high : list str :=
map lit ["urgent"; "asap"; "immediately"; "critical"; "high priority"]%string.

Definition priority_keywords_low : list str :=
map lit ["when possible"; "eventually"; "low priority"; "nice to have"]%string.

Definition weekdays : list str :=
map lit ["monday"; "tuesday"; "wednesday"; "thursday"; "friday"; "saturday";
         "sunday"]%string.

Definition relative_days : list str :=
map lit ["tomorrow"; "today"; "next week"; "this week"]%string.

Definition months : list str :=
map lit ["january"; "february"; "march"; "april"; "may"; "june"; "july";
         "august"; "september"; "october"; "november"; "december"]%string.

(** [\b(monday|tuesday|wednesday|thursday|friday|saturday|sunday)\b] *)
Definition date_pattern_weekday : re :=
Seq WordB (Seq (any_of true weekdays) WordB).

(** [\b(tomorrow|today|next week|this week)\b] *)
Definition date_pattern_relative : re :=
Seq WordB (Seq (any_of true relative_days) WordB).

(** [\b(january|...|december)\s+\d{1,2}\b] *)
Definition date_pattern_month_day : re :=
Seq WordB (Seq (any_of true months)
  (Seq (Rep is_space 1 None) (Seq (Rep is_digit 1 (Some 2)) WordB))).

(** [\b\d{1,2}/\d{1,2}/\d{2,4}\b] *)
Definition date_pattern_numeric : re :=
Seq WordB (Seq (Rep is_digit 1 (Some 2)) (Seq (Str false (lit "/"))
  (Seq (Rep is_digit 1 (Some 2)) (Seq (Str false (lit "/"))
    (Seq (Rep is_digit 2 (Some 4)) WordB))))).

(** [self.date_patterns]; every search passes [re.IGNORECASE]. *)
Definition date_patterns : list re :=
[date_pattern_weekday; date_pattern_relative; date_pattern_month_day;
 date_pattern_numeric].

(** *** The methods *)

(** [any(verb in text_lower for verb in self.action_verbs)] *)
Definition _contains_action_verb (text : str) : bool :=
let text_lower := lower text in
existsb (fun verb => contains verb text_lower) action_verbs.

Definition roles : list str :=
map lit ["team"; "designer"; "developer"; "manager"; "lead"; "engineer"]%string.

(** The [for role in roles] loop of [_extract_assignee]. *)
Fixpoint first_role (roles : list str) (text_lower : str) : option str :=
match roles with
| [] => None
| role :: rest =>
    if contains (lit "the " ++ role) text_lower
    then Some (lit "The " ++ role)
    else first_role rest text_lower
end.

Definition _extract_assignee (sentence : Sent) : option str :=
let persons :=
  map ent_text
      (filter (fun ent => str_eqb (ent_label ent) (lit "PERSON"))
              (sent_ents sentence)) in
match persons with
| _ :: _ => Some (join (lit " and ") persons)
| [] => first_role roles (lower (sent_text sentence))
end.

(** The [for pattern in self.date_patterns] loop of [_extract_deadline];
    [match.group(0)] is the matched span of the searched text. *)
Fixpoint first_date (patterns : list re) (text_lower : str) : option str :=
match patterns with
| [] => None
| pattern :: rest =>
    match search pattern text_lower with
    | Some (a, b) => Some (title (firstn (b - a) (skipn a text_lower)))
    | None => first_date rest text_lower
    end
end.

Definition _extract_deadline (text : str) : option str :=
first_date date_patterns (lower text).

(** [any] over a keyword list, as the two [for keyword in ...] loops of
    [_extract_priority] use it. *)
Definition has_keyword (keywords : list str) (text_lower : str) : bool :=
existsb (fun keyword => contains keyword text_lower) keywords.

Definition _extract_priority (text : str) : str :=
let text_lower := lower text in
if has_keyword priority_keywords_high text_lower then lit "high"
else if has_keyword priority_keywords_low text_lower then lit "low"
else lit "medium".

(** [^(so|well|um|uh|okay|alright),?\s*], re.IGNORECASE *)
Definition filler_prefix : re :=
Seq Bos (Seq (any_of true (map lit ["so"; "well"; "um"; "uh"; "okay"; "alright"]%string))
  (Seq (Rep (Ascii.eqb ","%char) 0 (Some 1)) (Rep is_space 0 None))).

(** [^(can you|could you|would you|will you)\s+], re.IGNORECASE *)
Definition request_prefix : re :=
Seq Bos (Seq (any_of true (map lit ["can you"; "could you"; "would you"; "will you"]%string))
  (Rep is_space 1 None)).

(** [^[A-Z][a-z]+,\s*] *)
Definition vocative_prefix : re :=
Seq Bos (Seq (Cls is_upper) (Seq (Rep is_lower 1 None)
  (Seq (Str false (lit ",")) (Rep is_space 0 None)))).

Definition _extract_task_description (text : str) : str :=
let text := sub_empty filler_prefix text in
let text := sub_empty request_prefix text in
let text := sub_empty vocative_prefix text in
let text := strip text in
capitalize_first text.

Definition _calculate_confidence
           (has_assignee has_deadline has_action_verb : bool) (sentence_length : nat)
  : float :=
let score := 0.0%float in
let score := if has_action_verb then (score + 0.3)%float else score in
let score := if has_assignee then (score + 0.3)%float else score in
let score := if has_deadline then (score + 0.2)%float else score in
let score := if (5 <=? sentence_length) && (sentence_length <=? 30)
             then (score + 0.2)%float else score in
(* min(score, 1.0) *)
if PrimFloat.ltb 1.0 score then 1.0%float else score.

Record ActionItem : Type := mkActionItem {
  task : str;
  assignee : str;
  deadline : str;
  priority : str;
  context : str;
  confidence : float
}.

Definition UNASSIGNED : str := lit "Unassigned".
Definition NO_DEADLINE : str := lit "No deadline specified".

(** [x or default] for an optional string: [None] and the empty string are
    falsy. *)
Definition or_default (x : option str) (default : str) : str :=
match x with
| Some (c :: s) => c :: s
| Some [] => default
| None => default
end.

Definition is_some {A : Type} (x : option A) : bool :=
match x with
| Some _ => true
| None => false
end.

(** [len(sentence_text.split())] *)
Definition word_count (sentence_text : str) : nat := length (split sentence_text).

(** One pass of the [for sent in doc.sents] loop: the item appended for the
    sentence, if any. *)
Definition sentence_item (sent : Sent) : option ActionItem :=
let sentence_text := strip (sent_text sent) in
if negb (_contains_action_verb sentence_text) then None
else
  let assignee := _extract_assignee sent in
  let deadline := _extract_deadline sentence_text in
  let priority := _extract_priority sentence_text in
  let task := _extract_task_description sentence_text in
  let confidence :=
    _calculate_confidence (is_some assignee) (is_some deadline) true
                          (word_count sentence_text) in
  if PrimFloat.leb 0.6 confidence && negb (str_eqb task [])
  then Some {| task := task;
               assignee := or_default assignee UNASSIGNED;
               deadline := or_default deadline NO_DEADLINE;
               priority := priority;
               context := sentence_text;
               confidence := round2 confidence |}
  else None.

(** The list [action_items] when the loop ends. *)
Definition collect_items (doc : Doc) : list ActionItem :=
fold_left (fun action_items sent =>
             match sentence_item sent with
             | Some item => action_items ++ [item]
             | None => action_items
             end)
          doc [].

(** [priority_order.get(x["priority"], 3)] *)
Definition priority_rank (p : str) : Z :=
if str_eqb p (lit "high") then 0
else if str_eqb p (lit "medium") then 1
else if str_eqb p (lit "low") then 2
else 3.

(** What [extract] does with the document once [self.nlp] has returned it. *)
Definition extract_from_doc (doc : Doc) : list ActionItem :=
sorted_by (fun x => priority_rank (priority x)) (collect_items doc).

(** [extract]: an exception of the collaborator is logged and raised again. *)
Definition extract (nlp : Nlp) (text : str) : result (list ActionItem) :=
match nlp text with
| inr doc => ret (extract_from_doc doc)
| inl e => raise e
end.

(** *** What the specification asks of the extractor *)

Definition option_list {A : Type} (x : option A) : list A :=
match x with
| Some a => [a]
| None => []
end.

(** The items in the order of the sentences they come from. *)
Definition items_in_sentence_order (doc : Doc) : list ActionItem :=
flat_map (fun sent => option_list (sentence_item sent)) doc.

(** The place of a priority in an order of priorities, counted from 0; a
    priority that the order does not name comes after all the others. *)
Fixpoint place (p : str) (order : list str) : Z :=
match order with
| [] => 0
| q :: rest => if str_eqb p q then 0 else 1 + place p rest
end.

(** The rank of the specification: "high" before "medium" before "low". It
    is stated on its own, not through the table of [extract]. *)
Definition rank (item : ActionItem) : Z :=
place (priority item) [lit "high"; lit "medium"; lit "low"].

(** Non-decreasing priority rank. *)
Definition rank_sorted (items : list ActionItem) : Prop :=
StronglySorted (fun a b => (rank a <= rank b)%Z) items.

(** The items of priority [p], in the order of the list. *)
Definition with_priority (p : str) (items : list ActionItem) : list ActionItem :=
filter (fun x => str_eqb (priority x) p) items.

(** All the "high" items, then all the "medium" items, then all the "low"
    items, each group in the order of the list. *)
Definition by_priority (items : list ActionItem) : list ActionItem :=
with_priority (lit "high") items
++ with_priority (lit "medium") items
++ with_priority (lit "low") items.

(** The deadline sentinel in lower case. *)
Definition lower_no_deadline : str := lit "no deadline specified".

(** No PERSON entity of the sentence has the empty text or the text of the
    assignee sentinel. *)
Definition person_texts_distinct (sent : Sent) : Prop :=
forall ent, In ent (sent_ents sent) -> ent_label ent = lit "PERSON" ->
            ent_text ent <> [] /\ ent_text ent <> UNASSIGNED.

End ActionItems.

(* --------------------------------------------------------------------- *)
(** ** Mention tracker ([services/mention_tracker.py]) *)
(* --------------------------------------------------------------------- *)

Module MentionTracker.
Import Regex.

(** A mention dictionary of [_find_mentions]. *)
Record Mention : Type := mkMention {
  variation : str;
  matched_text : str;
  position : Z;
  end_position : Z;
  context : str
}.

(** An entry of ["mentions"] in a sentence dictionary. *)
Record SentenceMention : Type := mkSentenceMention {
  sm_text : str;
  sm_variation : str;
  position_in_sentence : Z
}.

(** A sentence dictionary of [_extract_sentences_with_mentions]. *)
Record SentenceGroup : Type := mkSentenceGroup {
  sentence : str;
  sentence_position : Z;
  sentence_mention_count : Z;
  sentence_mentions : list SentenceMention
}.

(** A task dictionary of [_extract_task_assignments]. *)
Record TaskAssignment : Type := mkTaskAssignment {
  ta_task : str;
  assigned_to : str;
  source_sentence : str;
  ta_confidence : str
}.

(** A dictionary of [_get_speaker_mentions]. *)
Record SpeakerMention : Type := mkSpeakerMention {
  segment_index : Z;
  spk_speaker : str;
  spk_text : str;
  start_time : float;
  end_time : float;
  mention_type : str
}.

(** The dictionary that [track_mentions] returns. *)
Record Report : Type := mkReport {
  username : str;
  highlight_transcript : str;
  mention_count : Z;
  mentions : list Mention;
  sentences_with_mentions : list SentenceGroup;
  sentence_count : Z;
  assigned_tasks : list TaskAssignment;
  speaker_mentions : list SpeakerMention;
  tracked_at : str;
  tracking_status : str
}.

(** [re.finditer(pattern, text, re.IGNORECASE)] for a pattern given as text,
    reduced to what [_extract_task_assignments] reads of it: [match.group(1)]
    of every match, [None] for a group that took no part in the match. The
    task patterns paste the name variations unescaped, so the pattern text
    depends on the user name and may not compile ([re.error]); the engine is
    therefore a parameter. *)
Definition RawFinditer : Type := str -> str -> result (list (option str)).

Definition MENTION_OPEN : str := lit "[MENTION]".
Definition MENTION_CLOSE : str := lit "[/MENTION]".

Definition len (s : str) : Z := Z.of_nat (length s).

Section WithRuntime.

(** Iteration order of the interpreter's sets. *)
Variable list_set : set_iteration.
(** The regular expression engine on pattern text. *)
Variable raw_finditer : RawFinditer.

(** [username.split()[0]] *)
Definition first_token (username : str) : result str :=
match split username with
| first :: _ => ret first
| [] => raise IndexError
end.

(** [[word[0] for word in username.split()]], joined. The words of [split]
    are never empty, so [word[0]] does not raise. *)
Definition initials_of (username : str) : str :=
flat_map (firstn 1) (split username).

Definition _generate_name_variations (username : str) : result (list str) :=
let variations := [lower username] in
if contains (lit " ") username
then
  (first_name <- first_token username ;;
   let first_name := lower first_name in
   let variations := variations ++ [first_name] in
   let initials := lower (initials_of username) in
   let variations := variations ++ [initials] in
   ret (list_set variations))%py
else ret (list_set variations).

(** The mention built for one match [(start_pos, end_pos)]. *)
Definition mention_of_match (transcript variation : str) (span : nat * nat)
  : Mention :=
let start_pos := Z.of_nat (fst span) in
let end_pos := Z.of_nat (snd span) in
let context_start := Z.max 0 (start_pos - 50) in
let context_end := Z.min (len transcript) (end_pos + 50) in
let context := slice transcript context_start context_end in
{| variation := variation;
   matched_text := slice transcript start_pos end_pos;
   position := start_pos;
   end_position := end_pos;
   context := strip context |}.

(** The loop of [_deduplicate_mentions] over [sorted_mentions[1:]]; [last] is
    [deduplicated[-1]], the result lists the mentions appended. *)
Fixpoint dedup_scan (last : Mention) (rest : list Mention) : list Mention :=
match rest with
| [] => []
| mention :: rest' =>
    if (position mention <? end_position last + 5)%Z
    then dedup_scan last rest'
    else mention :: dedup_scan mention rest'
end.

Definition _deduplicate_mentions (mentions : list Mention) : list Mention :=
match mentions with
| [] => []
| _ :: _ =>
    match sorted_by position mentions with
    | first :: rest => first :: dedup_scan first rest
    | [] => []
    end
end.

(** The mentions collected by the two nested loops of [_find_mentions]. *)
Definition candidate_mentions (transcript : str) (name_variations : list str)
  : list Mention :=
flat_map (fun variation =>
            map (mention_of_match transcript variation)
                (finditer (whole_word true variation) transcript))
         name_variations.

Definition _find_mentions (transcript : str) (name_variations : list str)
  : list Mention :=
let mentions := candidate_mentions transcript name_variations in
let mentions := _deduplicate_mentions mentions in
sorted_by position mentions.

(** One pass of the loop of [_build_highlighted_transcript]. *)
Definition highlight_one (highlighted : str) (mention : Mention) : str :=
let start := position mention in
let end_ := end_position mention in
let before := slice_to highlighted start in
let after := slice_from highlighted end_ in
before ++ MENTION_OPEN ++ matched_text mention ++ MENTION_CLOSE ++ after.

Definition _build_highlighted_transcript (transcript : str) (mentions : list Mention)
  : str :=
match mentions with
| [] => transcript
| _ :: _ =>
    let sorted_mentions := sorted_by_desc position mentions in
    fold_left highlight_one sorted_mentions transcript
end.

(** [(?<=[.!?])\s+|\n+] *)
Definition sentence_pattern : re :=
Alt (Seq (Behind (fun c => existsb (Ascii.eqb c) (lit ".!?"))) (Rep is_space 1 None))
    (Rep (Ascii.eqb "010"%char) 1 None).

(** The loop of [_extract_sentences_with_mentions] over [raw_sentences]. *)
Fixpoint sentences_loop (raw_sentences : list str) (current_pos : Z)
         (mentions : list Mention) : list SentenceGroup :=
match raw_sentences with
| [] => []
| raw_sentence :: rest =>
    if str_eqb (strip raw_sentence) []
    then sentences_loop rest (current_pos + len raw_sentence) mentions
    else
      let sentence_start := current_pos in
      let sentence_end := (current_pos + len raw_sentence)%Z in
      let sentence_mentions :=
        filter (fun m => (sentence_start <=? position m)%Z
                         && (position m <? sentence_end)%Z) mentions in
      let later := sentences_loop rest (sentence_end + 1) mentions in
      match sentence_mentions with
      | [] => later
      | _ :: _ =>
          {| sentence := strip raw_sentence;
             sentence_position := sentence_start;
             sentence_mention_count := Z.of_nat (length sentence_mentions);
             sentence_mentions :=
               map (fun m =>
                      {| sm_text := matched_text m;
                         sm_variation := variation m;
                         position_in_sentence := (position m - sentence_start)%Z |})
                   sentence_mentions |} :: later
      end
end.

Definition _extract_sentences_with_mentions (transcript : str) (mentions : list Mention)
  : list SentenceGroup :=
let raw_sentences := re_split sentence_pattern transcript in
sentences_loop raw_sentences 0 mentions.

(** [task_patterns]: the four pattern texts, with ['|'.join(name_variations)]
    pasted in. *)
Definition task_patterns (name_variations : list str) : list str :=
let names := join (lit "|") name_variations in
[ lit "(?:can you|could you|will you|would you|can (?:" ++ names ++ lit ")|"
    ++ names ++ lit "\s+(?:can|could|will|would))\s+(.+?)(?:[.!?]|$)";
  lit "(?:assign|assigned|assign to|give to)\s+(?:" ++ names
    ++ lit ")\s+(?:the\s+)?task\s+(?:to\s+)?(.+?)(?:[.!?]|$)";
  lit "(?:" ++ names ++ lit ")\s+(?:needs to|should|will|can|must)\s+(.+?)(?:[.!?]|$)";
  lit "(?:needs|need)\s+(?:" ++ names ++ lit ")\s+to\s+(.+?)(?:[.!?]|$)" ].

(** The [for match in matches] loop: the tasks appended for one pattern on
    one sentence. [match.group(1).strip()] raises when the group is [None]. *)
Fixpoint tasks_of_matches (username sentence_text : str) (groups : list (option str))
  : result (list TaskAssignment) :=
match groups with
| [] => ret []
| None :: _ => raise AttributeError
| Some g :: rest =>
    let task_text := strip g in
    (later <- tasks_of_matches username sentence_text rest ;;
     if negb (str_eqb task_text []) && (5 <? length task_text)
     then ret ({| ta_task := capitalize_first task_text;
                  assigned_to := username;
                  source_sentence := sentence_text;
                  ta_confidence := lit "extracted" |} :: later)
     else ret later)%py
end.

(** The [for pattern in task_patterns] loop on one sentence. *)
Fixpoint tasks_of_patterns (username sentence_text : str) (patterns : list str)
  : result (list TaskAssignment) :=
match patterns with
| [] => ret []
| pattern :: rest =>
    (matches <- raw_finditer pattern sentence_text ;;
     found <- tasks_of_matches username sentence_text matches ;;
     later <- tasks_of_patterns username sentence_text rest ;;
     ret (found ++ later))%py
end.

(** The [for sentence_dict in sentences] loop. *)
Fixpoint tasks_of_sentences (username : str) (patterns : list str)
         (sentences : list SentenceGroup) : result (list TaskAssignment) :=
match sentences with
| [] => ret []
| sentence_dict :: rest =>
    (found <- tasks_of_patterns username (sentence sentence_dict) patterns ;;
     later <- tasks_of_sentences username patterns rest ;;
     ret (found ++ later))%py
end.

(** The duplicate removal that ends [_extract_task_assignments]; [seen] is
    the set of lower-cased task texts met so far. *)
Fixpoint unique_tasks (tasks : list TaskAssignment) (seen : list str)
  : list TaskAssignment :=
match tasks with
| [] => []
| task :: rest =>
    let task_key := lower (ta_task task) in
    if existsb (str_eqb task_key) seen
    then unique_tasks rest seen
    else task :: unique_tasks rest (task_key :: seen)
end.

Definition _extract_task_assignments (sentences : list SentenceGroup)
           (username : str) (name_variations : list str)
  : result (list TaskAssignment) :=
(tasks <- tasks_of_sentences username (task_patterns name_variations) sentences ;;
 ret (unique_tasks tasks []))%py.

(** The loop of [_get_speaker_mentions]. The segments come from the aligner
    and carry no ["index"] key, so [segment.get("index", 0)] is 0. *)
Fixpoint _get_speaker_mentions (segments : list Api.SpeakerSegment)
         (name_variations : list str) : list SpeakerMention :=
match segments with
| [] => []
| segment :: rest =>
    let later := _get_speaker_mentions rest name_variations in
    if str_eqb (Api.speaker segment) [] then later
    else
      let speaker := lower (Api.speaker segment) in
      if existsb (fun variation => contains variation speaker) name_variations
      then {| segment_index := 0;
              spk_speaker := Api.speaker segment;
              spk_text := Api.text segment;
              start_time := Api.start segment;
              end_time := Api.end_ segment;
              mention_type := lit "speaker" |} :: later
      else later
end.

(** The body of the [try] block of [track_mentions]. [now] is what
    [datetime.now().isoformat()] returns during the call. *)
Definition track_mentions_body (now : str) (username full_transcript : str)
           (segments : list Api.SpeakerSegment) (diarization_available : bool)
  : result (option Report) :=
if str_eqb username [] || str_eqb full_transcript [] then ret None
else
  let username := strip username in
  (name_variations <- _generate_name_variations username ;;
   let mentions := _find_mentions full_transcript name_variations in
   match mentions with
   | [] => ret None
   | _ :: _ =>
       let highlighted_transcript :=
         _build_highlighted_transcript full_transcript mentions in
       let sentences_with_mentions :=
         _extract_sentences_with_mentions full_transcript mentions in
       assigned_tasks <-
         _extract_task_assignments sentences_with_mentions username name_variations ;;
       let speaker_mentions :=
         if diarization_available
         then _get_speaker_mentions segments name_variations
         else [] in
       ret (Some {| username := username;
                    highlight_transcript := highlighted_transcript;
                    mention_count := Z.of_nat (length mentions);
                    mentions := mentions;
                    sentences_with_mentions := sentences_with_mentions;
                    sentence_count := Z.of_nat (length sentences_with_mentions);
                    assigned_tasks := assigned_tasks;
                    speaker_mentions := speaker_mentions;
                    tracked_at := now;
                    tracking_status := lit "success" |})
   end)%py.

(** [track_mentions]: [except Exception] logs the error and returns [None]. *)
Definition track_mentions (now : str) (username full_transcript : str)
           (segments : list Api.SpeakerSegment) (diarization_available : bool)
  : option Report :=
match track_mentions_body now username full_transcript segments
                          diarization_available with
| inr result => result
| inl _ => None
end.

End WithRuntime.

(** *** What the specification asks of the mention list *)

(** Ascending positions. *)
Definition position_sorted (l : list Mention) : Prop :=
StronglySorted (fun a b => (position a <= position b)%Z) l.

(** No mention starts less than five characters after the end of the mention
    retained before it. *)
Definition gap_separated (l : list Mention) : Prop :=
Sorted (fun previous next =>
          ~ (position next < end_position previous + 5)%Z) l.

(** Modelled from the spec: the removal of the highlight markers, which the
    repository leaves to the reader of the highlighted transcript. One pass
    from left to right deletes every [[MENTION]] and [[/MENTION]] tag;
    [skip] counts the characters of the current tag still to delete. *)
Fixpoint remove_markers_from (skip : nat) (s : str) : str :=
match s with
| [] => []
| c :: s' =>
    match skip with
    | S k => remove_markers_from k s'
    | 0 =>
        if starts_with MENTION_OPEN s
        then remove_markers_from (length MENTION_OPEN - 1) s'
        else if starts_with MENTION_CLOSE s
        then remove_markers_from (length MENTION_CLOSE - 1) s'
        else c :: remove_markers_from 0 s'
    end
end.

Definition remove_markers (s : str) : str := remove_markers_from 0 s.

(** [matched_text = transcript[position:end_position]] *)
Definition matched_text_ok (transcript : str) (m : Mention) : Prop :=
matched_text m = slice transcript (position m) (end_position m).

(** The offsets of a mention are those of a span of the transcript, as the
    offsets of a match are. *)
Definition span_in_bounds (transcript : str) (m : Mention) : Prop :=
(0 <= position m)%Z /\ (position m <= end_position m)%Z
/\ (end_position m <= len transcript)%Z.

(** Neither marker tag occurs in the text. *)
Definition marker_free (s : str) : Prop :=
contains MENTION_OPEN s = false /\ contains MENTION_CLOSE s = false.

(** The report that the [try] block builds when it reaches its end. *)
Definition report_of (now username full_transcript : str)
         (segments : list Api.SpeakerSegment) (diarization_available : bool)
         (name_variations : list str) (tasks : list TaskAssignment) : Report :=
let found := _find_mentions full_transcript name_variations in
let sentences := _extract_sentences_with_mentions full_transcript found in
{| username := strip username;
   highlight_transcript := _build_highlighted_transcript full_transcript found;
   mention_count := Z.of_nat (length found);
   mentions := found;
   sentences_with_mentions := sentences;
   sentence_count := Z.of_nat (length sentences);
   assigned_tasks := tasks;
   speaker_mentions :=
     if diarization_available
     then _get_speaker_mentions segments name_variations
     else [];
   tracked_at := now;
   tracking_status := lit "success" |}.

(** The report with its time stamp blanked. *)
Definition without_time_stamp (r : Report) : Report :=
{| username := username r;
   highlight_transcript := highlight_transcript r;
   mention_count := mention_count r;
   mentions := mentions r;
   sentences_with_mentions := sentences_with_mentions r;
   sentence_count := sentence_count r;
   assigned_tasks := assigned_tasks r;
   speaker_mentions := speaker_mentions r;
   tracked_at := [];
   tracking_status := tracking_status r |}.

(** *** Notions used in the proof of the round trip *)

(** What follows a piece of the transcript in a highlighted text: nothing,
    or a tag. *)
Definition at_bracket (r : str) : Prop :=
r = [] \/ exists r', r = "["%char :: r'.

(** State of the highlighting loop: the text [h] is the transcript [t] up to
    offset [p], followed by the highlighted form of the rest. *)
Definition highlighted_upto (t : str) (p : nat) (h : str) : Prop :=
p <= length t
/\ exists H, h = firstn p t ++ H /\ at_bracket H /\ remove_markers H = skipn p t.

End MentionTracker.

(* --------------------------------------------------------------------- *)
(** ** Mention tracker: statistics and display
       ([get_mention_statistics], [_calculate_engagement],
       [format_for_display]) *)
(* --------------------------------------------------------------------- *)

Module MentionDisplay.
Import MentionTracker.

(** [_calculate_engagement]; [track_result.get("mention_count", 0)] reads the
    key of the report. *)
Definition _calculate_engagement (track_result : Report) : str :=
let mention_count := mention_count track_result in
if (20 <=? mention_count)%Z then lit "high"
else if (10 <=? mention_count)%Z then lit "medium"
else if (5 <=? mention_count)%Z then lit "moderate"
else if (0 <? mention_count)%Z then lit "low"
else lit "none".

(** The dictionary of [get_mention_statistics]. *)
Record Statistics : Type := mkStatistics {
  total_mentions : Z;
  sentence_mentions_total : Z;
  task_count : Z;
  speaker_mentions_total : Z;
  engagement_level : str
}.

(** [get_mention_statistics]; an absent result is falsy and gives the empty
    dictionary, here [None]. *)
Definition get_mention_statistics (track_result : option Report)
  : option Statistics :=
match track_result with
| None => None
| Some r =>
    Some {| total_mentions := mention_count r;
            sentence_mentions_total := sentence_count r;
            task_count := Z.of_nat (length (assigned_tasks r));
            speaker_mentions_total := Z.of_nat (length (speaker_mentions r));
            engagement_level := _calculate_engagement r |}
end.

(** The dictionary of [format_for_display]. *)
Record Display : Type := mkDisplay {
  display_username : str;
  highlighted_transcript : str;
  display_mention_count : Z;
  display_sentences : list SentenceGroup;
  display_tasks : list TaskAssignment;
  statistics : option Statistics;
  display_ready : bool
}.

Definition format_for_display (track_result : option Report) : option Display :=
match track_result with
| None => None
| Some r =>
    Some {| display_username := username r;
            highlighted_transcript := highlight_transcript r;
            display_mention_count := mention_count r;
            display_sentences := sentences_with_mentions r;
            display_tasks := assigned_tasks r;
            statistics := get_mention_statistics track_result;
            display_ready := true |}
end.

(** Rank of an engagement level, from "none" to "high". *)
Definition engagement_rank (level : str) : Z :=
if str_eqb level (lit "high") then 4
else if str_eqb level (lit "medium") then 3
else if str_eqb level (lit "moderate") then 2
else if str_eqb level (lit "low") then 1
else 0.

End MentionDisplay.

(* --------------------------------------------------------------------- *)
(** ** Summarization service ([services/summarization.py]) *)
(* --------------------------------------------------------------------- *)

Module Summarization.

(** What the services ask of the outside, in the order of the requests:
    a call of [summarize] with its keyword arguments, and a run of the
    transformer pipeline [self.summarizer(text, max_length=.., min_length=..)]. *)
Inductive Event : Type :=
| SummarizeCall (text : str) (kwargs : list (str * Z))
| PipelineRun (text : str) (max_length min_length : Z).

(** A computation that may raise and that records its requests. *)
Definition M (A : Type) : Type := list Event -> result A * list Event.

Definition mret {A} (a : A) : M A := fun log => (inr a, log).
Definition mraise {A} (e : exn) : M A := fun log => (inl e, log).
Definition mbind {A B} (m : M A) (k : A -> M B) : M B :=
fun log =>
  match m log with
  | (inr a, log') => k a log'
  | (inl e, log') => (inl e, log')
  end.
Definition emit (ev : Event) : M unit := fun log => (inr tt, log ++ [ev]).
(** [try: m except Exception: h] *)
Definition try_except {A} (m : M A) (h : exn -> M A) : M A :=
fun log =>
  match m log with
  | (inr a, log') => (inr a, log')
  | (inl e, log') => h e log'
  end.

Notation "x <~ m ;; k" := (mbind m (fun x => k))
  (at level 61, m at next level, right associativity).

(** The loaded model: the text the pipeline returns as [summary_text] (or the
    exception it raises) and the number of tokens of [tokenizer.encode]. *)
Record Model : Type := mkModel {
  summarizer : str -> Z -> Z -> result str;
  token_count : str -> nat
}.

(** The dictionary that [summarize] returns. *)
Record Summary : Type := mkSummary {
  summary : str;
  original_length : Z;
  summary_length : Z;
  compression_ratio : float
}.

(** [text.split(sep)] for a non-empty separator; [cur] is the current piece,
    reversed, and [skip] counts the characters of a separator still to pass. *)
Fixpoint split_on_from (sep : str) (cur : str) (skip : nat) (s : str) : list str :=
match s with
| [] => [rev cur]
| c :: s' =>
    match skip with
    | S k => split_on_from sep cur k s'
    | 0 =>
        if starts_with sep s
        then rev cur :: split_on_from sep [] (length sep - 1) s'
        else split_on_from sep (c :: cur) 0 s'
    end
end.

Definition split_on (sep s : str) : list str := split_on_from sep [] 0 s.

Section WithModel.

Variable model : Model.

Definition _summarize_chunk (text : str) (max_length : Z) : M str :=
(_ <~ emit (PipelineRun text max_length 30) ;;
 fun log => (summarizer model text max_length 30, log)).

(** The chunking loop of [_summarize_long_text]: the chunks appended, then
    [current_chunk] and [current_length] when the loop ends. *)
Fixpoint chunk_loop (sentences : list str) (current_chunk : list str)
         (current_length : nat) : list str * list str :=
match sentences with
| [] => ([], current_chunk)
| sentence :: rest =>
    let sentence_length := token_count model sentence in
    if 800 <? current_length + sentence_length
    then let '(chunks, last) := chunk_loop rest [sentence] sentence_length in
         (join (lit ". ") current_chunk :: chunks, last)
    else chunk_loop rest (current_chunk ++ [sentence])
                    (current_length + sentence_length)
end.

(** The loop that summarizes every chunk. *)
Fixpoint summarize_chunks (chunks : list str) (max_length : Z) : M (list str) :=
match chunks with
| [] => mret []
| chunk :: rest =>
    s <~ _summarize_chunk chunk max_length ;;
    later <~ summarize_chunks rest max_length ;;
    mret (s :: later)
end.

Definition _summarize_long_text (text : str) (max_length : Z) : M str :=
let sentences := split_on (lit ". ") text in
let '(chunks, current_chunk) := chunk_loop sentences [] 0 in
let chunks := match current_chunk with
              | [] => chunks
              | _ :: _ => chunks ++ [join (lit ". ") current_chunk]
              end in
match chunks with
| [] => mraise ZeroDivisionError
| _ :: _ =>
    chunk_summaries <~
      summarize_chunks chunks (max_length / Z.of_nat (length chunks)) ;;
    let combined := join (lit " ") chunk_summaries in
    _summarize_chunk combined max_length
end.

Definition float_of_nat (n : nat) : float :=
PrimFloat.of_uint63 (Uint63.of_Z (Z.of_nat n)).

(** The body of [summarize(self, text, max_length)]; the division raises when
    the summary is empty. *)
Definition summarize (text : str) (max_length : Z) : M Summary :=
let max_chunk_length := 1024 in
summary <~ (if max_chunk_length <? length text
            then _summarize_long_text text max_length
            else _summarize_chunk text max_length) ;;
match summary with
| [] => mraise ZeroDivisionError
| _ :: _ =>
    mret {| summary := summary;
            original_length := Z.of_nat (length text);
            summary_length := Z.of_nat (length summary);
            compression_ratio :=
              ActionItems.round2
                (float_of_nat (length text) / float_of_nat (length summary))%float |}
end.

(** The keyword parameters of [def summarize(self, text, max_length=200)]. *)
Definition summarize_keywords : list str := [lit "max_length"].

Fixpoint lookup (k : str) (kwargs : list (str * Z)) (default : Z) : Z :=
match kwargs with
| [] => default
| (k', v) :: rest => if str_eqb k k' then v else lookup k rest default
end.

(** A call [summarization_service.summarize(text, **kwargs)]: Python binds
    the keywords to the parameters before the body runs, and raises
    [TypeError] for a keyword the function does not have. *)
Definition call_summarize (text : str) (kwargs : list (str * Z)) : M Summary :=
_ <~ emit (SummarizeCall text kwargs) ;;
match filter (fun kw => negb (existsb (str_eqb (fst kw)) summarize_keywords)) kwargs with
| (k, _) :: _ =>
    mraise (TypeError (lit "summarize() got an unexpected keyword argument '"
                         ++ k ++ lit "'"))
| [] => summarize text (lookup (lit "max_length") kwargs 200)
end.

End WithModel.

End Summarization.

(* --------------------------------------------------------------------- *)
(** ** Personal insight synthesizer ([services/personal_insights.py]) *)
(* --------------------------------------------------------------------- *)

Module PersonalInsights.
Import Summarization.

(** The keywords of the call made by [_generate_personal_summary]:
    [max_length=150, min_length=30]. *)
Definition personal_kwargs : list (str * Z) :=
[(lit "max_length", 150%Z); (lit "min_length", 30%Z)].

Section WithRuntime.

Variable list_set : set_iteration.
Variable model : Model.

(** [parts[0]] guarded by [len(parts) > 1]. *)
Definition first_of_many (parts : list str) : list str :=
match parts with
| first :: _ :: _ => [lower first]
| _ => []
end.

(** [_generate_name_variations]: the elements added to the set, in the order
    of the [add] calls, then [list(variations)]. *)
Definition _generate_name_variations (name : str) : list str :=
let name_lower := lower name in
let variations := [name_lower] in
let parts := split name in
let variations := variations ++ first_of_many parts in
let initials := flat_map (firstn 1) (filter (fun p => negb (str_eqb p [])) parts) in
let variations :=
  if 0 <? length initials then variations ++ [lower initials] else variations in
list_set variations.

(** The header that precedes the summary. *)
Definition context_prompt (user_name : str) : str :=
lit "Summary for " ++ user_name ++ lit "'s involvement in the meeting:"
  ++ ["010"%char].

Definition _generate_personal_summary (personal_transcript user_name : str)
  : M str :=
if str_eqb personal_transcript [] || (length personal_transcript <? 10)
then mret []
else
  try_except
    (summary_result <~
       call_summarize model personal_transcript personal_kwargs ;;
     let summary_text := summary summary_result in
     mret (match summary_text with
           | [] => []
           | _ :: _ => context_prompt user_name ++ summary_text
           end))
    (fun _ => mret []).

End WithRuntime.

End PersonalInsights.

(* --------------------------------------------------------------------- *)
(** ** Personal insight synthesizer: transcript, action items, bundle
       ([_extract_personal_transcript], [_contains_name_mention],
       [_is_user_speaker], [_extract_personal_action_items],
       [extract_personal_insights]) *)
(* --------------------------------------------------------------------- *)

Module PersonalFlow.
Import Summarization PersonalInsights.

(** [{**segment, "match_reason": match_reason}] *)
Record PersonalSegment : Type := mkPersonalSegment {
  segment : Api.SpeakerSegment;
  match_reason : str
}.

(** The dictionary that [extract_personal_insights] returns. *)
Record Insights : Type := mkInsights {
  name : str;
  personal_summary : str;
  personal_transcript : str;
  personal_segments : list PersonalSegment;
  assigned_tasks : list ActionItems.ActionItem;
  transcript_coverage : Z;
  action_items_count : Z
}.

(** [name_lower in speaker_lower] *)
Definition _is_user_speaker (speaker_label name_lower : str) : bool :=
let speaker_lower := lower speaker_label in
contains name_lower speaker_lower.

(** The [for variation in name_variations] loop of [_contains_name_mention]:
    [re.search] of [\b] + [re.escape(variation)] + [\b] in the lower-cased
    text, without [re.IGNORECASE]. *)
Definition _contains_name_mention (text name_lower : str) (name_variations : list str)
  : bool :=
let text_lower := lower text in
existsb (fun variation =>
           ActionItems.is_some
             (Regex.search (Regex.whole_word false variation) text_lower))
        name_variations.

Section WithRuntime.

Variable list_set : set_iteration.
Variable model : Model.

(** The loop of [_extract_personal_transcript] over the segments;
    [seen_texts] is the set of the texts already taken. *)
Fixpoint personal_loop (name_lower : str) (name_variations : list str)
         (diarization_available : bool)
         (segments : list Api.SpeakerSegment) (seen_texts : list str)
  : list PersonalSegment :=
match segments with
| [] => []
| seg :: rest =>
    let segment_text := strip (Api.text seg) in
    if str_eqb segment_text []
    then personal_loop name_lower name_variations diarization_available rest seen_texts
    else
      let speaker_matched :=
        diarization_available
        && _is_user_speaker (lower (Api.speaker seg)) name_lower in
      let match_reason :=
        if speaker_matched then Some (lit "speaker_match")
        else if _contains_name_mention segment_text name_lower name_variations
        then Some (lit "name_mention")
        else None in
      match match_reason with
      | Some reason =>
          if existsb (str_eqb segment_text) seen_texts
          then personal_loop name_lower name_variations diarization_available
                             rest seen_texts
          else {| segment := seg; match_reason := reason |}
               :: personal_loop name_lower name_variations diarization_available
                                rest (segment_text :: seen_texts)
      | None =>
          personal_loop name_lower name_variations diarization_available
                        rest seen_texts
      end
end.

Definition _extract_personal_transcript (user_name : str)
           (segments : list Api.SpeakerSegment) (diarization_available : bool)
  : str * list PersonalSegment :=
let name_lower := lower user_name in
let name_variations := _generate_name_variations list_set user_name in
let personal_segments :=
  personal_loop name_lower name_variations diarization_available segments [] in
let personal_transcript :=
  join (lit " ") (map (fun seg => Api.text (segment seg)) personal_segments) in
(strip personal_transcript, personal_segments).

(** The test of the loop of [_extract_personal_action_items] on one item. *)
Definition is_relevant (name_variations : list str) (personal_transcript_lower : str)
           (item : ActionItems.ActionItem) : bool :=
let assignee := lower (ActionItems.assignee item) in
let by_assignee :=
  negb (str_eqb assignee [])
  && existsb (fun variation => contains variation assignee) name_variations in
if by_assignee then true
else
  let task_text := lower (ActionItems.task item) in
  let context := lower (ActionItems.context item) in
  if negb (str_eqb task_text []) && contains task_text personal_transcript_lower
  then true
  else negb (str_eqb context []) && contains context personal_transcript_lower.

(** The loop of [_extract_personal_action_items]. *)
Fixpoint relevant_items (name_variations : list str) (personal_transcript_lower : str)
         (action_items : list ActionItems.ActionItem)
  : list ActionItems.ActionItem :=
match action_items with
| [] => []
| item :: rest =>
    if is_relevant name_variations personal_transcript_lower item
    then item :: relevant_items name_variations personal_transcript_lower rest
    else relevant_items name_variations personal_transcript_lower rest
end.

Definition _extract_personal_action_items (user_name : str)
           (action_items : list ActionItems.ActionItem) (personal_transcript : str)
  : list ActionItems.ActionItem :=
let name_variations := _generate_name_variations list_set user_name in
let personal_transcript_lower := lower personal_transcript in
relevant_items name_variations personal_transcript_lower action_items.

(** [extract_personal_insights]; the handler of the [try] block returns
    [None]. *)
Definition extract_personal_insights (user_name full_transcript : str)
           (segments : list Api.SpeakerSegment)
           (action_items : list ActionItems.ActionItem)
           (diarization_available : bool) : M (option Insights) :=
if str_eqb user_name [] || str_eqb (strip user_name) [] then mret None
else
  try_except
    (let '(personal_transcript_text, personal_segments) :=
       _extract_personal_transcript user_name segments diarization_available in
     if str_eqb personal_transcript_text [] then mret None
     else
       personal_summary <~
         _generate_personal_summary model personal_transcript_text user_name ;;
       let personal_action_items :=
         _extract_personal_action_items user_name action_items
                                        personal_transcript_text in
       mret (Some {| name := user_name;
                     personal_summary := personal_summary;
                     personal_transcript := personal_transcript_text;
                     personal_segments := personal_segments;
                     assigned_tasks := personal_action_items;
                     transcript_coverage := Z.of_nat (length personal_segments);
                     action_items_count :=
                       Z.of_nat (length personal_action_items) |}))
    (fun _ => mret None).

End WithRuntime.

End PersonalFlow.

(* --------------------------------------------------------------------- *)
(** ** Notions used to state further properties of the services *)
(* --------------------------------------------------------------------- *)

Module Notions.

(** The interval ends when the segment starts or before, or starts when the
    segment ends or after. *)
Definition outside (d : Api.DiaSegment) (seg : Api.Segment) : Prop :=
PrimFloat.leb (Api.dia_end d) (Api.seg_start seg) = true
\/ PrimFloat.leb (Api.seg_end seg) (Api.dia_start d) = true.

(** Some interval of the list passes the overlap test of the aligner. *)
Definition overlapped (diarization : list Api.DiaSegment) (seg : Api.Segment) : bool :=
existsb (fun d => Api.overlap_test d (Api.seg_start seg) (Api.seg_end seg))
        diarization.

(** The word count earns the length share of the confidence. *)
Definition in_word_range (n : nat) : bool := (5 <=? n) && (n <=? 30).

(** A text is empty, or starts with a character that is neither blank nor a
    lower-case letter and ends with a character that is not blank. *)
Definition capitalized_and_stripped (s : str) : Prop :=
s = []
\/ ((exists c rest, s = c :: rest /\ is_space c = false /\ is_lower c = false)
    /\ (exists front d, s = front ++ [d] /\ is_space d = false)).

(** [near k m]: the mention [m] starts within the reach of the retained
    mention [k], that is not before [k] and less than five characters after
    its end. *)
Definition near (k m : MentionTracker.Mention) : Prop :=
(MentionTracker.position k <= MentionTracker.position m)%Z
/\ (MentionTracker.position m < MentionTracker.end_position k + 5)%Z.

(** Length of the two tags that wrap a mention. *)
Definition TAGS_LENGTH : nat :=
length MentionTracker.MENTION_OPEN + length MentionTracker.MENTION_CLOSE.

(** A sentence dictionary is consistent: its sentence is not empty, its
    count is the number of its mentions, it has a mention, and no mention
    lies before its start. *)
Definition group_consistent (g : MentionTracker.SentenceGroup) : Prop :=
MentionTracker.sentence g <> []
/\ MentionTracker.sentence_mention_count g
   = Z.of_nat (length (MentionTracker.sentence_mentions g))
/\ MentionTracker.sentence_mentions g <> []
/\ Forall (fun sm => (0 <= MentionTracker.position_in_sentence sm)%Z)
          (MentionTracker.sentence_mentions g).

(** The number of mention entries in all the sentence dictionaries. *)
Definition counted_mentions (groups : list MentionTracker.SentenceGroup) : nat :=
list_sum (map (fun g => length (MentionTracker.sentence_mentions g)) groups).

(** A task dictionary of the tracker as the loop builds it for this user
    from one of the sentences. *)
Definition task_well_formed (username : str)
           (sentences : list MentionTracker.SentenceGroup)
           (t : MentionTracker.TaskAssignment) : Prop :=
5 < length (MentionTracker.ta_task t)
/\ MentionTracker.assigned_to t = username
/\ MentionTracker.ta_confidence t = lit "extracted"
/\ exists g, In g sentences
            /\ MentionTracker.source_sentence t = MentionTracker.sentence g.

(** The segment has a speaker label, and the lower-cased label contains one
    of the variations. *)
Definition speaker_matches (name_variations : list str) (seg : Api.SpeakerSegment)
  : bool :=
negb (str_eqb (Api.speaker seg) [])
&& existsb (fun variation => contains variation (lower (Api.speaker seg)))
           name_variations.

(** [subsequence l1 l2]: [l1] is [l2] with some elements left out. *)
Inductive subsequence {A : Type} : list A -> list A -> Prop :=
| subsequence_nil : subsequence [] []
| subsequence_skip (x : A) (l1 l2 : list A) :
    subsequence l1 l2 -> subsequence l1 (x :: l2)
| subsequence_take (x : A) (l1 l2 : list A) :
    subsequence l1 l2 -> subsequence (x :: l1) (x :: l2).

(** The stripped text of a segment, which the synthesizer compares. *)
Definition stripped_text (seg : Api.SpeakerSegment) : str := strip (Api.text seg).

(** The speaker test of the synthesizer on a segment, made only with
    diarization. *)
Definition speaker_matched (name_lower : str) (diarization_available : bool)
           (seg : Api.SpeakerSegment) : bool :=
diarization_available
&& PersonalFlow._is_user_speaker (lower (Api.speaker seg)) name_lower.

(** The name test of the synthesizer on a segment. *)
Definition name_mentioned (name_lower : str) (name_variations : list str)
           (seg : Api.SpeakerSegment) : bool :=
PersonalFlow._contains_name_mention (stripped_text seg) name_lower name_variations.

(** The reason recorded with a personal segment is the first test that the
    segment passes. *)
Definition reason_justified (name_lower : str) (name_variations : list str)
           (diarization_available : bool) (ps : PersonalFlow.PersonalSegment)
  : Prop :=
stripped_text (PersonalFlow.segment ps) <> []
/\ ((PersonalFlow.match_reason ps = lit "speaker_match"
     /\ speaker_matched name_lower diarization_available
                        (PersonalFlow.segment ps) = true)
    \/ (PersonalFlow.match_reason ps = lit "name_mention"
        /\ speaker_matched name_lower diarization_available
                           (PersonalFlow.segment ps) = false
        /\ name_mentioned name_lower name_variations
                          (PersonalFlow.segment ps) = true)).

(** An event is a call of [summarize], not a run of the pipeline. *)
Definition is_summarize_call (ev : Summarization.Event) : Prop :=
match ev with
| Summarization.SummarizeCall _ _ => True
| Summarization.PipelineRun _ _ _ => False
end.

(** The number of tokens of a group of sentences. *)
Definition group_tokens (model : Summarization.Model) (group : list str) : nat :=
list_sum (map (Summarization.token_count model) group).

(** The chunks that [_summarize_long_text] summarizes: those of the loop,
    and the last one when [current_chunk] is not empty. *)
Definition long_text_chunks (model : Summarization.Model) (text : str) : list str :=
let sentences := Summarization.split_on (lit ". ") text in
let '(chunks, current_chunk) := Summarization.chunk_loop model sentences [] 0 in
match current_chunk with
| [] => chunks
| _ :: _ => chunks ++ [join (lit ". ") current_chunk]
end.

(** A group of sentences fits a chunk: it has at most 800 tokens, or it is
    a single sentence. *)
Definition group_fits (model : Summarization.Model) (group : list str) : Prop :=
length group <= 1 \/ group_tokens model group <= 800.

End Notions.

(* --------------------------------------------------------------------- *)
(** ** Concrete inputs used by the examples of Part II *)
(* --------------------------------------------------------------------- *)

Module Examples.
Import MentionTracker.

(** A transcript in which the user "Al Smith" is addressed twice. *)
Definition deck_transcript : str :=
lit "Al, can you review the deck? Thanks Al Smith.".

Definition deck_mentions : list Mention :=
[ {| variation := lit "al"; matched_text := lit "Al";
     position := 0; end_position := 2;
     context := lit "Al, can you review the deck? Thanks Al Smith." |};
  {| variation := lit "al smith"; matched_text := lit "Al Smith";
     position := 36; end_position := 44;
     context := lit "Al, can you review the deck? Thanks Al Smith." |} ].

(** A transcript that already contains the text of a marker tag. *)
Definition tagged_transcript : str := lit "Al said [MENTION]".

Definition tagged_mentions : list Mention :=
[ {| variation := lit "al"; matched_text := lit "Al";
     position := 0; end_position := 2;
     context := lit "Al said [MENTION]" |} ].

(** A document of five sentences, as the sentence and entity collaborator
    could return it. *)
Definition meeting_doc : ActionItems.Doc :=
[ ActionItems.mkSent (lit "John will send the report tomorrow.")
                     [ActionItems.mkEnt (lit "John") (lit "PERSON")];
  ActionItems.mkSent (lit "So, can you review the deck asap by 3/4/2024 ok?") [];
  ActionItems.mkSent (lit "Nothing here.") [];
  ActionItems.mkSent (lit "The team must finish eventually on March 12") [];
  ActionItems.mkSent (lit "Mary should prepare the slides.")
                     [ActionItems.mkEnt (lit "Mary") (lit "PERSON")] ].

Definition meeting_text : str :=
lit "John will send the report tomorrow. So, can you review the deck asap by 3/4/2024 ok? Nothing here. The team must finish eventually on March 12 Mary should prepare the slides.".

(** A collaborator that returns [meeting_doc]. *)
Definition meeting_nlp : ActionItems.Nlp := fun _ => inr meeting_doc.

(** A sentence whose only PERSON entity has the text of the sentinel. *)
Definition unassigned_doc : ActionItems.Doc :=
[ ActionItems.mkSent (lit "Unassigned will handle it")
                     [ActionItems.mkEnt (lit "Unassigned") (lit "PERSON")] ].

(** The engine on sentences in which no task pattern matches: every
    [re.finditer] yields no match. *)
Definition no_task_engine : RawFinditer := fun _ _ => inr [].

(** The engine on a pattern text that does not compile. *)
Definition failing_engine : RawFinditer := fun _ _ => inl ReError.

(** Two readings of the clock. *)
Definition clock_1 : str := lit "2026-01-01T10:00:00.000000".
Definition clock_2 : str := lit "2026-01-01T10:00:00.000250".

Definition spoke_transcript : str := lit "Al spoke.".

(** A model whose pipeline returns the first forty characters of its input. *)
Definition prefix_model : Summarization.Model :=
{| Summarization.summarizer := fun text _ _ => inr (firstn 40 text);
   Summarization.token_count := fun s => length (split s) |}.

Definition report_transcript : str := lit "Al will send the report on Friday.".

(** The engine on the sentence "Al, can you review the deck?" with the
    patterns of the user "Al": the first task pattern matches "can you
    review the deck?" with group 1 "review the deck", the three others do
    not match. *)
Definition deck_engine : RawFinditer :=
fun pattern _ =>
  if starts_with (lit "(?:can you|") pattern
  then inr [Some (lit "review the deck")]
  else inr [].

Definition deck_question : str := lit "Al, can you review the deck?".

(** Two transcription segments and two overlapping diarization intervals. *)
Definition two_segments : Api.Transcription :=
{| Api.tr_text := lit "Hello there. General remarks.";
   Api.tr_segments :=
     [ {| Api.seg_start := 0%float; Api.seg_end := 2%float;
          Api.seg_text := lit "Hello there." |};
       {| Api.seg_start := 2%float; Api.seg_end := 5%float;
          Api.seg_text := lit "General remarks." |} ];
   Api.tr_language := Some (lit "en") |}.

Definition overlapping_intervals : list Api.DiaSegment :=
[ {| Api.dia_start := 1.5%float; Api.dia_end := 2.5%float;
     Api.dia_speaker := lit "SPEAKER_01"; Api.dia_duration := 1%float |};
  {| Api.dia_start := 0%float; Api.dia_end := 5%float;
     Api.dia_speaker := lit "SPEAKER_00"; Api.dia_duration := 5%float |} ].

(** Two intervals that only touch or follow the first of [two_segments]. *)
Definition late_intervals : list Api.DiaSegment :=
[ {| Api.dia_start := 2%float; Api.dia_end := 3%float;
     Api.dia_speaker := lit "SPEAKER_00"; Api.dia_duration := 1%float |};
  {| Api.dia_start := 5%float; Api.dia_end := 6%float;
     Api.dia_speaker := lit "SPEAKER_01"; Api.dia_duration := 1%float |} ].

Definition first_segment : Api.Segment :=
{| Api.seg_start := 0%float; Api.seg_end := 2%float;
   Api.seg_text := lit "Hello there." |}.

(** Three aligned segments; the third repeats the text of the second. *)
Definition spoken_segments : list Api.SpeakerSegment :=
[ {| Api.start := 0%float; Api.end_ := 2%float;
     Api.text := lit "Thanks everyone."; Api.speaker := lit "SPEAKER_00" |};
  {| Api.start := 2%float; Api.end_ := 5%float;
     Api.text := lit "Al will send the report on Friday.";
     Api.speaker := lit "SPEAKER_01" |};
  {| Api.start := 5%float; Api.end_ := 8%float;
     Api.text := lit " Al will send the report on Friday. ";
     Api.speaker := lit "SPEAKER_00" |} ].

(** An action item that names nobody. *)
Definition unassigned_item : ActionItems.ActionItem :=
{| ActionItems.task := lit "Book the room";
   ActionItems.assignee := ActionItems.UNASSIGNED;
   ActionItems.deadline := lit "Friday";
   ActionItems.priority := lit "medium";
   ActionItems.context := lit "Someone should book the room by Friday.";
   ActionItems.confidence := 0.7%float |}.

(** A model in which every sentence counts 500 tokens. *)
Definition heavy_model : Summarization.Model :=
{| Summarization.summarizer := fun text _ _ => inr (firstn 40 text);
   Summarization.token_count := fun _ => 500 |}.

Definition three_sentences : str := lit "One two. Three four. Five six.".

(** Another admissible order of a set: last element first. *)
Definition reverse_order : set_iteration := fun l => rev (first_occurrence_order l).

(** A transcript in which the full name "Al Smith" occurs once. *)
Definition smith_transcript : str := lit "Thanks Al Smith.".

(** The engine on the sentence "Thanks Al Smith." with the patterns of the
    user "Al Smith", for either order of the variations "al smith", "al"
    and "as": the first task pattern has "al" as an alternative of its own
    and matches "Al Smith." with group 1 "Smith", the three others do not
    match. *)
Definition smith_engine : RawFinditer :=
fun pattern _ =>
  if starts_with (lit "(?:can you|") pattern
  then inr [Some (lit "Smith")]
  else inr [].

(** A model whose pipeline returns an empty summary. *)
Definition silent_model : Summarization.Model :=
{| Summarization.summarizer := fun _ _ _ => inr [];
   Summarization.token_count := fun s => length (split s) |}.

End Examples.

(* ===================================================================== *)
(** * Part II: properties *)
(* ===================================================================== *)

(* --------------------------------------------------------------------- *)
(** ** Interval aligner *)
(* --------------------------------------------------------------------- *)

Section AlignerProperties.
Import Api.

Lemma overlap_test_spec (dia : DiaSegment) (seg : Segment) :
  overlap_test dia (seg_start seg) (seg_end seg) = true <-> strict_overlap dia seg.
Proof.
  unfold overlap_test, strict_overlap. apply andb_true_iff.
Qed.

Lemma scan_diarization_assigned (diarization : list DiaSegment) (seg : Segment) :
  assigned_speaker diarization seg
    (scan_diarization diarization (seg_start seg) (seg_end seg) DEFAULT_SPEAKER).
Proof.
  induction diarization as [|d rest IH]; simpl.
  - apply assigned_default. constructor.
  - destruct (overlap_test d (seg_start seg) (seg_end seg)) eqn:E.
    + apply (assigned_first (d :: rest) seg [] d rest); auto.
      now apply overlap_test_spec.
    + assert (Hd : ~ strict_overlap d seg).
      { intros H. apply overlap_test_spec in H. congruence. }
      inversion IH as [before dia after Heq Hbefore Hdia Hsp | Hnone Hsp].
      * rewrite Heq.
        apply (assigned_first (d :: before ++ dia :: after) seg (d :: before) dia after);
          auto.
      * apply assigned_default. constructor; assumption.
Qed.

Lemma assigned_speaker_label (diarization : list DiaSegment) (seg : Segment) (s : str) :
  assigned_speaker diarization seg s ->
  s = DEFAULT_SPEAKER \/ In s (map dia_speaker diarization).
Proof.
  intros [before dia after Heq _ _ | _]; [right | now left].
  subst diarization. rewrite map_app. apply in_or_app. right. now left.
Qed.

Lemma merged_segments_eq (transcription : Transcription) (diarization : list DiaSegment) :
  segments (merge_transcription_diarization transcription diarization) =
  map (fun segment =>
         {| start := seg_start segment;
            end_ := seg_end segment;
            text := seg_text segment;
            speaker := scan_diarization diarization (seg_start segment)
                                        (seg_end segment) DEFAULT_SPEAKER |})
      (tr_segments transcription).
Proof.
  unfold merge_transcription_diarization. destruct diarization; reflexivity.
Qed.

(** C1. Every transcription segment receives the speaker of the first
    diarization interval, in input order, that strictly overlaps it, and the
    sentinel "Speaker_0" when the diarization list is empty or no interval
    overlaps; so every output speaker is a diarization label or the sentinel
    (the field is a string, never null). *)
Theorem merge_assigns_first_overlapping_speaker :
  forall (transcription : Transcription) (diarization : list DiaSegment),
    let out := segments (merge_transcription_diarization transcription diarization) in
    Forall2 (fun seg o => assigned_speaker diarization seg (speaker o))
            (tr_segments transcription) out
    /\ (diarization = [] -> Forall (fun o => speaker o = DEFAULT_SPEAKER) out)
    /\ Forall (fun o => speaker o = DEFAULT_SPEAKER
                        \/ In (speaker o) (map dia_speaker diarization)) out.
Proof.
  intros transcription diarization out. subst out.
  rewrite merged_segments_eq.
  induction (tr_segments transcription) as [|seg segs IH]; simpl.
  - repeat split; auto; constructor.
  - destruct IH as (IH1 & IH2 & IH3).
    pose proof (scan_diarization_assigned diarization seg) as Hseg.
    repeat split.
    + constructor; assumption.
    + intros ->. constructor; [reflexivity | now apply IH2].
    + constructor; [|assumption]. simpl.
      now apply assigned_speaker_label with (seg := seg).
Qed.

(** C9. The aligner returns one output segment per input segment, in the
    same order, whose [start], [end] and [text] are those of the input
    segment; the only other key of an output segment is [speaker]. *)
Theorem merge_preserves_segments :
  forall (transcription : Transcription) (diarization : list DiaSegment),
    let out := segments (merge_transcription_diarization transcription diarization) in
    length out = length (tr_segments transcription)
    /\ map (fun o => (start o, end_ o, text o)) out
       = map (fun seg => (seg_start seg, seg_end seg, seg_text seg))
             (tr_segments transcription)
    /\ full_text (merge_transcription_diarization transcription diarization)
       = tr_text transcription.
Proof.
  intros transcription diarization out. subst out.
  rewrite merged_segments_eq. repeat split.
  - apply length_map.
  - rewrite map_map. reflexivity.
Qed.

End AlignerProperties.
(* --------------------------------------------------------------------- *)
(** ** Facts about the matcher *)
(* --------------------------------------------------------------------- *)

Section RegexFacts.
Import Regex.

Lemma firstn_plus {A : Type} (n1 n2 : nat) (l : list A) :
  firstn (n1 + n2) l = firstn n1 l ++ firstn n2 (skipn n1 l).
Proof.
  revert l. induction n1 as [|n1 IH]; intros l; [reflexivity|].
  destruct l as [|x l]; simpl.
  - now rewrite firstn_nil.
  - now rewrite IH.
Qed.

Lemma lit_match_length (ic : bool) (l s : str) :
  lit_match ic l s = true -> length l <= length s.
Proof.
  revert s. induction l as [|a l IH]; intros [|b s]; simpl; try easy; try lia.
  intros H. apply andb_true_iff in H as [_ H]. apply IH in H. lia.
Qed.

Lemma lit_match_firstn (ic : bool) (l s : str) :
  lit_match ic l s = true -> lit_match ic l (firstn (length l) s) = true.
Proof.
  revert s. induction l as [|a l IH]; intros [|b s]; simpl; try easy.
  intros H. apply andb_true_iff in H as [H1 H2]. rewrite H1. now apply IH.
Qed.

Lemma run_length_le (p : ascii -> bool) (s : str) : run_length p s <= length s.
Proof.
  induction s as [|c s IH]; simpl; [lia|]. destruct (p c); simpl; lia.
Qed.

Lemma run_length_firstn (p : ascii -> bool) (s : str) (n : nat) :
  n <= run_length p s -> Forall (fun c => p c = true) (firstn n s).
Proof.
  revert n. induction s as [|c s IH]; intros [|n]; simpl; intros H;
    try (constructor; fail).
  destruct (p c) eqn:E; [|lia]. constructor; [exact E|]. apply IH. lia.
Qed.

Lemma rep_ends_bounds (p : ascii -> bool) (lo : nat) (hi : option nat)
      (s : str) (n : nat) :
  In n (rep_ends p lo hi s) -> lo <= n <= run_length p s.
Proof.
  unfold rep_ends.
  set (top := match hi with Some h => Nat.min h (run_length p s) | None => run_length p s end).
  assert (Htop : top <= run_length p s) by (unfold top; destruct hi; lia).
  destruct (top <? lo) eqn:E; [easy|]. apply Nat.ltb_ge in E.
  intros H. apply in_rev in H. apply in_seq in H. lia.
Qed.

(** Every match lies within the text and is a word of the pattern. *)
Lemma ends_matches (r : re) :
  forall (prev : option ascii) (s : str) (n : nat),
    In n (ends r prev s) -> n <= length s /\ matches r (firstn n s).
Proof.
  induction r as [p | ic l | r1 IH1 r2 IH2 | r1 IH1 r2 IH2 | p lo hi | | p | ];
    intros prev s n H; simpl in H.
  - destruct s as [|c s]; [easy|]. destruct (p c) eqn:E; [|easy].
    destruct H as [<-|[]]. simpl. split; [lia | now constructor].
  - destruct (lit_match ic l s) eqn:E; [|easy]. destruct H as [<-|[]].
    pose proof (lit_match_length _ _ _ E). split; [assumption|].
    constructor; [now apply lit_match_firstn | rewrite length_firstn; lia].
  - apply in_flat_map in H as (n1 & H1 & H2).
    apply in_map_iff in H2 as (n2 & <- & H2).
    apply IH1 in H1 as [L1 M1]. apply IH2 in H2 as [L2 M2].
    rewrite length_skipn in L2. split; [lia|].
    rewrite firstn_plus. now constructor.
  - apply in_app_or in H as [H|H].
    + apply IH1 in H as [L M]. split; [assumption | now apply m_alt_l].
    + apply IH2 in H as [L M]. split; [assumption | now apply m_alt_r].
  - apply rep_ends_bounds in H. pose proof (run_length_le p s).
    split; [lia|]. constructor.
    + apply run_length_firstn. lia.
    + rewrite length_firstn. lia.
  - destruct (word_boundary prev s); [|easy]. destruct H as [<-|[]].
    split; [lia | constructor].
  - destruct prev as [c|]; [|easy]. destruct (p c); [|easy].
    destruct H as [<-|[]]. split; [lia | constructor].
  - destruct prev; [easy|]. destruct H as [<-|[]]. split; [lia | constructor].
Qed.

Lemma match_at_matches (r : re) (prev : option ascii) (s : str) (n : nat) :
  match_at r prev s = Some n -> n <= length s /\ matches r (firstn n s).
Proof.
  unfold match_at. intros H. apply ends_matches with (prev := prev).
  destruct (ends r prev s); [discriminate|]. injection H as ->. now left.
Qed.

Lemma search_from_matches (r : re) (s : str) :
  forall (prev : option ascii) (pos a b : nat),
    search_from r prev s pos = Some (a, b) ->
    pos <= a /\ a <= b /\ b <= pos + length s
    /\ matches r (firstn (b - a) (skipn (a - pos) s)).
Proof.
  induction s as [|c s IH]; intros prev pos a b; simpl.
  - destruct (match_at r prev []) as [n|] eqn:E; [|discriminate].
    intros [= <- <-]. apply match_at_matches in E as [L M]. simpl in L.
    replace (pos + n - pos) with n by lia. rewrite Nat.sub_diag.
    repeat split; try lia. exact M.
  - destruct (match_at r prev (c :: s)) as [n|] eqn:E.
    + intros [= <- <-]. apply match_at_matches in E as [L M]. simpl in L.
      replace (pos + n - pos) with n by lia. rewrite Nat.sub_diag.
      repeat split; try lia. exact M.
    + intros H. apply IH in H as (H1 & H2 & H3 & H4).
      repeat split; try lia.
      replace (a - pos) with (S (a - S pos)) by lia. exact H4.
Qed.

Lemma search_matches (r : re) (s : str) (a b : nat) :
  search r s = Some (a, b) ->
  a <= b /\ b <= length s /\ matches r (firstn (b - a) (skipn a s)).
Proof.
  intros H. apply search_from_matches in H as (_ & H2 & H3 & H4).
  rewrite Nat.sub_0_r in H4. auto.
Qed.

Lemma finditer_from_bounds (r : re) (s : str) :
  forall (prev : option ascii) (pos skip a b : nat),
    In (a, b) (finditer_from r prev s pos skip) ->
    a <= b /\ b <= pos + length s.
Proof.
  induction s as [|c s IH]; intros prev pos skip a b; simpl.
  - destruct skip; [|easy].
    destruct (match_at r prev []) as [n|] eqn:E; [|easy].
    intros [[= <- <-]|[]]. apply match_at_matches in E as [L _]. simpl in L. lia.
  - destruct skip as [|k].
    + destruct (match_at r prev (c :: s)) as [n|] eqn:E.
      * intros [[= <- <-]|H].
        -- apply match_at_matches in E as [L _]. simpl in L. lia.
        -- apply IH in H. lia.
      * intros H. apply IH in H. lia.
    + intros H. apply IH in H. lia.
Qed.

Lemma finditer_bounds (r : re) (s : str) (a b : nat) :
  In (a, b) (finditer r s) -> a <= b /\ b <= length s.
Proof.
  intros H. apply finditer_from_bounds in H. lia.
Qed.

End RegexFacts.

(* --------------------------------------------------------------------- *)
(** ** Facts about the sorts *)
(* --------------------------------------------------------------------- *)

Section SortingFacts.

Context {A : Type} (key : A -> Z).

Let key_le (a b : A) : Prop := (key a <= key b)%Z.

Lemma insert_by_In (x y : A) (l : list A) :
  In y (insert_by key x l) <-> y = x \/ In y l.
Proof.
  induction l as [|a l IH]; simpl.
  - intuition.
  - destruct (key x <=? key a)%Z; simpl; rewrite ?IH; intuition.
Qed.

Lemma sorted_by_In (y : A) (l : list A) :
  In y (sorted_by key l) <-> In y l.
Proof.
  induction l as [|a l IH]; simpl; [reflexivity|].
  rewrite insert_by_In, IH. intuition.
Qed.

Lemma sorted_by_length (l : list A) : length (sorted_by key l) = length l.
Proof.
  assert (Hins : forall x l', length (insert_by key x l') = S (length l')).
  { intros x l'. induction l' as [|a l' IH]; simpl; [reflexivity|].
    destruct (key x <=? key a)%Z; simpl; [reflexivity | now rewrite IH]. }
  induction l as [|a l IH]; simpl; [reflexivity|].
  now rewrite Hins, IH.
Qed.

Lemma insert_by_sorted (x : A) (l : list A) :
  StronglySorted key_le l -> StronglySorted key_le (insert_by key x l).
Proof.
  induction 1 as [|a l Hl IH Ha]; simpl.
  - repeat constructor.
  - destruct (key x <=? key a)%Z eqn:E.
    + apply Z.leb_le in E. constructor.
      * now constructor.
      * constructor; [exact E|].
        eapply Forall_impl; [|exact Ha]. unfold key_le. intros b Hb. lia.
    + apply Z.leb_gt in E. constructor; [exact IH|].
      apply Forall_forall. intros b Hb. apply insert_by_In in Hb.
      destruct Hb as [->|Hb].
      * unfold key_le. lia.
      * rewrite Forall_forall in Ha. now apply Ha.
Qed.

Lemma sorted_by_sorted (l : list A) : StronglySorted key_le (sorted_by key l).
Proof.
  induction l as [|a l IH]; simpl; [constructor | now apply insert_by_sorted].
Qed.

(** A sorted list is left as it is. *)
Lemma sorted_by_fixpoint (l : list A) :
  StronglySorted key_le l -> sorted_by key l = l.
Proof.
  induction 1 as [|a l Hl IH Ha]; simpl; [reflexivity|].
  rewrite IH. destruct l as [|b l]; simpl; [reflexivity|].
  inversion Ha as [|? ? Hab _]; subst. unfold key_le in Hab.
  apply Z.leb_le in Hab. now rewrite Hab.
Qed.

(** Stability: the elements selected by a test that fixes the key keep their
    order. *)
Lemma insert_by_filter (q : A -> bool) (x : A) (l : list A) :
  (forall a b, q a = true -> q b = true -> key a = key b) ->
  filter q (insert_by key x l) = filter q (x :: l).
Proof.
  intros Hq. induction l as [|a l IH]; simpl; [reflexivity|].
  destruct (key x <=? key a)%Z eqn:E; simpl; [reflexivity|].
  apply Z.leb_gt in E. rewrite IH. simpl.
  destruct (q x) eqn:Ex, (q a) eqn:Ea; try reflexivity.
  specialize (Hq _ _ Ex Ea). lia.
Qed.

Lemma sorted_by_filter (q : A -> bool) (l : list A) :
  (forall a b, q a = true -> q b = true -> key a = key b) ->
  filter q (sorted_by key l) = filter q l.
Proof.
  intros Hq. induction l as [|a l IH]; simpl; [reflexivity|].
  rewrite insert_by_filter by exact Hq. simpl. now rewrite IH.
Qed.

(** A list with strictly ascending keys is reversed by the descending sort. *)
Lemma insert_by_desc_last (x : A) (l : list A) :
  Forall (fun y => (key x < key y)%Z) l -> insert_by_desc key x l = l ++ [x].
Proof.
  induction 1 as [|a l Ha Hl IH]; simpl; [reflexivity|].
  destruct (key a <=? key x)%Z eqn:E.
  - apply Z.leb_le in E. lia.
  - now rewrite IH.
Qed.

Lemma sorted_by_desc_rev (l : list A) :
  StronglySorted (fun a b => (key a < key b)%Z) l ->
  sorted_by_desc key l = rev l.
Proof.
  induction 1 as [|a l Hl IH Ha]; simpl; [reflexivity|].
  rewrite IH. apply insert_by_desc_last.
  apply Forall_forall. intros y Hy. apply in_rev in Hy.
  rewrite Forall_forall in Ha. now apply Ha.
Qed.

End SortingFacts.

(* --------------------------------------------------------------------- *)
(** ** Facts about [split] and [strip] *)
(* --------------------------------------------------------------------- *)

Section StringFacts.

(** The words of [split] are never empty. *)
Lemma split_aux_nonempty (cur s : str) :
  Forall (fun w => w <> []) (split_aux cur s).
Proof.
  revert cur. induction s as [|c s IH]; intros cur; simpl.
  - destruct cur as [|d cur]; constructor; [|constructor].
    intros H. apply (f_equal (@rev ascii)) in H. rewrite rev_involutive in H.
    discriminate H.
  - destruct (is_space c); [|apply IH].
    destruct cur as [|d cur]; [apply IH|].
    constructor; [|apply IH].
    intros H. apply (f_equal (@rev ascii)) in H. rewrite rev_involutive in H.
    discriminate H.
Qed.

Lemma split_nonempty_words (s : str) : Forall (fun w => w <> []) (split s).
Proof. apply split_aux_nonempty. Qed.

Lemma split_aux_started (cur s : str) : cur <> [] -> split_aux cur s <> [].
Proof.
  revert cur. induction s as [|c s IH]; intros cur Hcur; simpl.
  - destruct cur; [congruence | discriminate].
  - destruct (is_space c).
    + destruct cur; [congruence | discriminate].
    + apply IH. discriminate.
Qed.

Lemma lstrip_keeps_last (s : str) (c : ascii) :
  is_space c = false -> exists s', lstrip (s ++ [c]) = s' ++ [c].
Proof.
  intros Hc. induction s as [|d s IH]; simpl.
  - rewrite Hc. now exists [].
  - destruct (is_space d); [exact IH|]. now exists (d :: s).
Qed.

(** A stripped text is empty or starts with a character that is not blank. *)
Lemma strip_head (s : str) :
  strip s = [] \/ exists c s', strip s = c :: s' /\ is_space c = false.
Proof.
  unfold strip.
  assert (Hl : lstrip s = [] \/ exists c s', lstrip s = c :: s' /\ is_space c = false).
  { induction s as [|d s IH]; simpl; [now left|].
    destruct (is_space d) eqn:E; [exact IH|]. right. now exists d, s. }
  destruct Hl as [-> | (c & s' & -> & Hc)]; [now left|].
  right. unfold rstrip. simpl.
  destruct (lstrip_keeps_last (rev s') c Hc) as (t & ->).
  rewrite rev_app_distr. simpl. now exists c, (rev t).
Qed.

(** A stripped text that is not empty has a first word. *)
Lemma split_strip (s : str) : strip s <> [] -> split (strip s) <> [].
Proof.
  intros Hne. destruct (strip_head s) as [H | (c & s' & -> & Hc)]; [congruence|].
  unfold split. simpl. rewrite Hc. apply split_aux_started. discriminate.
Qed.

End StringFacts.

(* --------------------------------------------------------------------- *)
(** ** Mention tracker: deduplication *)
(* --------------------------------------------------------------------- *)

Section DeduplicationProperties.
Import MentionTracker.

Lemma dedup_scan_In (m last : Mention) (rest : list Mention) :
  In m (dedup_scan last rest) -> In m rest.
Proof.
  revert last. induction rest as [|a rest IH]; intros last; simpl; [tauto|].
  destruct (position a <? end_position last + 5)%Z; simpl.
  - intros H. right. now apply (IH last).
  - intros [->|H]; [now left | right; now apply (IH a)].
Qed.

Lemma dedup_scan_sorted (last : Mention) (rest : list Mention) :
  position_sorted rest -> position_sorted (dedup_scan last rest).
Proof.
  unfold position_sorted. intros H. revert last.
  induction H as [|a rest Hrest IH Ha]; intros last; simpl; [constructor|].
  destruct (position a <? end_position last + 5)%Z; [apply IH|].
  constructor; [apply IH|].
  apply Forall_forall. intros m Hm. apply dedup_scan_In in Hm.
  rewrite Forall_forall in Ha. now apply Ha.
Qed.

Lemma dedup_scan_gap (last : Mention) (rest : list Mention) :
  gap_separated (last :: dedup_scan last rest).
Proof.
  unfold gap_separated. revert last.
  induction rest as [|a rest IH]; intros last; simpl.
  - repeat constructor.
  - destruct (position a <? end_position last + 5)%Z eqn:E; [apply IH|].
    apply Z.ltb_ge in E. constructor; [apply IH|].
    constructor. lia.
Qed.

Lemma deduplicate_sorted (mentions : list Mention) :
  position_sorted (_deduplicate_mentions mentions).
Proof.
  unfold _deduplicate_mentions. destruct mentions as [|m0 ms]; [constructor|].
  pose proof (sorted_by_sorted position (m0 :: ms)) as Hs.
  destruct (sorted_by position (m0 :: ms)) as [|first rest]; [constructor|].
  inversion Hs as [|? ? Hrest Hfirst]; subst.
  constructor.
  - now apply dedup_scan_sorted.
  - apply Forall_forall. intros m Hm. apply dedup_scan_In in Hm.
    rewrite Forall_forall in Hfirst. now apply Hfirst.
Qed.

Lemma deduplicate_gap (mentions : list Mention) :
  gap_separated (_deduplicate_mentions mentions).
Proof.
  unfold _deduplicate_mentions. destruct mentions as [|m0 ms]; [constructor|].
  destruct (sorted_by position (m0 :: ms)) as [|first rest]; [constructor|].
  apply dedup_scan_gap.
Qed.

(** The final [mentions.sort] of [_find_mentions] changes nothing. *)
Lemma find_mentions_eq (transcript : str) (name_variations : list str) :
  _find_mentions transcript name_variations
  = _deduplicate_mentions (candidate_mentions transcript name_variations).
Proof.
  unfold _find_mentions. apply sorted_by_fixpoint. apply deduplicate_sorted.
Qed.

Lemma find_mentions_gap
      (transcript : str) (name_variations : list str) :
  gap_separated (_find_mentions transcript name_variations).
Proof.
  rewrite find_mentions_eq. apply deduplicate_gap.
Qed.

(** C2. For every mention list, the list that [_deduplicate_mentions]
    returns is sorted by ascending position and no retained mention starts
    less than five characters after the end of the one retained before it;
    the same holds of the list that [_find_mentions] returns. *)
Theorem deduplicated_mentions_sorted_and_separated :
  (forall mentions : list Mention,
      position_sorted (_deduplicate_mentions mentions)
      /\ gap_separated (_deduplicate_mentions mentions))
  /\ (forall (transcript : str) (name_variations : list str),
         position_sorted (_find_mentions transcript name_variations)
         /\ gap_separated (_find_mentions transcript name_variations)).
Proof.
  split.
  - intros mentions. split; [apply deduplicate_sorted | apply deduplicate_gap].
  - intros transcript name_variations. rewrite find_mentions_eq.
    split; [apply deduplicate_sorted | apply deduplicate_gap].
Qed.

End DeduplicationProperties.

(* --------------------------------------------------------------------- *)
(** ** Mention tracker: highlighting *)
(* --------------------------------------------------------------------- *)

Section HighlightProperties.
Import MentionTracker.

(** *** Occurrences of a tag *)

Lemma starts_with_app_l (p a b : str) :
  starts_with p a = true -> starts_with p (a ++ b) = true.
Proof.
  revert a. induction p as [|c p IH]; intros [|d a]; simpl; try easy.
  intros H. apply andb_true_iff in H as [H1 H2]. rewrite H1. now apply IH.
Qed.

Lemma contains_cons (p : str) (c : ascii) (x : str) :
  contains p (c :: x) = starts_with p (c :: x) || contains p x.
Proof. reflexivity. Qed.

Lemma contains_app_l (p a b : str) :
  contains p a = true -> contains p (a ++ b) = true.
Proof.
  induction a as [|d a IH]; simpl.
  - rewrite orb_false_r. intros H. destruct p; [|discriminate].
    destruct b; reflexivity.
  - intros H. apply orb_true_iff in H as [H|H].
    + apply starts_with_app_l with (b := b) in H. simpl in H. now rewrite H.
    + rewrite (IH H). apply orb_true_r.
Qed.

Lemma contains_app_r (p a b : str) :
  contains p b = true -> contains p (a ++ b) = true.
Proof.
  intros H. induction a as [|d a IH]; simpl; [exact H|].
  rewrite IH. apply orb_true_r.
Qed.

Lemma marker_free_app (a b : str) :
  marker_free (a ++ b) -> marker_free a /\ marker_free b.
Proof.
  unfold marker_free. intros [Ho Hc].
  repeat split; apply not_true_is_false; intros H.
  - apply contains_app_l with (b := b) in H. congruence.
  - apply contains_app_l with (b := b) in H. congruence.
  - apply contains_app_r with (a := a) in H. congruence.
  - apply contains_app_r with (a := a) in H. congruence.
Qed.

Lemma marker_free_firstn (n : nat) (t : str) : marker_free t -> marker_free (firstn n t).
Proof.
  intros H. rewrite <- (firstn_skipn n t) in H. now apply marker_free_app in H.
Qed.

Lemma marker_free_skipn (n : nat) (t : str) : marker_free t -> marker_free (skipn n t).
Proof.
  intros H. rewrite <- (firstn_skipn n t) in H. now apply marker_free_app in H.
Qed.

(** A tag whose characters other than the first are not brackets cannot
    start inside a text and end in the tag that follows the text. *)
Lemma starts_with_tail_inside (t y r : str) :
  ~ In "["%char t -> at_bracket r ->
  starts_with t (y ++ r) = true -> starts_with t y = true.
Proof.
  intros Ht Hr. revert y. induction t as [|a t IH]; intros y; [reflexivity|].
  destruct y as [|b y]; simpl.
  - destruct Hr as [-> | [r' ->]]; [discriminate|].
    intros H. apply andb_true_iff in H as [H _].
    apply Ascii.eqb_eq in H. subst a. exfalso. apply Ht. now left.
  - intros H. apply andb_true_iff in H as [H1 H2]. rewrite H1. simpl.
    apply IH; [|exact H2]. intros Hin. apply Ht. now right.
Qed.

Lemma starts_with_inside (c : ascii) (t y r : str) :
  ~ In "["%char t -> at_bracket r ->
  starts_with (c :: t) ((c :: y) ++ r) = true -> starts_with (c :: t) (c :: y) = true.
Proof.
  intros Ht Hr. simpl. rewrite Ascii.eqb_refl. simpl.
  now apply starts_with_tail_inside.
Qed.

Lemma starts_with_false_app (tag y r : str) :
  (exists a t, tag = a :: t /\ ~ In "["%char t) -> at_bracket r ->
  y <> [] -> starts_with tag y = false -> starts_with tag (y ++ r) = false.
Proof.
  intros (a & t & -> & Ht) Hr Hy H. destruct y as [|b y]; [congruence|].
  apply not_true_is_false. intros H'. simpl in H, H'.
  apply andb_true_iff in H' as [H1 H2]. rewrite H1 in H. simpl in H.
  apply starts_with_tail_inside in H2; auto. congruence.
Qed.

Lemma open_tag_shape :
  exists a t, MENTION_OPEN = a :: t /\ ~ In "["%char t.
Proof.
  eexists _, _. split; [reflexivity|]. simpl.
  intros H. repeat (destruct H as [H|H]; [discriminate|]). exact H.
Qed.

Lemma close_tag_shape :
  exists a t, MENTION_CLOSE = a :: t /\ ~ In "["%char t.
Proof.
  eexists _, _. split; [reflexivity|]. simpl.
  intros H. repeat (destruct H as [H|H]; [discriminate|]). exact H.
Qed.

(** *** Removal of the tags *)

Lemma remove_markers_open (r : str) :
  remove_markers (MENTION_OPEN ++ r) = remove_markers r.
Proof. reflexivity. Qed.

Lemma remove_markers_close (r : str) :
  remove_markers (MENTION_CLOSE ++ r) = remove_markers r.
Proof. reflexivity. Qed.

(** A tag-free piece followed by a tag, or by nothing, is kept as it is. *)
Lemma remove_markers_piece (x r : str) :
  marker_free x -> at_bracket r ->
  remove_markers (x ++ r) = x ++ remove_markers r.
Proof.
  intros Hx Hr. induction x as [|c x IH]; [reflexivity|].
  assert (Hx' : marker_free x).
  { change (c :: x) with ([c] ++ x) in Hx. now apply marker_free_app in Hx. }
  destruct Hx as [Ho Hc]. rewrite contains_cons in Ho, Hc.
  apply orb_false_iff in Ho as [Ho _]. apply orb_false_iff in Hc as [Hc _].
  pose proof (starts_with_false_app MENTION_OPEN (c :: x) r open_tag_shape Hr
                ltac:(discriminate) Ho) as Ho'.
  pose proof (starts_with_false_app MENTION_CLOSE (c :: x) r close_tag_shape Hr
                ltac:(discriminate) Hc) as Hc'.
  unfold remove_markers in *.
  change ((c :: x) ++ r) with (c :: (x ++ r)) in *.
  cbn [remove_markers_from]. rewrite Ho', Hc'.
  change ((c :: x) ++ remove_markers_from 0 r)
    with (c :: (x ++ remove_markers_from 0 r)).
  f_equal. now apply IH.
Qed.

(** *** The loop of [_build_highlighted_transcript] *)

Lemma slice_index_nat (n : nat) (i : Z) :
  (0 <= i)%Z -> slice_index n i = Nat.min n (Z.to_nat i).
Proof.
  intros H. unfold slice_index. destruct (i <? 0)%Z eqn:E; [|reflexivity].
  apply Z.ltb_lt in E. lia.
Qed.

Lemma highlighted_upto_start (t : str) : highlighted_upto t (length t) t.
Proof.
  split; [lia|]. exists []. rewrite firstn_all, app_nil_r, skipn_all.
  repeat split. now left.
Qed.

Lemma highlighted_upto_done (t : str) (p : nat) (h : str) :
  marker_free t -> highlighted_upto t p h -> remove_markers h = t.
Proof.
  intros Ht (Hp & H & -> & Hb & Hr).
  rewrite remove_markers_piece; auto using marker_free_firstn.
  rewrite Hr. apply firstn_skipn.
Qed.

Lemma highlight_one_step (t : str) (p : nat) (h : str) (m : Mention) :
  marker_free t -> highlighted_upto t p h ->
  (0 <= position m)%Z -> (position m <= end_position m)%Z ->
  Z.to_nat (end_position m) <= p ->
  matched_text_ok t m ->
  highlighted_upto t (Z.to_nat (position m)) (highlight_one h m).
Proof.
  intros Ht (Hp & H & -> & Hb & Hr) H0 Hle Hend Hm.
  set (a := Z.to_nat (position m)) in *.
  set (b := Z.to_nat (end_position m)) in *.
  assert (Hab : a <= b) by (unfold a, b; lia).
  assert (Hlen : length (firstn p t) = p) by (rewrite length_firstn; lia).
  unfold highlight_one, slice_to, slice_from.
  rewrite !slice_index_nat by lia. fold a b.
  rewrite length_app, Hlen.
  replace (Nat.min (p + length H) a) with a by lia.
  replace (Nat.min (p + length H) b) with b by lia.
  rewrite firstn_app, skipn_app, Hlen, firstn_firstn.
  replace (a - p) with 0 by lia. replace (b - p) with 0 by lia.
  replace (Nat.min a p) with a by lia.
  rewrite firstn_0, skipn_0, app_nil_r.
  unfold matched_text_ok, slice in Hm. rewrite !slice_index_nat in Hm by lia.
  fold a b in Hm.
  replace (Nat.min (length t) a) with a in Hm by lia.
  replace (Nat.min (length t) b) with b in Hm by lia.
  split; [lia|].
  exists (MENTION_OPEN ++ matched_text m ++ MENTION_CLOSE
            ++ skipn b (firstn p t) ++ H).
  split; [reflexivity|]. split.
  { right. eexists. reflexivity. }
  rewrite remove_markers_open.
  rewrite remove_markers_piece.
  - rewrite remove_markers_close, remove_markers_piece; auto.
    + rewrite Hr, Hm.
      rewrite <- (firstn_skipn (b - a) (skipn a t)) at 2.
      f_equal. rewrite skipn_skipn. replace (b - a + a) with b by lia.
      rewrite <- (firstn_skipn p t) at 3.
      rewrite skipn_app, Hlen. replace (b - p) with 0 by lia. reflexivity.
    + now apply marker_free_skipn, marker_free_firstn.
  - rewrite Hm. now apply marker_free_firstn, marker_free_skipn.
  - right. eexists. reflexivity.
Qed.

(** The mentions of an ascending, separated list, taken from the last to the
    first. [p] is where the text highlighted so far starts. *)
Lemma highlight_fold (t : str) (l : list Mention) (p : nat) (h : str) :
  marker_free t -> highlighted_upto t p h ->
  gap_separated l ->
  Forall (fun m => span_in_bounds t m /\ matched_text_ok t m) l ->
  Forall (fun m => Z.to_nat (end_position m) <= p) l ->
  exists p', highlighted_upto t p' (fold_left highlight_one (rev l) h)
             /\ match l with
                | [] => p' = p
                | m :: _ => p' = Z.to_nat (position m)
                end.
Proof.
  intros Ht Hh Hgap Hl Hp.
  induction l as [|m l IH]; simpl.
  - exists p. now split.
  - rewrite fold_left_app. simpl.
    inversion Hgap as [|? ? Hgap' Hhd]; subst.
    inversion Hl as [|? ? [(H0 & Hle & Hlen) Hm] Hl']; subst.
    inversion Hp as [|? ? Hmp Hp']; subst.
    destruct (IH Hgap' Hl' Hp') as (p' & Hh' & Hp'').
    exists (Z.to_nat (position m)). split; [|reflexivity].
    apply highlight_one_step with (p := p'); auto.
    destruct l as [|m' l]; [now subst|]. subst p'.
    inversion Hhd as [|? ? Hmm']; subst.
    inversion Hl' as [|? ? [(H0' & _) _] _]; subst. lia.
Qed.

(** Ascending and separated: the positions are strictly ascending. *)
Lemma separated_spans_strict (t : str) (l : list Mention) :
  gap_separated l -> Forall (span_in_bounds t) l ->
  StronglySorted (fun a b => (position a < position b)%Z) l.
Proof.
  intros Hgap Hl. apply Sorted_StronglySorted.
  - intros a b c Hab Hbc. lia.
  - induction Hgap as [|m l Hgap IH Hhd]; constructor.
    + apply IH. now inversion Hl.
    + inversion Hl as [|? ? (H0 & Hle & _) _]; subst.
      destruct Hhd as [|m' l Hmm']; constructor. lia.
Qed.

Lemma highlight_round_trip (t : str) (l : list Mention) :
  marker_free t -> gap_separated l ->
  Forall (fun m => span_in_bounds t m /\ matched_text_ok t m) l ->
  remove_markers (_build_highlighted_transcript t l) = t.
Proof.
  intros Ht Hgap Hl.
  assert (Hb : Forall (span_in_bounds t) l).
  { eapply Forall_impl; [|exact Hl]. now intros m [H _]. }
  assert (Heq : _build_highlighted_transcript t l
                = fold_left highlight_one (rev l) t).
  { unfold _build_highlighted_transcript. destruct l as [|m l]; [reflexivity|].
    rewrite (sorted_by_desc_rev position (m :: l)); [reflexivity|].
    now apply separated_spans_strict with (t := t). }
  rewrite Heq.
  destruct (highlight_fold t l (length t) t Ht (highlighted_upto_start t) Hgap Hl)
    as (p' & Hh & _).
  { eapply Forall_impl; [|exact Hb]. intros m (H0 & Hle & Hlen).
    unfold len in Hlen. lia. }
  now apply highlighted_upto_done with (p := p').
Qed.

(** *** The mentions that the search returns *)

Lemma deduplicate_In (m : Mention) (l : list Mention) :
  In m (_deduplicate_mentions l) -> In m l.
Proof.
  unfold _deduplicate_mentions. destruct l as [|m0 l]; [easy|].
  intros H. apply (sorted_by_In position).
  destruct (sorted_by position (m0 :: l)) as [|first rest]; [easy|].
  destruct H as [<-|H]; [now left | right; now apply dedup_scan_In in H].
Qed.

Lemma find_mentions_spans (transcript : str) (name_variations : list str) :
  Forall (fun m => span_in_bounds transcript m /\ matched_text_ok transcript m)
         (_find_mentions transcript name_variations).
Proof.
  rewrite find_mentions_eq. apply Forall_forall. intros m Hm.
  apply deduplicate_In in Hm. unfold candidate_mentions in Hm.
  apply in_flat_map in Hm as (v & _ & Hm).
  apply in_map_iff in Hm as ([a b] & <- & Hab).
  apply finditer_bounds in Hab.
  split; [|reflexivity].
  unfold span_in_bounds, len. simpl. lia.
Qed.

(** The highlighted transcript of the tracker, with its tags removed, is the
    transcript, for every transcript that contains neither tag. *)
Corollary tracked_highlight_round_trip (transcript : str) (name_variations : list str) :
  marker_free transcript ->
  remove_markers
    (_build_highlighted_transcript transcript
       (_find_mentions transcript name_variations)) = transcript.
Proof.
  intros Ht. apply highlight_round_trip; [exact Ht | | apply find_mentions_spans].
  apply find_mentions_gap.
Qed.

(** C3, as amended. For every transcript that contains neither marker tag
    and every position-sorted, deduplicated mention list whose entries are
    spans of the transcript ([0 <= position <= end_position <= len]) with
    [matched_text = transcript[position:end_position]], removing the
    [[MENTION]] and [[/MENTION]] tags from the highlighted transcript gives
    the transcript back. *)
Theorem highlight_markers_round_trip :
  forall (transcript : str) (mentions : list Mention),
    marker_free transcript ->
    position_sorted mentions ->
    gap_separated mentions ->
    Forall (span_in_bounds transcript) mentions ->
    Forall (matched_text_ok transcript) mentions ->
    remove_markers (_build_highlighted_transcript transcript mentions)
    = transcript.
Proof.
  intros transcript mentions Ht _ Hgap Hb Hm.
  apply highlight_round_trip; auto.
  rewrite Forall_forall in *. intros m Hin. split; auto.
Qed.

Lemma highlight_markers_round_trip_witness :
  marker_free Examples.deck_transcript
  /\ position_sorted Examples.deck_mentions
  /\ gap_separated Examples.deck_mentions
  /\ Forall (span_in_bounds Examples.deck_transcript) Examples.deck_mentions
  /\ Forall (matched_text_ok Examples.deck_transcript) Examples.deck_mentions
  /\ remove_markers
       (_build_highlighted_transcript Examples.deck_transcript Examples.deck_mentions)
     = Examples.deck_transcript.
Proof.
  assert (H1 : marker_free Examples.deck_transcript) by (split; reflexivity).
  assert (H2 : position_sorted Examples.deck_mentions).
  { repeat first [apply SSorted_cons | apply SSorted_nil
                 | apply Forall_cons | apply Forall_nil]; simpl; lia. }
  assert (H3 : gap_separated Examples.deck_mentions).
  { repeat first [apply Sorted_cons | apply Sorted_nil
                 | apply HdRel_cons | apply HdRel_nil]; simpl; lia. }
  assert (H4 : Forall (span_in_bounds Examples.deck_transcript) Examples.deck_mentions).
  { repeat first [apply Forall_cons | apply Forall_nil];
      unfold span_in_bounds, len; simpl; lia. }
  assert (H5 : Forall (matched_text_ok Examples.deck_transcript) Examples.deck_mentions).
  { repeat first [apply Forall_cons | apply Forall_nil]; reflexivity. }
  refine (conj H1 (conj H2 (conj H3 (conj H4 (conj H5 _))))).
  exact (highlight_markers_round_trip _ _ H1 H2 H3 H4 H5).
Defined.

(** C3, as stated, fails on a transcript that contains the text of a tag:
    the list below is the one the tracker finds for the user "Al", it is
    sorted, deduplicated and its [matched_text] is the span of the
    transcript, yet removing the tags also removes the tag of the
    transcript. *)
Lemma highlight_round_trip_counterexample :
  Examples.tagged_mentions
    = _find_mentions Examples.tagged_transcript [lit "al"]
  /\ position_sorted Examples.tagged_mentions
  /\ gap_separated Examples.tagged_mentions
  /\ Forall (matched_text_ok Examples.tagged_transcript) Examples.tagged_mentions
  /\ remove_markers
       (_build_highlighted_transcript Examples.tagged_transcript
                                      Examples.tagged_mentions)
     = lit "Al said "
  /\ remove_markers
       (_build_highlighted_transcript Examples.tagged_transcript
                                      Examples.tagged_mentions)
     <> Examples.tagged_transcript.
Proof.
  split; [reflexivity|].
  split; [repeat first [apply SSorted_cons | apply SSorted_nil | apply Forall_nil]|].
  split; [repeat first [apply Sorted_cons | apply Sorted_nil | apply HdRel_nil]|].
  split; [repeat first [apply Forall_cons | apply Forall_nil]; reflexivity|].
  split; [reflexivity | discriminate].
Qed.

End HighlightProperties.

(* --------------------------------------------------------------------- *)
(** ** Action item extractor *)
(* --------------------------------------------------------------------- *)

Section ActionItemProperties.
Import ActionItems.

(** *** Ordering *)

Lemma collect_items_from (doc : Doc) (acc : list ActionItem) :
  fold_left (fun action_items sent =>
               match sentence_item sent with
               | Some item => action_items ++ [item]
               | None => action_items
               end) doc acc
  = acc ++ items_in_sentence_order doc.
Proof.
  revert acc. induction doc as [|sent doc IH]; intros acc; simpl.
  - now rewrite app_nil_r.
  - rewrite IH. destruct (sentence_item sent); simpl.
    + now rewrite <- app_assoc.
    + reflexivity.
Qed.

Lemma collect_items_eq (doc : Doc) :
  collect_items doc = items_in_sentence_order doc.
Proof. unfold collect_items. now rewrite collect_items_from. Qed.

Lemma str_eqb_eq (a b : str) : str_eqb a b = true <-> a = b.
Proof. unfold str_eqb. destruct (str_eq_dec a b); split; congruence. Qed.

Lemma extract_priority_values (text : str) :
  In (_extract_priority text) [lit "high"; lit "medium"; lit "low"].
Proof.
  unfold _extract_priority.
  destruct (has_keyword priority_keywords_high (lower text)); [now left|].
  destruct (has_keyword priority_keywords_low (lower text)).
  - right. right. now left.
  - right. now left.
Qed.

Lemma sentence_item_priority (sent : Sent) (item : ActionItem) :
  sentence_item sent = Some item ->
  priority item = _extract_priority (strip (sent_text sent)).
Proof.
  unfold sentence_item.
  destruct (negb (_contains_action_verb (strip (sent_text sent)))); [discriminate|].
  match goal with |- (if ?c then _ else _) = _ -> _ => destruct c end;
    [|discriminate].
  now intros [= <-].
Qed.

Lemma in_items_in_sentence_order (doc : Doc) (item : ActionItem) :
  In item (items_in_sentence_order doc)
  <-> exists sent, In sent doc /\ sentence_item sent = Some item.
Proof.
  unfold items_in_sentence_order. rewrite in_flat_map.
  split; intros (sent & Hin & H); exists sent; split; auto.
  - destruct (sentence_item sent); simpl in H; [|easy].
    destruct H as [->|[]]. reflexivity.
  - rewrite H. now left.
Qed.

Lemma in_extract_from_doc (doc : Doc) (item : ActionItem) :
  In item (extract_from_doc doc)
  <-> exists sent, In sent doc /\ sentence_item sent = Some item.
Proof.
  unfold extract_from_doc. rewrite sorted_by_In, collect_items_eq.
  apply in_items_in_sentence_order.
Qed.

(** The rank of the specification and the table of [extract] agree. *)
Lemma rank_priority_rank (item : ActionItem) :
  rank item = priority_rank (priority item).
Proof.
  unfold rank, priority_rank. cbn [place].
  destruct (str_eqb (priority item) (lit "high")); [reflexivity|].
  destruct (str_eqb (priority item) (lit "medium")); [reflexivity|].
  destruct (str_eqb (priority item) (lit "low")); reflexivity.
Qed.

Lemma strongly_sorted_impl {A : Type} (R R' : A -> A -> Prop) (l : list A) :
  (forall a b, R a b -> R' a b) -> StronglySorted R l -> StronglySorted R' l.
Proof.
  intros HR. induction 1 as [|a l Hl IH Ha]; constructor; [exact IH|].
  eapply Forall_impl; [|exact Ha]. intros b. apply HR.
Qed.

Lemma filter_none {A : Type} (q : A -> bool) (l : list A) :
  Forall (fun y => q y = false) l -> filter q l = [].
Proof.
  induction 1 as [|a l Ha _ IH]; simpl; [reflexivity|]. now rewrite Ha.
Qed.

(** A sorted list with keys 0, 1 and 2 is its elements of key 0, then
    those of key 1, then those of key 2. *)
Lemma sorted_in_three_groups {A : Type} (key : A -> Z) (s : list A) :
  StronglySorted (fun a b => (key a <= key b)%Z) s ->
  Forall (fun x => (0 <= key x <= 2)%Z) s ->
  s = filter (fun x => (key x =? 0)%Z) s
      ++ filter (fun x => (key x =? 1)%Z) s
      ++ filter (fun x => (key x =? 2)%Z) s.
Proof.
  induction 1 as [|a l Hl IH Ha]; intros Hk; [reflexivity|].
  inversion Hk as [|? ? Hka Hkl]; subst. specialize (IH Hkl).
  assert (Hcase : key a = 0%Z \/ key a = 1%Z \/ key a = 2%Z) by lia.
  assert (H0 : (1 <= key a)%Z -> filter (fun x => (key x =? 0)%Z) l = []).
  { intros Hge. apply filter_none. eapply Forall_impl; [|exact Ha].
    intros y Hy. cbn beta in Hy. apply Z.eqb_neq. lia. }
  assert (H1 : (2 <= key a)%Z -> filter (fun x => (key x =? 1)%Z) l = []).
  { intros Hge. apply filter_none. eapply Forall_impl; [|exact Ha].
    intros y Hy. cbn beta in Hy. apply Z.eqb_neq. lia. }
  cbn [filter].
  destruct Hcase as [E | [E | E]]; rewrite E; cbn [Z.eqb Pos.eqb app].
  - now rewrite <- IH.
  - rewrite H0 in * by lia. cbn [app] in *. now rewrite <- IH.
  - rewrite H0, H1 in * by lia. cbn [app] in *. now rewrite <- IH.
Qed.

Lemma extract_from_doc_priorities (doc : Doc) :
  Forall (fun x => In (priority x) [lit "high"; lit "medium"; lit "low"])
         (extract_from_doc doc).
Proof.
  apply Forall_forall. intros item Hin.
  apply in_extract_from_doc in Hin as (sent & _ & Hitem).
  rewrite (sentence_item_priority _ _ Hitem). apply extract_priority_values.
Qed.

Lemma extract_from_doc_stable (doc : Doc) (p : str) :
  with_priority p (extract_from_doc doc)
  = with_priority p (items_in_sentence_order doc).
Proof.
  unfold with_priority, extract_from_doc. rewrite <- collect_items_eq.
  apply (sorted_by_filter (fun x => priority_rank (priority x))).
  intros a b Ha Hb. apply str_eqb_eq in Ha, Hb. congruence.
Qed.

(** The test of a priority and the test of its key in the table of
    [extract] select the same items. *)
Lemma with_priority_key (items : list ActionItem) (p : str) (k : Z) :
  Forall (fun x => In (priority x) [lit "high"; lit "medium"; lit "low"]) items ->
  In (p, k) [(lit "high", 0%Z); (lit "medium", 1%Z); (lit "low", 2%Z)] ->
  filter (fun x => (priority_rank (priority x) =? k)%Z) items
  = with_priority p items.
Proof.
  intros Hp Hk. unfold with_priority. apply filter_ext_in. intros x Hx.
  rewrite Forall_forall in Hp. specialize (Hp x Hx).
  destruct Hk as [[= <- <-] | [[= <- <-] | [[= <- <-] | []]]];
    destruct Hp as [<- | [<- | [<- | []]]]; reflexivity.
Qed.

(** C4. The list that [extract] returns is all the "high" items, then all
    the "medium" items, then all the "low" items of the document, each
    group in the order of the sentences they come from. So its priority
    rank, "high" before "medium" before "low", never decreases, every
    priority is one of the three, and the items of one priority are, in the
    same order, the items of that priority in the order of the sentences. *)
Theorem extract_orders_by_priority :
  forall (nlp : Nlp) (text : str) (doc : Doc),
    nlp text = inr doc ->
    exists items,
      extract nlp text = inr items
      /\ items = by_priority (items_in_sentence_order doc)
      /\ rank_sorted items
      /\ Forall (fun x => In (priority x) [lit "high"; lit "medium"; lit "low"]) items
      /\ forall p, with_priority p items
                   = with_priority p (items_in_sentence_order doc).
Proof.
  intros nlp text doc Hdoc. exists (extract_from_doc doc).
  pose proof (extract_from_doc_priorities doc) as Hp.
  assert (Hs : StronglySorted
                 (fun a b => (priority_rank (priority a)
                              <= priority_rank (priority b))%Z)
                 (extract_from_doc doc)).
  { apply (sorted_by_sorted (fun x => priority_rank (priority x))). }
  split; [unfold extract; now rewrite Hdoc|].
  split.
  - unfold by_priority. rewrite <- !extract_from_doc_stable.
    rewrite <- (with_priority_key _ (lit "high") 0 Hp) by (now left).
    rewrite <- (with_priority_key _ (lit "medium") 1 Hp) by (right; now left).
    rewrite <- (with_priority_key _ (lit "low") 2 Hp) by (right; right; now left).
    apply (sorted_in_three_groups (fun x => priority_rank (priority x)));
      [exact Hs|].
    eapply Forall_impl; [|exact Hp].
    intros x [<- | [<- | [<- | []]]]; vm_compute; split; discriminate.
  - split.
    + eapply strongly_sorted_impl; [|exact Hs].
      intros a b. now rewrite !rank_priority_rank.
    + split; [exact Hp | apply extract_from_doc_stable].
Qed.

Lemma extract_orders_by_priority_witness :
  exists items,
    extract Examples.meeting_nlp Examples.meeting_text = inr items
    /\ items = by_priority (items_in_sentence_order Examples.meeting_doc)
    /\ rank_sorted items
    /\ Forall (fun x => In (priority x) [lit "high"; lit "medium"; lit "low"]) items
    /\ forall p, with_priority p items
                 = with_priority p (items_in_sentence_order Examples.meeting_doc).
Proof.
  apply (extract_orders_by_priority Examples.meeting_nlp Examples.meeting_text
                                    Examples.meeting_doc).
  reflexivity.
Defined.

(** *** The confidence gate *)

Lemma confidence_gate (a d : bool) (n : nat) :
  PrimFloat.leb 0.6 (_calculate_confidence a d true n) = true ->
  a = true \/ (d = true /\ 5 <= n <= 30).
Proof.
  unfold _calculate_confidence.
  destruct ((5 <=? n) && (n <=? 30)) eqn:E.
  - apply andb_true_iff in E as [E1 E2].
    apply Nat.leb_le in E1, E2.
    destruct a; [now left|]. destruct d; [right; split; [reflexivity | lia]|].
    vm_compute. discriminate.
  - destruct a; [now left|]. destruct d; vm_compute; discriminate.
Qed.

Lemma confidence_range (a d : bool) (n : nat) :
  PrimFloat.leb 0.6 (_calculate_confidence a d true n) = true ->
  PrimFloat.leb 0.6 (round2 (_calculate_confidence a d true n)) = true
  /\ PrimFloat.leb (round2 (_calculate_confidence a d true n)) 1.0 = true.
Proof.
  unfold _calculate_confidence.
  destruct ((5 <=? n) && (n <=? 30)), a, d; vm_compute; intuition discriminate.
Qed.

(** *** The text of a deadline *)

Lemma lower_char_upper (c : ascii) : lower_char (upper_char c) = lower_char c.
Proof. destruct c as [[] [] [] [] [] [] [] []]; reflexivity. Qed.

Lemma lower_char_idem (c : ascii) : lower_char (lower_char c) = lower_char c.
Proof. destruct c as [[] [] [] [] [] [] [] []]; reflexivity. Qed.

(** [title] changes the case of letters only. *)
Lemma lower_title_aux (b : bool) (w : str) : lower (title_aux b w) = lower w.
Proof.
  revert b. induction w as [|c w IH]; intros b; simpl; [reflexivity|].
  rewrite IH. f_equal.
  destruct (is_alpha c); [|reflexivity].
  destruct b; [apply lower_char_idem | apply lower_char_upper].
Qed.

Lemma lower_title (w : str) : lower (title w) = lower w.
Proof. apply lower_title_aux. Qed.

Lemma matches_seq_inv (r1 r2 : Regex.re) (w : str) :
  Regex.matches (Regex.Seq r1 r2) w ->
  exists w1 w2, w = w1 ++ w2 /\ Regex.matches r1 w1 /\ Regex.matches r2 w2.
Proof. inversion 1; subst. eauto. Qed.

Lemma matches_wordb_inv (w : str) : Regex.matches Regex.WordB w -> w = [].
Proof. now inversion 1. Qed.

Lemma matches_rep_inv (p : ascii -> bool) (lo : nat) (hi : option nat) (w : str) :
  Regex.matches (Regex.Rep p lo hi) w ->
  Forall (fun c => p c = true) w /\ lo <= length w.
Proof. inversion 1; subst. auto. Qed.

Lemma matches_any_of (ic : bool) (ls : list str) (w : str) :
  Regex.matches (Regex.any_of ic ls) w ->
  exists l, In l ls /\ Regex.lit_match ic l w = true /\ length w = length l.
Proof.
  induction ls as [|l ls IH]; simpl.
  - inversion 1; subst. discriminate.
  - destruct ls as [|l' ls].
    + inversion 1; subst. exists l. auto.
    + inversion 1; subst.
      * match goal with H : Regex.matches (Regex.Str _ _) _ |- _ =>
          inversion H; subst end.
        exists l. auto.
      * destruct IH as (l0 & Hin & Hm & Hlen); [assumption|].
        exists l0. auto.
Qed.

(** A word of a pattern made of one of the listed words between two [\b]
    is not empty and is shorter than the sentinel. *)
Lemma word_pattern_not_sentinel (ls : list str) (w : str) :
  Forall (fun l => 0 < length l < length lower_no_deadline) ls ->
  Regex.matches (Regex.Seq Regex.WordB
                   (Regex.Seq (Regex.any_of true ls) Regex.WordB)) w ->
  w <> [] /\ lower w <> lower_no_deadline.
Proof.
  intros Hls H.
  apply matches_seq_inv in H as (w1 & u & -> & H1 & H).
  apply matches_seq_inv in H as (w2 & w3 & -> & H2 & H3).
  apply matches_wordb_inv in H1, H3. subst. simpl. rewrite app_nil_r.
  apply matches_any_of in H2 as (l & Hin & _ & Hlen).
  rewrite Forall_forall in Hls. specialize (Hls l Hin).
  split.
  - intros ->. simpl in Hlen. lia.
  - intros Heq. apply (f_equal (@length ascii)) in Heq.
    unfold lower in Heq. rewrite length_map in Heq. lia.
Qed.

Lemma digit_not_letter (c d : ascii) :
  is_digit c = true -> is_alpha d = true -> lower_char c <> d.
Proof.
  destruct c as [[] [] [] [] [] [] [] []]; try discriminate;
    intros _ Hd Heq; subst d; discriminate.
Qed.

Lemma month_day_not_sentinel (w : str) :
  Regex.matches date_pattern_month_day w ->
  w <> [] /\ lower w <> lower_no_deadline.
Proof.
  unfold date_pattern_month_day. intros H.
  apply matches_seq_inv in H as (w0 & u0 & -> & H0 & H).
  apply matches_seq_inv in H as (w1 & u1 & -> & H1 & H).
  apply matches_seq_inv in H as (w2 & u2 & -> & H2 & H).
  apply matches_seq_inv in H as (w3 & w4 & -> & H3 & H4).
  apply matches_wordb_inv in H0, H4. subst. rewrite app_nil_r. simpl.
  apply matches_rep_inv in H3 as [Hd Hlen].
  destruct (exists_last (l := w3)) as (y & c & ->).
  { intros ->. simpl in Hlen. lia. }
  apply Forall_app in Hd as [_ Hc]. inversion Hc as [|? ? Hc' _]; subst.
  rewrite !app_assoc. split.
  - intros Heq. symmetry in Heq. now apply app_cons_not_nil in Heq.
  - unfold lower. rewrite map_app. simpl.
    change lower_no_deadline with (lit "no deadline specifie" ++ ["d"%char]).
    intros Heq. apply app_inj_tail in Heq as [_ Heq].
    now apply (digit_not_letter c "d"%char Hc').
Qed.

Lemma numeric_not_sentinel (w : str) :
  Regex.matches date_pattern_numeric w ->
  w <> [] /\ lower w <> lower_no_deadline.
Proof.
  unfold date_pattern_numeric. intros H.
  apply matches_seq_inv in H as (w0 & u0 & -> & H0 & H).
  apply matches_seq_inv in H as (w1 & u1 & -> & H1 & _).
  apply matches_wordb_inv in H0. subst. simpl.
  apply matches_rep_inv in H1 as [Hd Hlen].
  destruct w1 as [|c w1]; [simpl in Hlen; lia|].
  inversion Hd as [|? ? Hc _]; subst. simpl.
  split; [discriminate|].
  intros Heq. injection Heq as Heq _.
  now apply (digit_not_letter c "n"%char Hc).
Qed.

Lemma date_pattern_not_sentinel (pattern : Regex.re) (w : str) :
  In pattern date_patterns -> Regex.matches pattern w ->
  w <> [] /\ lower w <> lower_no_deadline.
Proof.
  intros [<-|[<-|[<-|[<-|[]]]]].
  - apply word_pattern_not_sentinel.
    repeat first [apply Forall_cons | apply Forall_nil]; vm_compute; lia.
  - apply word_pattern_not_sentinel.
    repeat first [apply Forall_cons | apply Forall_nil]; vm_compute; lia.
  - apply month_day_not_sentinel.
  - apply numeric_not_sentinel.
Qed.

Lemma first_date_found (patterns : list Regex.re) (text_lower d : str) :
  first_date patterns text_lower = Some d ->
  exists pattern w, In pattern patterns /\ Regex.matches pattern w /\ d = title w.
Proof.
  induction patterns as [|pattern rest IH]; simpl; [discriminate|].
  destruct (Regex.search pattern text_lower) as [[a b]|] eqn:E.
  - intros [= <-]. apply search_matches in E as (_ & _ & M).
    exists pattern, (firstn (b - a) (skipn a text_lower)). auto.
  - intros H. destruct (IH H) as (p & w & Hin & M & Hd). exists p, w. auto.
Qed.

(** A deadline that was found is neither empty nor the text of the
    sentinel, so the [deadline] field differs from the sentinel. *)
Lemma extract_deadline_not_sentinel (text d : str) :
  _extract_deadline text = Some d ->
  or_default (Some d) NO_DEADLINE = d /\ d <> NO_DEADLINE.
Proof.
  intros H. apply first_date_found in H as (pattern & w & Hin & M & ->).
  destruct (date_pattern_not_sentinel pattern w Hin M) as [Hne Hw].
  split.
  - destruct w as [|c w]; [congruence|]. reflexivity.
  - intros Heq. apply Hw. rewrite <- lower_title, Heq. reflexivity.
Qed.

(** *** The text of an assignee *)

Lemma first_role_text (rs : list str) (text_lower a : str) :
  first_role rs text_lower = Some a -> exists role, a = lit "The " ++ role.
Proof.
  induction rs as [|role rest IH]; cbn [first_role]; [discriminate|].
  destruct (contains (lit "the " ++ role) text_lower).
  - intros [= Ha]. subst a. now exists role.
  - exact IH.
Qed.

Lemma join_and_text (p : str) (ps : list str) :
  ps <> [] -> In " "%char (join (lit " and ") (p :: ps)).
Proof.
  intros Hps. destruct ps as [|q ps]; [congruence|].
  change (join (lit " and ") (p :: q :: ps))
    with (p ++ lit " and " ++ join (lit " and ") (q :: ps)).
  apply in_or_app. right. now left.
Qed.

Lemma join_persons_text (p : str) (ps : list str) :
  p <> [] -> p <> UNASSIGNED ->
  or_default (Some (join (lit " and ") (p :: ps))) UNASSIGNED
  = join (lit " and ") (p :: ps)
  /\ join (lit " and ") (p :: ps) <> UNASSIGNED.
Proof.
  intros Hne Hun. destruct ps as [|q ps].
  - cbn [join]. split; [|exact Hun]. destruct p; [congruence | reflexivity].
  - pose proof (join_and_text p (q :: ps) ltac:(discriminate)) as Hsp.
    remember (join (lit " and ") (p :: q :: ps)) as j eqn:Ej. clear Ej.
    split.
    + destruct j; [destruct Hsp | reflexivity].
    + intros ->. simpl in Hsp.
      repeat (destruct Hsp as [Hsp|Hsp]; [discriminate|]). exact Hsp.
Qed.

(** The text of a resolved assignee is not the sentinel unless an entity
    text is. *)
Lemma extract_assignee_not_sentinel (sent : Sent) (a : str) :
  person_texts_distinct sent ->
  _extract_assignee sent = Some a ->
  or_default (Some a) UNASSIGNED = a /\ a <> UNASSIGNED.
Proof.
  intros Hd. unfold _extract_assignee.
  destruct (map ent_text
              (filter (fun ent => str_eqb (ent_label ent) (lit "PERSON"))
                      (sent_ents sent))) as [|p ps] eqn:E.
  - intros H. apply first_role_text in H as (role & ->). split; [reflexivity|].
    discriminate.
  - intros [= <-].
    assert (Hp : p <> [] /\ p <> UNASSIGNED).
    { assert (Hin : In p (p :: ps)) by now left.
      rewrite <- E in Hin. apply in_map_iff in Hin as (ent & <- & Hent).
      apply filter_In in Hent as [Hent Hlab]. apply str_eqb_eq in Hlab.
      now apply Hd. }
    apply join_persons_text; tauto.
Qed.

(** *** Emitted items *)

Lemma sentence_item_inv (sent : Sent) (item : ActionItem) :
  sentence_item sent = Some item ->
  let sentence_text := strip (sent_text sent) in
  let c := _calculate_confidence (is_some (_extract_assignee sent))
                                 (is_some (_extract_deadline sentence_text))
                                 true (word_count sentence_text) in
  PrimFloat.leb 0.6 c = true
  /\ assignee item = or_default (_extract_assignee sent) UNASSIGNED
  /\ deadline item = or_default (_extract_deadline sentence_text) NO_DEADLINE
  /\ context item = sentence_text
  /\ confidence item = round2 c.
Proof.
  unfold sentence_item.
  destruct (negb (_contains_action_verb (strip (sent_text sent)))); [discriminate|].
  match goal with |- (if ?g && ?t then _ else _) = _ -> _ =>
    destruct g eqn:G; [destruct t|]; simpl; try discriminate end.
  intros [= <-]. simpl. auto.
Qed.

(** C10, as amended. Every emitted action item has either a resolved
    assignee (a PERSON entity or a role phrase was found for its sentence),
    or both a resolved deadline (deadline field not "No deadline specified")
    and a source-sentence word count in [5, 30]; the assignee field of an
    item with a resolved assignee is the text found, and differs from
    "Unassigned" provided no PERSON entity of the sentence has the empty
    text or the text "Unassigned"; every emitted confidence lies in
    [0.6, 1.0]. *)
Theorem emitted_item_has_assignee_or_deadline :
  forall (doc : Doc) (item : ActionItem),
    In item (extract_from_doc doc) ->
    exists sent,
      In sent doc
      /\ context item = strip (sent_text sent)
      /\ ((exists a, _extract_assignee sent = Some a
                     /\ assignee item = or_default (Some a) UNASSIGNED
                     /\ (person_texts_distinct sent ->
                         assignee item = a /\ assignee item <> UNASSIGNED))
          \/ (deadline item <> NO_DEADLINE
              /\ 5 <= word_count (context item) <= 30))
      /\ PrimFloat.leb 0.6 (confidence item) = true
      /\ PrimFloat.leb (confidence item) 1.0 = true.
Proof.
  intros doc item Hin.
  apply in_extract_from_doc in Hin as (sent & Hsent & Hitem).
  apply sentence_item_inv in Hitem as (Hgate & Ha & Hd & Hc & Hconf).
  exists sent. split; [exact Hsent|]. split; [exact Hc|]. split.
  - apply confidence_gate in Hgate as [Hass | [Hdl Hlen]].
    + left. destruct (_extract_assignee sent) as [a|] eqn:E; [|discriminate].
      exists a. split; [reflexivity|]. split; [exact Ha|].
      intros Hdist.
      destruct (extract_assignee_not_sentinel sent a Hdist E) as [H1 H2].
      rewrite Ha, H1. auto.
    + right. rewrite Hc. split; [|exact Hlen].
      destruct (_extract_deadline (strip (sent_text sent))) as [d|] eqn:E;
        [|discriminate].
      destruct (extract_deadline_not_sentinel _ _ E) as [H1 H2].
      rewrite Hd, H1. exact H2.
  - rewrite Hconf. now apply confidence_range.
Qed.

Lemma emitted_item_has_assignee_or_deadline_witness :
  exists item sent,
    In item (extract_from_doc Examples.meeting_doc)
    /\ In sent Examples.meeting_doc
    /\ context item = strip (sent_text sent)
    /\ ((exists a, _extract_assignee sent = Some a
                   /\ assignee item = or_default (Some a) UNASSIGNED
                   /\ (person_texts_distinct sent ->
                       assignee item = a /\ assignee item <> UNASSIGNED))
        \/ (deadline item <> NO_DEADLINE
            /\ 5 <= word_count (context item) <= 30))
    /\ PrimFloat.leb 0.6 (confidence item) = true
    /\ PrimFloat.leb (confidence item) 1.0 = true.
Proof.
  exists (nth 0 (extract_from_doc Examples.meeting_doc)
              (mkActionItem [] [] [] [] [] 0%float)).
  assert (Hin : In (nth 0 (extract_from_doc Examples.meeting_doc)
                        (mkActionItem [] [] [] [] [] 0%float))
                   (extract_from_doc Examples.meeting_doc)).
  { vm_compute. left. reflexivity. }
  destruct (emitted_item_has_assignee_or_deadline Examples.meeting_doc _ Hin)
    as (sent & H).
  exists sent. split; [exact Hin | exact H].
Defined.

(** C10, as stated, fails when the only PERSON entity of a sentence has the
    text of the sentinel: the item is emitted with confidence 0.6, its
    assignee field reads "Unassigned", its deadline field is the default and
    its sentence has four words. *)
Lemma emitted_item_counterexample :
  exists item,
    In item (extract_from_doc Examples.unassigned_doc)
    /\ context item = lit "Unassigned will handle it"
    /\ assignee item = UNASSIGNED
    /\ deadline item = NO_DEADLINE
    /\ word_count (context item) = 4
    /\ ~ (assignee item <> UNASSIGNED
          \/ (deadline item <> NO_DEADLINE
              /\ 5 <= word_count (context item) <= 30)).
Proof.
  eexists. split; [left; reflexivity|]. vm_compute.
  repeat split; try reflexivity.
  intros [H | [H _]]; now apply H.
Qed.

End ActionItemProperties.

(* --------------------------------------------------------------------- *)
(** ** Mention tracker: results and errors *)
(* --------------------------------------------------------------------- *)

Section TrackerProperties.
Import MentionTracker.

Variable list_set : set_iteration.
Variable raw_finditer : RawFinditer.

Lemma str_eqb_nil (s : str) : str_eqb s [] = true <-> s = [].
Proof. apply str_eqb_eq. Qed.

(** On the stripped user name [_generate_name_variations] does not raise:
    [username.split()[0]] is reached only when the name has a space, and
    then the name has a first word. *)
Lemma generate_name_variations_stripped (username : str) :
  exists name_variations,
    _generate_name_variations list_set (strip username) = inr name_variations.
Proof.
  unfold _generate_name_variations, first_token.
  destruct (contains (lit " ") (strip username)) eqn:E; [|eexists; reflexivity].
  assert (Hne : strip username <> []).
  { intros H. rewrite H in E. discriminate E. }
  apply split_strip in Hne.
  destruct (split (strip username)) as [|first rest]; [congruence|].
  eexists. reflexivity.
Qed.

(** The outcomes of the [try] block, one by one. *)
Lemma track_mentions_body_cases
      (now username full_transcript : str)
      (segments : list Api.SpeakerSegment) (diarization_available : bool) :
  let body := track_mentions_body list_set raw_finditer now username
                                  full_transcript segments diarization_available in
  ((username = [] \/ full_transcript = []) /\ body = inr None)
  \/ (username <> [] /\ full_transcript <> [] /\
      ((exists e, _generate_name_variations list_set (strip username) = inl e
                  /\ body = inl e)
       \/ exists name_variations,
           _generate_name_variations list_set (strip username) = inr name_variations
           /\ ((_find_mentions full_transcript name_variations = []
                /\ body = inr None)
               \/ (_find_mentions full_transcript name_variations <> []
                   /\ ((exists e, body = inl e)
                       \/ exists tasks,
                           _extract_task_assignments raw_finditer
                             (_extract_sentences_with_mentions full_transcript
                                (_find_mentions full_transcript name_variations))
                             (strip username) name_variations = inr tasks
                           /\ body = inr (Some (report_of now username full_transcript
                                                   segments diarization_available
                                                   name_variations tasks))))))).
Proof.
  intros body. subst body. unfold track_mentions_body.
  destruct (str_eqb username []) eqn:Eu.
  { left. apply str_eqb_nil in Eu. auto. }
  destruct (str_eqb full_transcript []) eqn:Et.
  { left. apply str_eqb_nil in Et. auto. }
  right. simpl.
  assert (Hu : username <> []) by (intros H; apply str_eqb_nil in H; congruence).
  assert (Ht : full_transcript <> []) by (intros H; apply str_eqb_nil in H; congruence).
  split; [exact Hu|]. split; [exact Ht|].
  destruct (_generate_name_variations list_set (strip username)) as [e|nv] eqn:Ev;
    simpl.
  { left. exists e. auto. }
  right. exists nv. split; [reflexivity|].
  destruct (_find_mentions full_transcript nv) as [|m ms] eqn:Ef.
  { left. auto. }
  right. split; [discriminate|].
  destruct (_extract_task_assignments raw_finditer
              (_extract_sentences_with_mentions full_transcript (m :: ms))
              (strip username) nv) as [e|tasks] eqn:Ea; simpl.
  { left. exists e. reflexivity. }
  right. exists tasks. split; [reflexivity|].
  unfold report_of. rewrite Ef. reflexivity.
Qed.

(** C8. [track_mentions] returns a value on every input: an exception of its
    body is turned into [None]. It returns [None] exactly when the user name
    is empty, the transcript is empty, no mention is found, or the body
    raises; otherwise it returns the populated report. *)
Theorem track_mentions_absent_iff :
  forall (now username full_transcript : str)
         (segments : list Api.SpeakerSegment) (diarization_available : bool),
    let run := track_mentions list_set raw_finditer now username full_transcript
                              segments diarization_available in
    let body := track_mentions_body list_set raw_finditer now username
                                    full_transcript segments diarization_available in
    (run = None
     <-> (username = [] \/ full_transcript = []
          \/ (exists name_variations,
                 _generate_name_variations list_set (strip username)
                 = inr name_variations
                 /\ _find_mentions full_transcript name_variations = [])
          \/ exists e, body = inl e))
    /\ (run <> None
        <-> exists name_variations tasks,
            _generate_name_variations list_set (strip username) = inr name_variations
            /\ _find_mentions full_transcript name_variations <> []
            /\ run = Some (report_of now username full_transcript segments
                                     diarization_available name_variations tasks)).
Proof.
  intros now username full_transcript segments diarization_available run body.
  pose proof (track_mentions_body_cases now username full_transcript segments
                                        diarization_available) as H.
  cbv zeta in H. fold body in H.
  assert (Hrun : run = match body with inr r => r | inl _ => None end)
    by reflexivity.
  destruct H as [[Hempty Hb] | (Hu & Ht & [ (e & Hv & Hb) | (nv & Hv & H) ])].
  - rewrite Hb in Hrun. split.
    + split; [intros _; tauto | intros _; exact Hrun].
    + split; [congruence|].
      intros (nv & tasks & _ & _ & Hr). congruence.
  - rewrite Hb in Hrun. split.
    + split; [intros _ | intros _; exact Hrun].
      right. right. right. now exists e.
    + split; [congruence|].
      intros (nv & tasks & _ & _ & Hr). congruence.
  - destruct H as [[Hf Hb] | (Hf & [ (e & Hb) | (tasks & Ha & Hb) ])];
      rewrite Hb in Hrun.
    + split.
      * split; [intros _ | intros _; exact Hrun].
        right. right. left. now exists nv.
      * split; [congruence|].
        intros (nv' & tasks & _ & _ & Hr). congruence.
    + split.
      * split; [intros _ | intros _; exact Hrun].
        right. right. right. now exists e.
      * split; [congruence|].
        intros (nv' & tasks & _ & _ & Hr). congruence.
    + split.
      * split; [congruence|].
        intros [H | [H | [(nv' & Hv' & Hf') | (e & He)]]]; congruence.
      * split; [intros _ | congruence].
        exists nv, tasks. auto.
Qed.

(** The clock reading is stored in [tracked_at] and read nowhere else. *)
Lemma track_mentions_clock
      (now1 now2 username full_transcript : str)
      (segments : list Api.SpeakerSegment) (diarization_available : bool) :
  option_map without_time_stamp
    (track_mentions list_set raw_finditer now1 username full_transcript
                    segments diarization_available)
  = option_map without_time_stamp
      (track_mentions list_set raw_finditer now2 username full_transcript
                      segments diarization_available).
Proof.
  unfold track_mentions, track_mentions_body.
  destruct (str_eqb username [] || str_eqb full_transcript []); [reflexivity|].
  destruct (_generate_name_variations list_set (strip username)) as [e|nv];
    [reflexivity|]. simpl.
  destruct (_find_mentions full_transcript nv) as [|m ms]; [reflexivity|].
  destruct (_extract_task_assignments raw_finditer
              (_extract_sentences_with_mentions full_transcript (m :: ms))
              (strip username) nv); reflexivity.
Qed.

Lemma track_mentions_time_stamp
      (now username full_transcript : str)
      (segments : list Api.SpeakerSegment) (diarization_available : bool)
      (report : Report) :
  track_mentions list_set raw_finditer now username full_transcript
                 segments diarization_available = Some report ->
  tracked_at report = now.
Proof.
  unfold track_mentions, track_mentions_body.
  destruct (str_eqb username [] || str_eqb full_transcript []); [discriminate|].
  destruct (_generate_name_variations list_set (strip username)) as [e|nv];
    [discriminate|]. simpl.
  destruct (_find_mentions full_transcript nv) as [|m ms]; [discriminate|].
  destruct (_extract_task_assignments raw_finditer
              (_extract_sentences_with_mentions full_transcript (m :: ms))
              (strip username) nv); [discriminate|].
  simpl. now intros [= <-].
Qed.

(** The highlighted transcript of a report, with its tags removed, is the
    transcript that was tracked, when that transcript contains no tag. *)
Corollary tracked_report_round_trip
          (now username full_transcript : str)
          (segments : list Api.SpeakerSegment) (diarization_available : bool)
          (report : Report) :
  marker_free full_transcript ->
  track_mentions list_set raw_finditer now username full_transcript
                 segments diarization_available = Some report ->
  remove_markers (highlight_transcript report) = full_transcript.
Proof.
  intros Hfree. unfold track_mentions.
  pose proof (track_mentions_body_cases now username full_transcript segments
                                        diarization_available) as H.
  cbv zeta in H.
  destruct H as [[_ Hb] | (_ & _ & [ (e & _ & Hb) | (nv & _ & H) ])];
    [rewrite Hb; discriminate | rewrite Hb; discriminate |].
  destruct H as [[_ Hb] | (_ & [ (e & Hb) | (tasks & _ & Hb) ])];
    rewrite Hb; try discriminate.
  intros [= <-]. simpl. now apply tracked_highlight_round_trip.
Qed.

End TrackerProperties.

(** *** Two runs *)

(** An order that lists every element once leaves a set of one element as
    it is. *)
Lemma lists_each_once_singleton (list_set : set_iteration) (x : str) :
  lists_each_once list_set -> list_set [x] = [x].
Proof.
  intros H. destruct (H [x]) as [Hnd Hin].
  assert (Hall : forall y, In y (list_set [x]) -> y = x).
  { intros y Hy. apply Hin in Hy. destruct Hy as [<- | []]. reflexivity. }
  assert (Hx : In x (list_set [x])) by (apply Hin; now left).
  destruct (list_set [x]) as [|a [|b l]].
  - destruct Hx.
  - now rewrite (Hall a (or_introl eq_refl)).
  - exfalso. inversion Hnd as [|? ? Hna _]; subst. apply Hna.
    rewrite (Hall a (or_introl eq_refl)).
    rewrite <- (Hall b (or_intror (or_introl eq_refl))). now left.
Qed.

Lemma first_occurrence_order_each_once : lists_each_once first_occurrence_order.
Proof.
  intros l. unfold first_occurrence_order. split.
  - apply NoDup_rev, NoDup_nodup.
  - intros x. rewrite <- in_rev, nodup_In, <- in_rev. reflexivity.
Qed.

Lemma reverse_order_each_once : lists_each_once Examples.reverse_order.
Proof.
  intros l. unfold Examples.reverse_order.
  destruct (first_occurrence_order_each_once l) as [Hnd Hin]. split.
  - now apply NoDup_rev.
  - intros x. rewrite <- in_rev. apply Hin.
Qed.

(** The set order reaches the report through the name variations only. *)
Lemma track_mentions_same_variations
      (list_set1 list_set2 : set_iteration)
      (raw_finditer : MentionTracker.RawFinditer)
      (now username full_transcript : str)
      (segments : list Api.SpeakerSegment) (diarization_available : bool) :
  MentionTracker._generate_name_variations list_set1 (strip username)
  = MentionTracker._generate_name_variations list_set2 (strip username) ->
  MentionTracker.track_mentions list_set1 raw_finditer now username
    full_transcript segments diarization_available
  = MentionTracker.track_mentions list_set2 raw_finditer now username
      full_transcript segments diarization_available.
Proof.
  intros H. unfold MentionTracker.track_mentions, MentionTracker.track_mentions_body.
  destruct (str_eqb username [] || str_eqb full_transcript []); [reflexivity|].
  cbv zeta. now rewrite H.
Qed.

Lemma same_order_same_variations
      (list_set1 list_set2 : set_iteration) (username : str) :
  (forall l, list_set1 l = list_set2 l) ->
  MentionTracker._generate_name_variations list_set1 username
  = MentionTracker._generate_name_variations list_set2 username.
Proof.
  intros H. unfold MentionTracker._generate_name_variations.
  destruct (contains (lit " ") username); [|now rewrite H].
  destruct (MentionTracker.first_token username); [reflexivity|].
  cbn. now rewrite H.
Qed.

(** C5, as amended. With the same inputs and the same collaborator outputs,
    two runs of the action item extraction return the same result. Two
    runs of the mention tracking, each with its own reading of the clock
    and its own iteration order of the set of name variations, return
    results that agree on every field except [tracked_at], which holds the
    clock reading of its run, when the two orders are the same, and also,
    whatever the two orders, when the stripped user name has no space: the
    set then has one element. *)
Theorem reruns_agree_up_to_time_stamp :
  forall (nlp1 nlp2 : ActionItems.Nlp) (text : str)
         (list_set1 list_set2 : set_iteration)
         (raw_finditer : MentionTracker.RawFinditer)
         (now1 now2 username full_transcript : str)
         (segments : list Api.SpeakerSegment) (diarization_available : bool),
    nlp1 text = nlp2 text ->
    lists_each_once list_set1 ->
    lists_each_once list_set2 ->
    (forall l, list_set1 l = list_set2 l)
    \/ contains (lit " ") (strip username) = false ->
    ActionItems.extract nlp1 text = ActionItems.extract nlp2 text
    /\ option_map MentionTracker.without_time_stamp
         (MentionTracker.track_mentions list_set1 raw_finditer now1 username
            full_transcript segments diarization_available)
       = option_map MentionTracker.without_time_stamp
           (MentionTracker.track_mentions list_set2 raw_finditer now2 username
              full_transcript segments diarization_available)
    /\ (forall report,
           MentionTracker.track_mentions list_set1 raw_finditer now1 username
             full_transcript segments diarization_available = Some report ->
           MentionTracker.tracked_at report = now1).
Proof.
  intros nlp1 nlp2 text list_set1 list_set2 raw_finditer now1 now2 username
         full_transcript segments diarization_available Hnlp H1 H2 Horder.
  split; [unfold ActionItems.extract; now rewrite Hnlp|].
  split; [|intros report; apply track_mentions_time_stamp].
  rewrite (track_mentions_clock list_set1 raw_finditer now1 now2).
  f_equal. apply track_mentions_same_variations.
  destruct Horder as [Hsame | Hone].
  - now apply same_order_same_variations.
  - unfold MentionTracker._generate_name_variations. rewrite Hone.
    now rewrite !lists_each_once_singleton.
Qed.

Lemma reruns_agree_up_to_time_stamp_witness :
  ActionItems.extract Examples.meeting_nlp Examples.meeting_text
  = ActionItems.extract Examples.meeting_nlp Examples.meeting_text
  /\ option_map MentionTracker.without_time_stamp
       (MentionTracker.track_mentions first_occurrence_order Examples.no_task_engine
          Examples.clock_1 (lit "Al") Examples.spoke_transcript [] false)
     = option_map MentionTracker.without_time_stamp
         (MentionTracker.track_mentions Examples.reverse_order Examples.no_task_engine
            Examples.clock_2 (lit "Al") Examples.spoke_transcript [] false)
  /\ (forall report,
         MentionTracker.track_mentions first_occurrence_order Examples.no_task_engine
           Examples.clock_1 (lit "Al") Examples.spoke_transcript [] false
         = Some report ->
         MentionTracker.tracked_at report = Examples.clock_1).
Proof.
  apply (reruns_agree_up_to_time_stamp
           Examples.meeting_nlp Examples.meeting_nlp Examples.meeting_text
           first_occurrence_order Examples.reverse_order Examples.no_task_engine
           Examples.clock_1 Examples.clock_2 (lit "Al") Examples.spoke_transcript
           [] false).
  - reflexivity.
  - exact first_occurrence_order_each_once.
  - exact reverse_order_each_once.
  - right. reflexivity.
Defined.

(** C5, as stated, fails for the mention tracking in two ways. Two runs on
    the same input, at two readings of the clock, return reports that
    differ in [tracked_at]. And two runs on the same input for the user
    "Al Smith", with two orders of the set of name variations that both
    list every element once, return reports that differ in other fields
    too: "al smith" and "al" match at the same offset, the stable sort
    keeps them in the order of the set, and the deduplication retains the
    first. *)
Lemma reruns_differ_counterexample :
  (exists r1 r2,
      MentionTracker.track_mentions first_occurrence_order Examples.no_task_engine
        Examples.clock_1 (lit "Al") Examples.spoke_transcript [] false = Some r1
      /\ MentionTracker.track_mentions first_occurrence_order Examples.no_task_engine
           Examples.clock_2 (lit "Al") Examples.spoke_transcript [] false = Some r2
      /\ MentionTracker.tracked_at r1 = Examples.clock_1
      /\ MentionTracker.tracked_at r2 = Examples.clock_2
      /\ r1 <> r2)
  /\ lists_each_once first_occurrence_order
  /\ lists_each_once Examples.reverse_order
  /\ (exists r1 r2,
        MentionTracker.track_mentions first_occurrence_order Examples.smith_engine
          Examples.clock_1 (lit "Al Smith") Examples.smith_transcript [] false
        = Some r1
        /\ MentionTracker.track_mentions Examples.reverse_order Examples.smith_engine
             Examples.clock_1 (lit "Al Smith") Examples.smith_transcript [] false
           = Some r2
        /\ MentionTracker.highlight_transcript r1
           = lit "Thanks [MENTION]Al Smith[/MENTION]."
        /\ MentionTracker.highlight_transcript r2
           = lit "Thanks [MENTION]Al[/MENTION] Smith."
        /\ MentionTracker.without_time_stamp r1
           <> MentionTracker.without_time_stamp r2).
Proof.
  split.
  { eexists. eexists.
    split; [vm_compute; reflexivity|].
    split; [vm_compute; reflexivity|].
    split; [reflexivity|]. split; [reflexivity|].
    intros H. apply (f_equal MentionTracker.tracked_at) in H. discriminate H. }
  split; [exact first_occurrence_order_each_once|].
  split; [exact reverse_order_each_once|].
  eexists. eexists.
  split; [vm_compute; reflexivity|].
  split; [vm_compute; reflexivity|].
  split; [reflexivity|]. split; [reflexivity|].
  intros H. apply (f_equal MentionTracker.highlight_transcript) in H.
  discriminate H.
Qed.

(** An exception of the body is turned into an absent result: with a pattern
    text that does not compile the mention is found and [None] is returned. *)
Example track_mentions_error_example :
  MentionTracker._find_mentions Examples.spoke_transcript [lit "al"] <> []
  /\ MentionTracker.track_mentions_body first_occurrence_order Examples.failing_engine
       Examples.clock_1 (lit "Al") Examples.spoke_transcript [] false = inl ReError
  /\ MentionTracker.track_mentions first_occurrence_order Examples.failing_engine
       Examples.clock_1 (lit "Al") Examples.spoke_transcript [] false = None.
Proof.
  split; [discriminate|]. split; reflexivity.
Qed.

(* --------------------------------------------------------------------- *)
(** ** Name variations *)
(* --------------------------------------------------------------------- *)

Section VariationProperties.

Variable list_set : set_iteration.

(** The mention tracker: the lower-cased name alone when the name has no
    space, and with it the first word and the initials when it has one. *)
Lemma tracker_variations_one_word (username : str) :
  contains (lit " ") username = false ->
  MentionTracker._generate_name_variations list_set username
  = inr (list_set [lower username]).
Proof.
  intros H. unfold MentionTracker._generate_name_variations. now rewrite H.
Qed.

Lemma tracker_variations_many_words (username first : str) (rest : list str) :
  contains (lit " ") username = true ->
  split username = first :: rest ->
  MentionTracker._generate_name_variations list_set username
  = inr (list_set [lower username; lower first;
                   lower (flat_map (firstn 1) (first :: rest))]).
Proof.
  intros H Hs. unfold MentionTracker._generate_name_variations,
                 MentionTracker.first_token, MentionTracker.initials_of.
  now rewrite H, Hs.
Qed.

(** The synthesizer adds the initial of a name of one word as well. *)
Lemma synthesizer_variations_one_word (name : str) (c : ascii) (w : str) :
  split name = [c :: w] ->
  PersonalInsights._generate_name_variations list_set name
  = list_set [lower name; [lower_char c]].
Proof.
  intros Hs. unfold PersonalInsights._generate_name_variations.
  rewrite Hs. reflexivity.
Qed.

(** With a set order that lists every element once, the variations are
    the set the specification describes, for the mention tracker. *)
Hypothesis list_set_spec :
  forall l, NoDup (list_set l) /\ (forall x, In x (list_set l) <-> In x l).

Lemma tracker_variation_set_one_word (username : str) :
  contains (lit " ") username = false ->
  exists vs,
    MentionTracker._generate_name_variations list_set username = inr vs
    /\ NoDup vs /\ (forall v, In v vs <-> v = lower username).
Proof.
  intros H. rewrite (tracker_variations_one_word username H).
  destruct (list_set_spec [lower username]) as [Hnd Hin].
  eexists. split; [reflexivity|]. split; [exact Hnd|].
  intros v. rewrite Hin. simpl. intuition.
Qed.

Lemma tracker_variation_set_many_words (username first : str) (rest : list str) :
  contains (lit " ") username = true ->
  split username = first :: rest ->
  exists vs,
    MentionTracker._generate_name_variations list_set username = inr vs
    /\ NoDup vs
    /\ (forall v, In v vs <-> v = lower username \/ v = lower first
                              \/ v = lower (flat_map (firstn 1) (first :: rest))).
Proof.
  intros H Hs. rewrite (tracker_variations_many_words username first rest H Hs).
  match goal with |- context [list_set ?l] =>
    destruct (list_set_spec l) as [Hnd Hin] end.
  eexists. split; [reflexivity|]. split; [exact Hnd|].
  intros v. rewrite Hin. simpl. intuition.
Qed.

(** For the synthesizer the set of a name of one word has the initial too. *)
Lemma synthesizer_variation_set_one_word (name : str) (c : ascii) (w : str) :
  split name = [c :: w] ->
  forall v, In v (PersonalInsights._generate_name_variations list_set name)
            <-> v = lower name \/ v = [lower_char c].
Proof.
  intros Hs v. rewrite (synthesizer_variations_one_word name c w Hs).
  destruct (list_set_spec [lower name; [lower_char c]]) as [_ Hin].
  rewrite Hin. simpl. intuition.
Qed.

(** C6, on the user name "Al". The mention tracker generates the
    lower-cased name alone; the personal insight synthesizer also generates
    the initial "a", whatever the iteration order of the set. *)
Theorem variations_of_single_word_differ :
  MentionTracker._generate_name_variations list_set (lit "Al")
  = inr (list_set [lit "al"])
  /\ PersonalInsights._generate_name_variations list_set (lit "Al")
     = list_set [lit "al"; lit "a"].
Proof. split; reflexivity. Qed.

End VariationProperties.

(* --------------------------------------------------------------------- *)
(** ** Personal summary *)
(* --------------------------------------------------------------------- *)

Section PersonalSummaryProperties.
Import Summarization PersonalInsights.

Variable model : Model.

(** The call is refused before the body of [summarize] runs. *)
Lemma call_summarize_min_length (text : str) (log : list Event) :
  exists msg,
    call_summarize model text personal_kwargs log
    = (inl (TypeError msg), log ++ [SummarizeCall text personal_kwargs]).
Proof. eexists. reflexivity. Qed.

(** C7, on the code: whatever the personal transcript, the summary returned
    is empty and the pipeline is never run. A transcript of fewer than ten
    characters leads to no request; a longer one leads to a call of
    [summarize] with [max_length=150, min_length=30], which raises
    [TypeError] because [summarize] has no parameter [min_length], and the
    handler returns the empty string. *)
Theorem personal_summary_is_empty :
  forall (personal_transcript user_name : str) (log : list Event),
    _generate_personal_summary model personal_transcript user_name log
    = (inr [],
       if length personal_transcript <? 10
       then log
       else log ++ [SummarizeCall personal_transcript personal_kwargs]).
Proof.
  intros personal_transcript user_name log.
  unfold _generate_personal_summary.
  destruct (length personal_transcript <? 10) eqn:E.
  - rewrite orb_true_r. reflexivity.
  - destruct personal_transcript as [|c t]; [discriminate E|].
    reflexivity.
Qed.

End PersonalSummaryProperties.

(** With a parameter list that accepts the keywords, the body of
    [summarize] runs and yields the summary of the pipeline. *)
Example summarize_accepts_max_length :
  fst (Summarization.call_summarize Examples.prefix_model Examples.report_transcript
         [(lit "max_length", 150%Z)] [])
  = inr {| Summarization.summary := lit "Al will send the report on Friday.";
           Summarization.original_length := 34;
           Summarization.summary_length := 34;
           Summarization.compression_ratio := 1%float |}.
Proof. reflexivity. Qed.

(** The failing input of C7: a transcript of 34 characters. *)
Example personal_summary_of_report :
  Summarization.call_summarize Examples.prefix_model Examples.report_transcript
    PersonalInsights.personal_kwargs []
  = (inl (TypeError (lit "summarize() got an unexpected keyword argument 'min_length'")),
     [Summarization.SummarizeCall Examples.report_transcript PersonalInsights.personal_kwargs])
  /\ PersonalInsights._generate_personal_summary Examples.prefix_model
       Examples.report_transcript (lit "Al") []
     = (inr [], [Summarization.SummarizeCall Examples.report_transcript PersonalInsights.personal_kwargs]).
Proof. split; reflexivity. Qed.

(* --------------------------------------------------------------------- *)
(** ** The scenarios of the specification, run on the embedding *)
(* --------------------------------------------------------------------- *)

(** Scenario A: "John will send the report tomorrow." with the PERSON entity
    "John" gives one item: assignee "John", deadline "Tomorrow", priority
    "medium", confidence 1.0. *)
Example scenario_A :
  ActionItems.extract_from_doc
    [ActionItems.mkSent (lit "John will send the report tomorrow.")
                        [ActionItems.mkEnt (lit "John") (lit "PERSON")]]
  = [ {| ActionItems.task := lit "John will send the report tomorrow.";
         ActionItems.assignee := lit "John";
         ActionItems.deadline := lit "Tomorrow";
         ActionItems.priority := lit "medium";
         ActionItems.context := lit "John will send the report tomorrow.";
         ActionItems.confidence := 1%float |} ].
Proof. reflexivity. Qed.

(** Scenario B: user "Al" and "Al, can you review the deck?" give a mention
    for the variation "al" and one task, "Review the deck". *)
Example scenario_B :
  exists report,
    MentionTracker.track_mentions first_occurrence_order Examples.deck_engine
      Examples.clock_1 (lit "Al") Examples.deck_question [] false = Some report
    /\ map MentionTracker.variation (MentionTracker.mentions report) = [lit "al"]
    /\ MentionTracker.highlight_transcript report
       = lit "[MENTION]Al[/MENTION], can you review the deck?"
    /\ map MentionTracker.ta_task (MentionTracker.assigned_tasks report)
       = [lit "Review the deck"].
Proof. eexists. split; [reflexivity|]. repeat split. Qed.

(** Scenario C: with an empty diarization list both segments carry the
    default label. *)
Example scenario_C :
  map Api.speaker
      (Api.segments (Api.merge_transcription_diarization Examples.two_segments []))
  = [Api.DEFAULT_SPEAKER; Api.DEFAULT_SPEAKER].
Proof. reflexivity. Qed.

(** Scenario D: a user name that occurs nowhere gives no report. *)
Example scenario_D :
  MentionTracker.track_mentions first_occurrence_order Examples.no_task_engine
    Examples.clock_1 (lit "Zoe") Examples.deck_question [] false = None.
Proof. reflexivity. Qed.

(** Scenario E: of two intervals that overlap the first segment, the first
    in input order is taken, here the one with the smaller overlap. *)
Example scenario_E :
  map Api.speaker
      (Api.segments (Api.merge_transcription_diarization
                       Examples.two_segments Examples.overlapping_intervals))
  = [lit "SPEAKER_01"; lit "SPEAKER_01"].
Proof. vm_compute. reflexivity. Qed.

(* ===================================================================== *)
(** * Part III: further properties of the services *)
(* ===================================================================== *)

(* --------------------------------------------------------------------- *)
(** ** Interval aligner: intervals that do not overlap, intervals added *)
(* --------------------------------------------------------------------- *)

Section MoreAlignerProperties.
Import Api Notions.

Lemma SFcompare_antisym (x y : spec_float) :
  SFcompare y x = option_map CompOpp (SFcompare x y).
Proof.
  destruct x as [sx | sx | | sx mx ex], y as [sy | sy | | sy my ey]; simpl;
    try reflexivity;
    try (destruct sx; reflexivity); try (destruct sy; reflexivity);
    try (destruct sx, sy; reflexivity).
  destruct sx, sy; try reflexivity; f_equal;
    rewrite (Z.compare_antisym ex ey);
    destruct (ex ?= ey)%Z; simpl; try reflexivity.
  - f_equal. apply ZC4.
  - apply ZC4.
Qed.

(** On floats, [a <= b] excludes [b < a]. *)
Lemma float_leb_not_ltb (a b : float) :
  PrimFloat.leb a b = true -> PrimFloat.ltb b a = false.
Proof.
  rewrite leb_spec, ltb_spec. unfold SFleb, SFltb.
  rewrite (SFcompare_antisym (Prim2SF a) (Prim2SF b)).
  destruct (SFcompare (Prim2SF a) (Prim2SF b)) as [[]|]; simpl; congruence.
Qed.

Lemma outside_no_overlap (d : DiaSegment) (seg : Segment) :
  outside d seg -> overlap_test d (seg_start seg) (seg_end seg) = false.
Proof.
  unfold outside, overlap_test. intros [H|H]; apply float_leb_not_ltb in H;
    rewrite H; [apply andb_false_r | reflexivity].
Qed.

Lemma scan_no_overlap (diarization : list DiaSegment) (seg : Segment) (s : str) :
  overlapped diarization seg = false ->
  scan_diarization diarization (seg_start seg) (seg_end seg) s = s.
Proof.
  unfold overlapped. induction diarization as [|d rest IH]; simpl; [reflexivity|].
  intros H. apply orb_false_iff in H as [H1 H2]. rewrite H1. now apply IH.
Qed.

Lemma scan_app_overlapped (diarization extra : list DiaSegment) (seg : Segment)
      (s : str) :
  overlapped diarization seg = true ->
  scan_diarization (diarization ++ extra) (seg_start seg) (seg_end seg) s
  = scan_diarization diarization (seg_start seg) (seg_end seg) s.
Proof.
  unfold overlapped. induction diarization as [|d rest IH]; simpl; [discriminate|].
  destruct (overlap_test d (seg_start seg) (seg_end seg)); [reflexivity|].
  simpl. exact IH.
Qed.

Lemma merged_segment_at (transcription : Transcription)
      (diarization : list DiaSegment) (i : nat) (seg : Segment) :
  nth_error (tr_segments transcription) i = Some seg ->
  nth_error (segments (merge_transcription_diarization transcription diarization)) i
  = Some {| start := seg_start seg; end_ := seg_end seg; text := seg_text seg;
            speaker := scan_diarization diarization (seg_start seg) (seg_end seg)
                                        DEFAULT_SPEAKER |}.
Proof.
  intros H. rewrite merged_segments_eq, nth_error_map, H. reflexivity.
Qed.

(** X1. A segment that every diarization interval misses (each interval
    ends when the segment starts or before, or starts when it ends or
    after; touching is missing) is labelled "Speaker_0". *)
Theorem segment_outside_intervals_gets_default :
  forall (transcription : Transcription) (diarization : list DiaSegment)
         (i : nat) (seg : Segment),
    nth_error (tr_segments transcription) i = Some seg ->
    Forall (fun d => outside d seg) diarization ->
    option_map speaker
      (nth_error (segments (merge_transcription_diarization transcription diarization)) i)
    = Some DEFAULT_SPEAKER.
Proof.
  intros transcription diarization i seg Hseg Hout.
  rewrite (merged_segment_at _ _ _ _ Hseg). simpl. f_equal.
  apply scan_no_overlap. unfold overlapped.
  induction Hout as [|d rest Hd _ IH]; simpl; [reflexivity|].
  now rewrite (outside_no_overlap d seg Hd).
Qed.

Lemma segment_outside_intervals_gets_default_witness :
  option_map speaker
    (nth_error (segments (merge_transcription_diarization
                            Examples.two_segments Examples.late_intervals)) 0)
  = Some DEFAULT_SPEAKER.
Proof.
  apply (segment_outside_intervals_gets_default
           Examples.two_segments Examples.late_intervals 0 Examples.first_segment).
  - reflexivity.
  - repeat first [apply Forall_cons | apply Forall_nil].
    + right. vm_compute. reflexivity.
    + right. vm_compute. reflexivity.
Defined.

(** X2. The first overlapping interval wins for good: intervals added at
    the end of the diarization list do not change the output segment of a
    segment that an interval of the list already overlaps. *)
Theorem later_intervals_do_not_override :
  forall (transcription : Transcription) (diarization extra : list DiaSegment)
         (i : nat) (seg : Segment),
    nth_error (tr_segments transcription) i = Some seg ->
    overlapped diarization seg = true ->
    nth_error (segments (merge_transcription_diarization
                           transcription (diarization ++ extra))) i
    = nth_error (segments (merge_transcription_diarization
                             transcription diarization)) i.
Proof.
  intros transcription diarization extra i seg Hseg Hov.
  rewrite !(merged_segment_at _ _ _ _ Hseg).
  now rewrite scan_app_overlapped.
Qed.

Lemma later_intervals_do_not_override_witness :
  nth_error (segments (merge_transcription_diarization
                         Examples.two_segments
                         (Examples.overlapping_intervals ++ Examples.late_intervals))) 0
  = nth_error (segments (merge_transcription_diarization
                           Examples.two_segments Examples.overlapping_intervals)) 0.
Proof.
  apply (later_intervals_do_not_override
           Examples.two_segments Examples.overlapping_intervals
           Examples.late_intervals 0 Examples.first_segment).
  - reflexivity.
  - vm_compute. reflexivity.
Defined.

End MoreAlignerProperties.

(* --------------------------------------------------------------------- *)
(** ** Action item extractor: what is emitted *)
(* --------------------------------------------------------------------- *)

Section MoreActionItemProperties.
Import ActionItems Notions.

Lemma insert_by_perm {A : Type} (key : A -> Z) (x : A) (l : list A) :
  Permutation (insert_by key x l) (x :: l).
Proof.
  induction l as [|a l IH]; simpl; [reflexivity|].
  destruct (key x <=? key a)%Z; [reflexivity|].
  rewrite IH. apply perm_swap.
Qed.

Lemma sorted_by_perm {A : Type} (key : A -> Z) (l : list A) :
  Permutation (sorted_by key l) l.
Proof.
  induction l as [|a l IH]; simpl; [reflexivity|].
  rewrite insert_by_perm. now constructor.
Qed.

Lemma items_in_sentence_order_length (doc : Doc) :
  length (items_in_sentence_order doc) <= length doc.
Proof.
  unfold items_in_sentence_order.
  induction doc as [|sent doc IH]; simpl; [lia|].
  rewrite length_app. destruct (sentence_item sent); simpl; lia.
Qed.

(** X3. The final sort of [extract] neither drops nor repeats an item: the
    list returned is a rearrangement of the items in sentence order, and it
    holds at most one item per sentence of the document. *)
Theorem extract_keeps_every_item :
  forall doc : Doc,
    Permutation (extract_from_doc doc) (items_in_sentence_order doc)
    /\ length (extract_from_doc doc) <= length doc.
Proof.
  intros doc. unfold extract_from_doc. rewrite collect_items_eq. split.
  - apply sorted_by_perm.
  - rewrite sorted_by_length. apply items_in_sentence_order_length.
Qed.

Lemma sentence_item_source (sent : Sent) (item : ActionItem) :
  sentence_item sent = Some item ->
  context item = strip (sent_text sent)
  /\ _contains_action_verb (strip (sent_text sent)) = true
  /\ task item = _extract_task_description (strip (sent_text sent))
  /\ task item <> []
  /\ priority item = _extract_priority (strip (sent_text sent)).
Proof.
  unfold sentence_item.
  destruct (_contains_action_verb (strip (sent_text sent))) eqn:V;
    [|discriminate]. simpl.
  match goal with |- (if ?g && negb (str_eqb ?t []) then _ else _) = _ -> _ =>
    destruct g; [destruct (str_eqb t []) eqn:T|]; simpl; try discriminate end.
  intros [= <-]. simpl. repeat split.
  intros H. rewrite H in T. discriminate T.
Qed.

(** X4. Every item that [extract] emits comes from a sentence of the
    document that contains an action verb: its context is the stripped
    sentence, its task is the task description of that sentence and is not
    empty, and its priority is the priority of that sentence. *)
Theorem emitted_item_comes_from_action_sentence :
  forall (doc : Doc) (item : ActionItem),
    In item (extract_from_doc doc) ->
    exists sent,
      In sent doc
      /\ context item = strip (sent_text sent)
      /\ _contains_action_verb (context item) = true
      /\ task item = _extract_task_description (context item)
      /\ task item <> []
      /\ priority item = _extract_priority (context item).
Proof.
  intros doc item Hin.
  apply in_extract_from_doc in Hin as (sent & Hsent & Hitem).
  apply sentence_item_source in Hitem as (Hc & Hv & Ht & Hne & Hp).
  exists sent. rewrite Hc. repeat split; assumption.
Qed.

Lemma emitted_item_comes_from_action_sentence_witness :
  exists item sent,
    In item (extract_from_doc Examples.meeting_doc)
    /\ In sent Examples.meeting_doc
    /\ context item = strip (sent_text sent)
    /\ _contains_action_verb (context item) = true
    /\ task item = _extract_task_description (context item)
    /\ task item <> []
    /\ priority item = _extract_priority (context item).
Proof.
  exists (nth 0 (extract_from_doc Examples.meeting_doc)
              (mkActionItem [] [] [] [] [] 0%float)).
  assert (Hin : In (nth 0 (extract_from_doc Examples.meeting_doc)
                        (mkActionItem [] [] [] [] [] 0%float))
                   (extract_from_doc Examples.meeting_doc)).
  { vm_compute. left. reflexivity. }
  destruct (emitted_item_comes_from_action_sentence Examples.meeting_doc _ Hin)
    as (sent & H).
  exists sent. split; [exact Hin | exact H].
Defined.

(** *** The shape of a task description *)

Lemma upper_char_not_lower (c : ascii) : is_lower (upper_char c) = false.
Proof. destruct c as [[] [] [] [] [] [] [] []]; reflexivity. Qed.

Lemma upper_char_space (c : ascii) : is_space (upper_char c) = is_space c.
Proof. destruct c as [[] [] [] [] [] [] [] []]; reflexivity. Qed.

Lemma lstrip_head (s : str) :
  lstrip s = [] \/ exists c s', lstrip s = c :: s' /\ is_space c = false.
Proof.
  induction s as [|d s IH]; simpl; [now left|].
  destruct (is_space d) eqn:E; [exact IH|]. right. now exists d, s.
Qed.

(** A stripped text is empty or ends with a character that is not blank. *)
Lemma strip_last (s : str) :
  strip s = [] \/ exists front d, strip s = front ++ [d] /\ is_space d = false.
Proof.
  unfold strip, rstrip.
  destruct (lstrip_head (rev (lstrip s))) as [-> | (c & s' & -> & Hc)];
    [now left|].
  right. simpl. now exists (rev s'), c.
Qed.

(** X5. The task description of an ASCII sentence is empty, or starts with
    a character that is neither blank nor a lower-case letter and ends with
    a character that is not blank. (Outside ASCII, [str.upper] leaves some
    lower-case letters as they are.) *)
Theorem task_description_shape :
  forall text : str,
    ascii_text text ->
    capitalized_and_stripped (_extract_task_description text).
Proof.
  intros text _. unfold _extract_task_description, capitalized_and_stripped.
  set (x := Regex.sub_empty vocative_prefix
              (Regex.sub_empty request_prefix (Regex.sub_empty filler_prefix text))).
  destruct (strip_head x) as [-> | (c & s' & E & Hc)]; [now left|].
  right. rewrite E. simpl. split.
  - exists (upper_char c), s'. split; [reflexivity|].
    now rewrite upper_char_space, upper_char_not_lower.
  - destruct (strip_last x) as [H | (front & d & E' & Hd)];
      [rewrite E in H; discriminate|].
    rewrite E in E'. destruct front as [|f front].
    + simpl in E'. injection E' as -> ->.
      exists [], (upper_char d). split; [reflexivity|].
      now rewrite upper_char_space.
    + simpl in E'. injection E' as -> ->.
      exists (upper_char f :: front), d. now split.
Qed.

Lemma task_description_shape_witness :
  ascii_text (lit "so, can you send the report by Friday? ")
  /\ capitalized_and_stripped
       (_extract_task_description (lit "so, can you send the report by Friday? ")).
Proof.
  refine (conj eq_refl
               (task_description_shape
                  (lit "so, can you send the report by Friday? ") eq_refl)).
Defined.

(** *** The text of a deadline *)

Lemma starts_with_refl (p : str) : starts_with p p = true.
Proof.
  induction p as [|c p IH]; simpl; [reflexivity|].
  now rewrite Ascii.eqb_refl.
Qed.

Lemma contains_refl (p : str) : contains p p = true.
Proof.
  destruct p; simpl; [reflexivity|].
  rewrite Ascii.eqb_refl, starts_with_refl. reflexivity.
Qed.

(** A span of a text occurs in the text. *)
Lemma contains_span (s : str) (a n : nat) :
  contains (firstn n (skipn a s)) s = true.
Proof.
  rewrite <- (firstn_skipn a s) at 2.
  apply contains_app_r.
  rewrite <- (firstn_skipn n (skipn a s)) at 2.
  apply contains_app_l. apply contains_refl.
Qed.

Lemma lower_idem (s : str) : lower (lower s) = lower s.
Proof.
  unfold lower. rewrite map_map. apply map_ext. apply lower_char_idem.
Qed.

Lemma first_date_span (patterns : list Regex.re) (text_lower d : str) :
  first_date patterns text_lower = Some d ->
  exists a n, d = title (firstn n (skipn a text_lower)).
Proof.
  induction patterns as [|pattern rest IH]; simpl; [discriminate|].
  destruct (Regex.search pattern text_lower) as [[a b]|].
  - intros [= <-]. now exists a, (b - a).
  - exact IH.
Qed.

(** X6. A deadline that was found in an ASCII sentence is the title-cased
    form of a piece of the lower-cased sentence: lower-cased again it
    occurs in the lower-cased sentence, and title-casing that gives the
    deadline back. (Outside ASCII, [re.IGNORECASE] also matches letters
    that [str.lower] does not map to the letters of the pattern.) *)
Theorem deadline_is_piece_of_sentence :
  forall text d : str,
    ascii_text text ->
    _extract_deadline text = Some d ->
    contains (lower d) (lower text) = true /\ title (lower d) = d.
Proof.
  intros text d _ H. unfold _extract_deadline in H.
  apply first_date_span in H as (a & n & ->).
  assert (Hl : lower (title (firstn n (skipn a (lower text))))
               = firstn n (skipn a (lower text))).
  { rewrite lower_title. unfold lower at 1.
    rewrite <- firstn_map, <- skipn_map. fold (lower (lower text)).
    now rewrite lower_idem. }
  rewrite Hl. split; [apply contains_span | reflexivity].
Qed.

Lemma deadline_is_piece_of_sentence_witness :
  contains (lower (lit "Friday")) (lower (lit "Send it by FRIDAY noon.")) = true
  /\ title (lower (lit "Friday")) = lit "Friday".
Proof.
  apply (deadline_is_piece_of_sentence (lit "Send it by FRIDAY noon.") (lit "Friday")).
  - reflexivity.
  - reflexivity.
Defined.

(** *** The confidence score *)

(** X7. In binary64 arithmetic the score of [_calculate_confidence] lies in
    [0, 1], and it reaches the threshold 0.6 exactly when an action verb and
    an assignee are present, or a deadline and an in-range word count come
    with one of the two. *)
Theorem confidence_threshold :
  forall (has_assignee has_deadline has_action_verb : bool) (n : nat),
    let c := _calculate_confidence has_assignee has_deadline has_action_verb n in
    PrimFloat.leb 0 c = true
    /\ PrimFloat.leb c 1 = true
    /\ PrimFloat.leb 0.6 c
       = (has_action_verb && has_assignee)
         || (has_deadline && in_word_range n && (has_action_verb || has_assignee)).
Proof.
  intros a d v n. unfold _calculate_confidence, in_word_range.
  destruct ((5 <=? n) && (n <=? 30)), a, d, v; vm_compute; auto.
Qed.

End MoreActionItemProperties.

(* --------------------------------------------------------------------- *)
(** ** Mention tracker: the search, the deduplication, the highlighting *)
(* --------------------------------------------------------------------- *)

Section MoreMentionProperties.
Import MentionTracker Notions.

(** *** Deduplication *)

Lemma dedup_scan_separated (last : Mention) (rest : list Mention) :
  gap_separated (last :: rest) -> dedup_scan last rest = rest.
Proof.
  unfold gap_separated. revert last.
  induction rest as [|a rest IH]; intros last H; simpl; [reflexivity|].
  inversion H as [|? ? Hrest Hhd]; subst.
  inversion Hhd as [|? ? Hgap]; subst.
  destruct (position a <? end_position last + 5)%Z eqn:E.
  - apply Z.ltb_lt in E. contradiction.
  - f_equal. now apply IH.
Qed.

(** A sorted and separated list is left as it is. *)
Lemma deduplicate_fixpoint (l : list Mention) :
  position_sorted l -> gap_separated l -> _deduplicate_mentions l = l.
Proof.
  intros Hs Hg. unfold _deduplicate_mentions.
  destruct l as [|m l]; [reflexivity|].
  rewrite (sorted_by_fixpoint position (m :: l) Hs).
  f_equal. now apply dedup_scan_separated.
Qed.

(** X8. Deduplicating twice is deduplicating once. *)
Theorem deduplicate_idempotent :
  forall mentions : list Mention,
    _deduplicate_mentions (_deduplicate_mentions mentions)
    = _deduplicate_mentions mentions.
Proof.
  intros mentions. apply deduplicate_fixpoint;
    [apply deduplicate_sorted | apply deduplicate_gap].
Qed.

Lemma dedup_scan_cover (last : Mention) (rest : list Mention) (m : Mention) :
  position_sorted (last :: rest) -> In m rest ->
  In m (dedup_scan last rest)
  \/ exists k, In k (last :: dedup_scan last rest) /\ near k m.
Proof.
  unfold position_sorted. revert last.
  induction rest as [|a rest IH]; intros last Hs Hin; [destruct Hin|].
  inversion Hs as [|? ? Hrest Hlast]; subst.
  inversion Hrest as [|? ? Hrest' Ha]; subst.
  inversion Hlast as [|? ? Hla Hlast']; subst.
  simpl. destruct (position a <? end_position last + 5)%Z eqn:E.
  - apply Z.ltb_lt in E. destruct Hin as [<- | Hin].
    + right. exists last. split; [now left|]. split; [exact Hla | exact E].
    + apply IH; [|exact Hin]. now constructor.
  - destruct Hin as [<- | Hin]; [left; now left|].
    destruct (IH a Hrest Hin) as [H | (k & Hk & Hnear)].
    + left. now right.
    + right. exists k. split; [now right | exact Hnear].
Qed.

(** X9. Deduplication drops a mention only in favour of a retained one
    nearby: every mention of the input is retained, or starts at or after
    the start of a retained mention and less than five characters after its
    end; and every retained mention is a mention of the input. *)
Theorem dropped_mention_is_near_a_retained_one :
  forall (mentions : list Mention) (m : Mention),
    In m mentions ->
    (In m (_deduplicate_mentions mentions)
     \/ exists k, In k (_deduplicate_mentions mentions) /\ near k m)
    /\ incl (_deduplicate_mentions mentions) mentions.
Proof.
  intros mentions m Hin. split.
  - unfold _deduplicate_mentions.
    destruct mentions as [|m0 ms]; [destruct Hin|].
    pose proof (sorted_by_sorted position (m0 :: ms)) as Hs.
    apply (sorted_by_In position) in Hin.
    destruct (sorted_by position (m0 :: ms)) as [|first rest]; [destruct Hin|].
    destruct Hin as [<- | Hin]; [left; now left|].
    destruct (dedup_scan_cover first rest m Hs Hin) as [H | H].
    + left. now right.
    + right. exact H.
  - intros k. apply deduplicate_In.
Qed.

Lemma dropped_mention_is_near_a_retained_one_witness :
  (In (nth 1 (candidate_mentions Examples.deck_transcript
                                 [lit "al smith"; lit "al"]) (mkMention [] [] 0 0 []))
      (_deduplicate_mentions
         (candidate_mentions Examples.deck_transcript [lit "al smith"; lit "al"]))
   \/ exists k,
       In k (_deduplicate_mentions
               (candidate_mentions Examples.deck_transcript [lit "al smith"; lit "al"]))
       /\ near k (nth 1 (candidate_mentions Examples.deck_transcript
                                            [lit "al smith"; lit "al"])
                      (mkMention [] [] 0 0 [])))
  /\ incl (_deduplicate_mentions
             (candidate_mentions Examples.deck_transcript [lit "al smith"; lit "al"]))
          (candidate_mentions Examples.deck_transcript [lit "al smith"; lit "al"]).
Proof.
  apply (dropped_mention_is_near_a_retained_one
           (candidate_mentions Examples.deck_transcript [lit "al smith"; lit "al"])).
  vm_compute. right. left. reflexivity.
Defined.

(** *** The mentions that the search returns *)

Lemma finditer_from_matches (r : Regex.re) (s : str) :
  forall (prev : option ascii) (pos skip a b : nat),
    In (a, b) (Regex.finditer_from r prev s pos skip) ->
    pos <= a /\ Regex.matches r (firstn (b - a) (skipn (a - pos) s)).
Proof.
  induction s as [|c s IH]; intros prev pos skip a b; simpl.
  - destruct skip; [|easy].
    destruct (Regex.match_at r prev []) as [n|] eqn:E; [|easy].
    intros [[= <- <-]|[]]. apply match_at_matches in E as [_ M].
    replace (pos + n - pos) with n by lia. rewrite Nat.sub_diag.
    split; [lia | exact M].
  - destruct skip as [|k].
    + destruct (Regex.match_at r prev (c :: s)) as [n|] eqn:E.
      * intros [[= <- <-]|H].
        -- apply match_at_matches in E as [_ M].
           replace (pos + n - pos) with n by lia. rewrite Nat.sub_diag.
           split; [lia | exact M].
        -- apply IH in H as [H1 H2]. split; [lia|].
           replace (a - pos) with (S (a - S pos)) by lia. exact H2.
      * intros H. apply IH in H as [H1 H2]. split; [lia|].
        replace (a - pos) with (S (a - S pos)) by lia. exact H2.
    + intros H. apply IH in H as [H1 H2]. split; [lia|].
      replace (a - pos) with (S (a - S pos)) by lia. exact H2.
Qed.

Lemma finditer_matches (r : Regex.re) (s : str) (a b : nat) :
  In (a, b) (Regex.finditer r s) ->
  Regex.matches r (firstn (b - a) (skipn a s)).
Proof.
  intros H. apply finditer_from_matches in H as [_ H].
  now rewrite Nat.sub_0_r in H.
Qed.

Lemma lit_match_lower (l w : str) :
  Regex.lit_match true l w = true -> length w = length l -> lower w = lower l.
Proof.
  revert w. induction l as [|a l IH]; intros [|b w]; simpl; try easy.
  intros H Hlen. apply andb_true_iff in H as [H1 H2].
  apply Ascii.eqb_eq in H1. rewrite H1. f_equal. apply IH; [exact H2 | lia].
Qed.

Lemma whole_word_matches (v w : str) :
  Regex.matches (Regex.whole_word true v) w ->
  lower w = lower v /\ length w = length v.
Proof.
  unfold Regex.whole_word. intros H.
  apply matches_seq_inv in H as (w1 & u & -> & H1 & H).
  apply matches_seq_inv in H as (w2 & w3 & -> & H2 & H3).
  apply matches_wordb_inv in H1, H3. subst. simpl. rewrite app_nil_r.
  inversion H2 as [| ? ? ? Hm Hlen | | | | | | | ]; subst.
  split; [now apply lit_match_lower | exact Hlen].
Qed.

Lemma slice_nat (s : str) (a b : nat) :
  a <= b -> b <= length s ->
  slice s (Z.of_nat a) (Z.of_nat b) = firstn (b - a) (skipn a s).
Proof.
  intros Hab Hb. unfold slice. rewrite !slice_index_nat by lia.
  rewrite !Nat2Z.id.
  replace (Nat.min (length s) a) with a by lia.
  replace (Nat.min (length s) b) with b by lia. reflexivity.
Qed.

Lemma find_mentions_occurrence
      (transcript : str) (name_variations : list str) (m : Mention) :
  In m (_find_mentions transcript name_variations) ->
  In (variation m) name_variations
  /\ span_in_bounds transcript m
  /\ matched_text m = slice transcript (position m) (end_position m)
  /\ lower (matched_text m) = lower (variation m)
  /\ (end_position m - position m = len (variation m))%Z.
Proof.
  intros Hm.
  rewrite find_mentions_eq in Hm. apply deduplicate_In in Hm.
  unfold candidate_mentions in Hm.
  apply in_flat_map in Hm as (v & Hv & Hm).
  apply in_map_iff in Hm as ([a b] & <- & Hab).
  pose proof (finditer_bounds _ _ _ _ Hab) as [Hle Hb].
  apply finditer_matches in Hab. apply whole_word_matches in Hab as [Hlow Hlen].
  simpl. rewrite (slice_nat transcript a b Hle Hb).
  split; [exact Hv|]. split; [unfold span_in_bounds, len; simpl; lia|].
  split; [reflexivity|]. split; [exact Hlow|].
  rewrite length_firstn, length_skipn in Hlen. unfold len. lia.
Qed.

(** X10. For an ASCII transcript and ASCII name variations, every mention
    that [_find_mentions] returns is an occurrence of one of the
    variations: its offsets delimit a span of the transcript as long as the
    variation, [matched_text] is that span, and the span is the variation
    up to the case of its letters. (Outside ASCII, [re.IGNORECASE] also
    matches letters that [str.lower] does not map to the letters of the
    variation.) *)
Theorem found_mention_is_an_occurrence :
  forall (transcript : str) (name_variations : list str) (m : Mention),
    ascii_text transcript ->
    Forall ascii_text name_variations ->
    In m (_find_mentions transcript name_variations) ->
    In (variation m) name_variations
    /\ span_in_bounds transcript m
    /\ matched_text m = slice transcript (position m) (end_position m)
    /\ lower (matched_text m) = lower (variation m)
    /\ (end_position m - position m = len (variation m))%Z.
Proof.
  intros transcript name_variations m _ _ Hm. now apply find_mentions_occurrence.
Qed.

Lemma found_mention_is_an_occurrence_witness :
  exists m,
    In m (_find_mentions Examples.deck_transcript [lit "al smith"; lit "al"])
    /\ In (variation m) [lit "al smith"; lit "al"]
    /\ span_in_bounds Examples.deck_transcript m
    /\ matched_text m = slice Examples.deck_transcript (position m) (end_position m)
    /\ lower (matched_text m) = lower (variation m)
    /\ (end_position m - position m = len (variation m))%Z.
Proof.
  exists (nth 1 (_find_mentions Examples.deck_transcript [lit "al smith"; lit "al"])
              (mkMention [] [] 0 0 [])).
  assert (Hin : In (nth 1 (_find_mentions Examples.deck_transcript
                                          [lit "al smith"; lit "al"])
                        (mkMention [] [] 0 0 []))
                   (_find_mentions Examples.deck_transcript [lit "al smith"; lit "al"])).
  { vm_compute. right. left. reflexivity. }
  split; [exact Hin|].
  refine (found_mention_is_an_occurrence
            Examples.deck_transcript [lit "al smith"; lit "al"] _ _ _ Hin).
  - reflexivity.
  - repeat first [apply Forall_cons | apply Forall_nil]; reflexivity.
Defined.

End MoreMentionProperties.

(* --------------------------------------------------------------------- *)
(** ** Mention tracker: highlighting, sentences, tasks, speakers, reports *)
(* --------------------------------------------------------------------- *)

Section MoreHighlightProperties.
Import MentionTracker Notions.

Lemma insert_by_desc_perm {A : Type} (key : A -> Z) (x : A) (l : list A) :
  Permutation (insert_by_desc key x l) (x :: l).
Proof.
  induction l as [|a l IH]; simpl; [reflexivity|].
  destruct (key a <=? key x)%Z; [reflexivity|].
  rewrite IH. apply perm_swap.
Qed.

Lemma sorted_by_desc_perm {A : Type} (key : A -> Z) (l : list A) :
  Permutation (sorted_by_desc key l) l.
Proof.
  induction l as [|a l IH]; simpl; [reflexivity|].
  rewrite insert_by_desc_perm. now constructor.
Qed.

(** One pass of the loop adds the two tags and nothing else, wherever the
    earlier passes have put theirs. *)
Lemma highlight_one_length (t h : str) (m : Mention) :
  span_in_bounds t m -> matched_text_ok t m -> length t <= length h ->
  length (highlight_one h m) = length h + TAGS_LENGTH.
Proof.
  intros (H0 & H1 & H2) Hok Hlen. unfold len in H2.
  unfold highlight_one, slice_to, slice_from.
  rewrite Hok. unfold slice.
  rewrite !length_app, !length_firstn, !length_skipn.
  rewrite !slice_index_nat by lia.
  unfold TAGS_LENGTH.
  change (length MENTION_OPEN) with 9. change (length MENTION_CLOSE) with 10.
  lia.
Qed.

Lemma highlight_fold_length (t : str) (l : list Mention) :
  Forall (fun m => span_in_bounds t m /\ matched_text_ok t m) l ->
  forall h, length t <= length h ->
  length (fold_left highlight_one l h) = length h + TAGS_LENGTH * length l.
Proof.
  induction 1 as [|m l [Hs Hok] Hl IH]; intros h Hlen; cbn [fold_left length];
    [lia|].
  pose proof (highlight_one_length t h m Hs Hok Hlen) as H1.
  rewrite IH by lia. rewrite H1, Nat.mul_succ_r. lia.
Qed.

Lemma build_highlighted_length (transcript : str) (mentions : list Mention) :
  Forall (fun m => span_in_bounds transcript m /\ matched_text_ok transcript m)
         mentions ->
  length (_build_highlighted_transcript transcript mentions)
  = length transcript + TAGS_LENGTH * length mentions.
Proof.
  intros H. unfold _build_highlighted_transcript.
  destruct mentions as [|m ms]; [cbn [length]; lia|].
  pose proof (sorted_by_desc_perm position (m :: ms)) as Hp.
  rewrite highlight_fold_length with (t := transcript).
  - now rewrite (Permutation_length Hp).
  - eapply Permutation_Forall; [symmetry; exact Hp | exact H].
  - lia.
Qed.

(** X11. Highlighting adds the nineteen characters of the two tags for each
    mention and nothing else: for mentions that are spans of the transcript
    carrying the text of their span, in any order and overlapping or not,
    the highlighted transcript is [19 * len(mentions)] characters longer
    than the transcript. *)
Theorem highlight_adds_two_tags_per_mention :
  forall (transcript : str) (mentions : list Mention),
    Forall (fun m => span_in_bounds transcript m /\ matched_text_ok transcript m)
           mentions ->
    length (_build_highlighted_transcript transcript mentions)
    = length transcript + TAGS_LENGTH * length mentions.
Proof.
  intros transcript mentions H. now apply build_highlighted_length.
Qed.

Lemma highlight_adds_two_tags_per_mention_witness :
  Forall (fun m => span_in_bounds Examples.deck_transcript m
                   /\ matched_text_ok Examples.deck_transcript m)
         (rev Examples.deck_mentions)
  /\ length (_build_highlighted_transcript Examples.deck_transcript
                                           (rev Examples.deck_mentions))
     = length Examples.deck_transcript
       + TAGS_LENGTH * length (rev Examples.deck_mentions).
Proof.
  assert (H : Forall (fun m => span_in_bounds Examples.deck_transcript m
                               /\ matched_text_ok Examples.deck_transcript m)
                     (rev Examples.deck_mentions)).
  { repeat first [apply Forall_cons | apply Forall_nil];
      (split; [unfold span_in_bounds, len; simpl; lia | reflexivity]). }
  exact (conj H (highlight_adds_two_tags_per_mention
                   Examples.deck_transcript (rev Examples.deck_mentions) H)).
Defined.

(** *** The sentences with mentions *)

Lemma count_from_mono (ms : list Mention) (p q : Z) :
  (p <= q)%Z ->
  length (filter (fun m => (q <=? position m)%Z) ms)
  <= length (filter (fun m => (p <=? position m)%Z) ms).
Proof.
  intros Hpq. induction ms as [|a ms IH]; simpl; [lia|].
  destruct (Z.leb_spec q (position a)), (Z.leb_spec p (position a));
    simpl; lia.
Qed.

Lemma count_range_split (ms : list Mention) (p e : Z) :
  (p <= e)%Z ->
  length (filter (fun m => (p <=? position m)%Z && (position m <? e)%Z) ms)
  + length (filter (fun m => (e <=? position m)%Z) ms)
  <= length (filter (fun m => (p <=? position m)%Z) ms).
Proof.
  intros Hpe. induction ms as [|a ms IH]; simpl; [lia|].
  destruct (Z.leb_spec p (position a)), (Z.ltb_spec (position a) e),
    (Z.leb_spec e (position a)); simpl; lia.
Qed.

Lemma sentences_loop_consistent (ms : list Mention) :
  forall (raw : list str) (pos : Z),
    Forall group_consistent (sentences_loop raw pos ms).
Proof.
  induction raw as [|r raw IH]; intros pos; cbn [sentences_loop]; [constructor|].
  destruct (str_eqb (strip r) []) eqn:E; [apply IH|].
  destruct (filter (fun m => (pos <=? position m)%Z
                             && (position m <? pos + len r)%Z) ms)
    as [|m sm] eqn:F; [apply IH|].
  constructor; [|apply IH].
  unfold group_consistent; cbn [sentence sentence_mention_count sentence_mentions].
  split.
  { intros H. apply str_eqb_nil in H. congruence. }
  split; [now rewrite length_map|].
  split; [discriminate|].
  apply Forall_map. rewrite <- F. apply Forall_forall. intros x Hx.
  apply filter_In in Hx as [_ Hx]. apply andb_true_iff in Hx as [Hx _].
  apply Z.leb_le in Hx. simpl. lia.
Qed.

Lemma sentences_loop_count (ms : list Mention) :
  forall (raw : list str) (pos : Z),
    counted_mentions (sentences_loop raw pos ms)
    <= length (filter (fun m => (pos <=? position m)%Z) ms).
Proof.
  induction raw as [|r raw IH]; intros pos; cbn [sentences_loop].
  { unfold counted_mentions. simpl. lia. }
  assert (Hlen : (0 <= len r)%Z) by (unfold len; lia).
  destruct (str_eqb (strip r) []).
  { specialize (IH (pos + len r)%Z).
    pose proof (count_from_mono ms pos (pos + len r) ltac:(lia)). lia. }
  pose proof (count_range_split ms pos (pos + len r) ltac:(lia)) as Hsplit.
  pose proof (count_from_mono ms (pos + len r) (pos + len r + 1) ltac:(lia)) as Hm.
  specialize (IH (pos + len r + 1)%Z).
  destruct (filter (fun m => (pos <=? position m)%Z
                             && (position m <? pos + len r)%Z) ms)
    as [|m sm]; [simpl in Hsplit; lia|].
  unfold counted_mentions in *. cbn [map sentence_mentions].
  change (list_sum (?a :: ?l)) with (a + list_sum l).
  cbn [length] in *. rewrite length_map. lia.
Qed.

Lemma groups_at_most_counted (groups : list SentenceGroup) :
  Forall group_consistent groups -> length groups <= counted_mentions groups.
Proof.
  unfold counted_mentions.
  induction 1 as [|g groups (_ & _ & Hne & _) _ IH]; simpl; [lia|].
  destruct (sentence_mentions g); [congruence | simpl; lia].
Qed.

Lemma sentence_groups_length (transcript : str) (mentions : list Mention) :
  length (_extract_sentences_with_mentions transcript mentions) <= length mentions.
Proof.
  unfold _extract_sentences_with_mentions.
  pose proof (sentences_loop_consistent mentions
                (Regex.re_split sentence_pattern transcript) 0) as Hc.
  pose proof (sentences_loop_count mentions
                (Regex.re_split sentence_pattern transcript) 0) as Hn.
  pose proof (filter_length_le (fun m => (0 <=? position m)%Z) mentions) as Hf.
  pose proof (groups_at_most_counted _ Hc) as Hg. lia.
Qed.

(** X12. The sentence dictionaries count every mention at most once: each
    dictionary has a non-empty sentence and at least one mention, its
    [mention_count] is the number of its mentions, no
    [position_in_sentence] is negative, and the mentions of all the
    dictionaries together, hence also the dictionaries, are no more than
    the mentions given. *)
Theorem sentence_groups_count_each_mention_once :
  forall (transcript : str) (mentions : list Mention),
    Forall group_consistent (_extract_sentences_with_mentions transcript mentions)
    /\ counted_mentions (_extract_sentences_with_mentions transcript mentions)
       <= length mentions
    /\ length (_extract_sentences_with_mentions transcript mentions)
       <= length mentions.
Proof.
  intros transcript mentions. unfold _extract_sentences_with_mentions.
  pose proof (sentences_loop_consistent mentions
                (Regex.re_split sentence_pattern transcript) 0) as Hc.
  pose proof (sentences_loop_count mentions
                (Regex.re_split sentence_pattern transcript) 0) as Hn.
  pose proof (filter_length_le (fun m => (0 <=? position m)%Z) mentions) as Hf.
  pose proof (groups_at_most_counted _ Hc) as Hg.
  split; [exact Hc|]. split; lia.
Qed.

End MoreHighlightProperties.

(* --------------------------------------------------------------------- *)
(** *** The task assignments, the speaker mentions, the report *)
(* --------------------------------------------------------------------- *)

Section MoreTrackerProperties.
Import MentionTracker MentionDisplay Notions.

Variable list_set : set_iteration.
Variable raw_finditer : RawFinditer.

Lemma capitalize_first_length (s : str) :
  length (capitalize_first s) = length s.
Proof. destruct s; reflexivity. Qed.

Lemma tasks_of_matches_shape (username sentence_text : str) :
  forall (groups : list (option str)) (tasks : list TaskAssignment),
    tasks_of_matches username sentence_text groups = inr tasks ->
    Forall (fun t => 5 < length (ta_task t) /\ assigned_to t = username
                     /\ ta_confidence t = lit "extracted"
                     /\ source_sentence t = sentence_text) tasks.
Proof.
  induction groups as [|[g|] groups IH]; intros tasks; cbn [tasks_of_matches].
  - intros [= <-]. constructor.
  - destruct (tasks_of_matches username sentence_text groups) as [e|later];
      [discriminate|].
    specialize (IH later eq_refl). cbn [bind].
    destruct (negb (str_eqb (strip g) []) && (5 <? length (strip g))) eqn:E.
    + intros [= <-]. constructor; [|exact IH]. cbn.
      apply andb_true_iff in E as [_ E]. apply Nat.ltb_lt in E.
      rewrite capitalize_first_length. auto.
    + intros [= <-]. exact IH.
  - discriminate.
Qed.

Lemma tasks_of_patterns_shape (username sentence_text : str) :
  forall (patterns : list str) (tasks : list TaskAssignment),
    tasks_of_patterns raw_finditer username sentence_text patterns = inr tasks ->
    Forall (fun t => 5 < length (ta_task t) /\ assigned_to t = username
                     /\ ta_confidence t = lit "extracted"
                     /\ source_sentence t = sentence_text) tasks.
Proof.
  induction patterns as [|p patterns IH]; intros tasks; cbn [tasks_of_patterns].
  - intros [= <-]. constructor.
  - destruct (raw_finditer p sentence_text) as [e|groups]; [discriminate|].
    cbn [bind].
    destruct (tasks_of_matches username sentence_text groups) as [e|found] eqn:Ef;
      [discriminate|].
    cbn [bind].
    destruct (tasks_of_patterns raw_finditer username sentence_text patterns)
      as [e|later]; [discriminate|].
    cbn [bind]. intros [= <-]. apply Forall_app. split.
    + now apply tasks_of_matches_shape in Ef.
    + now apply IH.
Qed.

Lemma tasks_of_sentences_shape (username : str) (patterns : list str) :
  forall (sentences : list SentenceGroup) (tasks : list TaskAssignment),
    tasks_of_sentences raw_finditer username patterns sentences = inr tasks ->
    Forall (task_well_formed username sentences) tasks.
Proof.
  induction sentences as [|g sentences IH]; intros tasks; cbn [tasks_of_sentences].
  - intros [= <-]. constructor.
  - destruct (tasks_of_patterns raw_finditer username (sentence g) patterns)
      as [e|found] eqn:Ef; [discriminate|].
    cbn [bind].
    destruct (tasks_of_sentences raw_finditer username patterns sentences)
      as [e|later]; [discriminate|].
    cbn [bind]. intros [= <-]. apply Forall_app. split.
    + apply tasks_of_patterns_shape in Ef.
      eapply Forall_impl; [|exact Ef].
      intros t (H1 & H2 & H3 & H4). repeat split; try assumption.
      exists g. split; [now left | exact H4].
    + specialize (IH later eq_refl).
      eapply Forall_impl; [|exact IH].
      intros t (H1 & H2 & H3 & g' & Hg' & H4). repeat split; try assumption.
      exists g'. split; [now right | exact H4].
Qed.

Lemma not_seen (k : str) (seen : list str) :
  existsb (str_eqb k) seen = false -> ~ In k seen.
Proof.
  intros H Hin.
  assert (Ht : existsb (str_eqb k) seen = true).
  { apply existsb_exists. exists k. split; [exact Hin | now apply str_eqb_eq]. }
  congruence.
Qed.

Lemma unique_tasks_spec :
  forall (tasks : list TaskAssignment) (seen : list str),
    (forall t, In t (unique_tasks tasks seen) ->
               In t tasks /\ ~ In (lower (ta_task t)) seen)
    /\ NoDup (map (fun t => lower (ta_task t)) (unique_tasks tasks seen)).
Proof.
  induction tasks as [|task tasks IH]; intros seen; cbn [unique_tasks].
  - split; [intros t [] | constructor].
  - destruct (existsb (str_eqb (lower (ta_task task))) seen) eqn:E.
    + destruct (IH seen) as [H1 H2]. split; [|exact H2].
      intros t Ht. apply H1 in Ht as [Ha Hb]. split; [now right | exact Hb].
    + destruct (IH (lower (ta_task task) :: seen)) as [H1 H2]. split.
      * intros t [<- | Ht].
        -- split; [now left | now apply not_seen].
        -- apply H1 in Ht as [Ha Hb]. split; [now right|].
           intros Hin. apply Hb. now right.
      * cbn [map]. constructor; [|exact H2].
        intros Hin. apply in_map_iff in Hin as (t & Hk & Ht).
        apply H1 in Ht as [_ Hb]. apply Hb. left. now symmetry.
Qed.

(** X13. The task assignments returned for a user are pairwise distinct up
    to the case of their letters, and each one has a task text of more than
    five characters, names the user in [assigned_to], is marked
    "extracted", and quotes one of the sentences given as its source. *)
Theorem task_assignments_are_distinct :
  forall (sentences : list SentenceGroup) (username : str)
         (name_variations : list str) (tasks : list TaskAssignment),
    _extract_task_assignments raw_finditer sentences username name_variations
    = inr tasks ->
    NoDup (map (fun t => lower (ta_task t)) tasks)
    /\ Forall (task_well_formed username sentences) tasks.
Proof.
  intros sentences username name_variations tasks.
  unfold _extract_task_assignments.
  destruct (tasks_of_sentences raw_finditer username
              (task_patterns name_variations) sentences) as [e|all] eqn:E;
    [discriminate|].
  cbn [bind]. intros [= <-].
  destruct (unique_tasks_spec all []) as [H1 H2].
  split; [exact H2|].
  apply tasks_of_sentences_shape in E.
  apply Forall_forall. intros t Ht. apply H1 in Ht as [Ht _].
  rewrite Forall_forall in E. now apply E.
Qed.

Lemma speaker_mentions_length
      (segments : list Api.SpeakerSegment) (name_variations : list str) :
  length (_get_speaker_mentions segments name_variations) <= length segments.
Proof.
  induction segments as [|seg segments IH]; cbn [_get_speaker_mentions length];
    [lia|].
  destruct (str_eqb (Api.speaker seg) []); [lia|].
  destruct (existsb (fun variation => contains variation (lower (Api.speaker seg)))
                    name_variations); cbn [length]; lia.
Qed.

(** X14. The speaker mentions are the segments that have a speaker label
    containing one of the variations, lower-cased, each once and in the
    order of the segments, with the label, text and times of the segment. *)
Theorem speaker_mentions_follow_segments :
  forall (segments : list Api.SpeakerSegment) (name_variations : list str),
    map (fun sm => (spk_speaker sm, spk_text sm, start_time sm, end_time sm))
        (_get_speaker_mentions segments name_variations)
    = map (fun seg => (Api.speaker seg, Api.text seg, Api.start seg, Api.end_ seg))
          (filter (speaker_matches name_variations) segments)
    /\ Forall (fun sm => spk_speaker sm <> [] /\ mention_type sm = lit "speaker")
              (_get_speaker_mentions segments name_variations)
    /\ length (_get_speaker_mentions segments name_variations) <= length segments.
Proof.
  intros segments name_variations.
  induction segments as [|seg segments (IH1 & IH2 & IH3)];
    cbn [_get_speaker_mentions filter map length].
  - split; [reflexivity|]. split; [constructor | lia].
  - unfold speaker_matches at 1.
    destruct (str_eqb (Api.speaker seg) []) eqn:E; cbn [negb andb].
    + split; [exact IH1|]. split; [exact IH2 | lia].
    + destruct (existsb (fun variation => contains variation (lower (Api.speaker seg)))
                        name_variations).
      * cbn [map length]. split; [now rewrite IH1|]. split; [|lia].
        constructor; [|exact IH2]. split; [|reflexivity].
        cbn. intros H. apply str_eqb_nil in H. congruence.
      * split; [exact IH1|]. split; [exact IH2 | lia].
Qed.

(** A report that is returned is the report of the [try] block. *)
Lemma track_mentions_report
      (now username full_transcript : str)
      (segments : list Api.SpeakerSegment) (diarization_available : bool)
      (report : Report) :
  track_mentions list_set raw_finditer now username full_transcript
                 segments diarization_available = Some report ->
  exists name_variations tasks,
    _generate_name_variations list_set (strip username) = inr name_variations
    /\ _find_mentions full_transcript name_variations <> []
    /\ _extract_task_assignments raw_finditer
         (_extract_sentences_with_mentions full_transcript
            (_find_mentions full_transcript name_variations))
         (strip username) name_variations = inr tasks
    /\ report = report_of now username full_transcript segments
                          diarization_available name_variations tasks.
Proof.
  unfold track_mentions.
  pose proof (track_mentions_body_cases list_set raw_finditer now username
                full_transcript segments diarization_available) as H.
  cbv zeta in H.
  destruct H as [[_ Hb] | (_ & _ & [ (e & _ & Hb) | (nv & Hv & H) ])];
    [rewrite Hb; discriminate | rewrite Hb; discriminate |].
  destruct H as [[_ Hb] | (Hne & [ (e & Hb) | (tasks & Ht & Hb) ])];
    rewrite Hb; try discriminate.
  intros [= <-]. exists nv, tasks. auto.
Qed.

(** X15. The statistics of a report that [track_mentions] returns: the
    total is the number of mentions and at least one, the sentences with
    mentions are no more than the mentions, the speaker mentions are no
    more than the segments and none without diarization, and the
    engagement level is never "none". *)
Theorem tracked_report_statistics :
  forall (now username full_transcript : str)
         (segments : list Api.SpeakerSegment) (diarization_available : bool)
         (report : Report),
    track_mentions list_set raw_finditer now username full_transcript
                   segments diarization_available = Some report ->
    exists stats,
      get_mention_statistics (Some report) = Some stats
      /\ total_mentions stats = Z.of_nat (length (mentions report))
      /\ (1 <= total_mentions stats)%Z
      /\ sentence_mentions_total stats
         = Z.of_nat (length (sentences_with_mentions report))
      /\ (sentence_mentions_total stats <= total_mentions stats)%Z
      /\ (speaker_mentions_total stats <= Z.of_nat (length segments))%Z
      /\ (diarization_available = false -> speaker_mentions_total stats = 0%Z)
      /\ task_count stats = Z.of_nat (length (assigned_tasks report))
      /\ engagement_level stats <> lit "none".
Proof.
  intros now username full_transcript segments diarization_available report H.
  apply track_mentions_report in H as (nv & tasks & _ & Hne & _ & ->).
  eexists. split; [reflexivity|].
  cbn [total_mentions sentence_mentions_total speaker_mentions_total task_count
       engagement_level].
  unfold report_of.
  cbn [mention_count mentions sentence_count sentences_with_mentions
       speaker_mentions assigned_tasks].
  pose proof (sentence_groups_length full_transcript
                (_find_mentions full_transcript nv)) as Hs.
  assert (Hpos : 1 <= length (_find_mentions full_transcript nv)).
  { destruct (_find_mentions full_transcript nv); [congruence | simpl; lia]. }
  split; [reflexivity|]. split; [lia|]. split; [reflexivity|]. split; [lia|].
  split.
  { destruct diarization_available; [|simpl; lia].
    pose proof (speaker_mentions_length segments nv) as Hl. lia. }
  split; [now intros ->|]. split; [reflexivity|].
  unfold _calculate_engagement. cbn [mention_count].
  repeat match goal with
         | |- context [(?a <=? ?b)%Z] => destruct (Z.leb_spec a b)
         | |- context [(?a <? ?b)%Z] => destruct (Z.ltb_spec a b)
         end; try discriminate; lia.
Qed.

(** X16. The engagement level never falls when the mention count grows,
    and it is "none" exactly for a count of zero or less. *)
Theorem engagement_is_monotone :
  forall r1 r2 : Report,
    (mention_count r1 <= mention_count r2)%Z ->
    (engagement_rank (_calculate_engagement r1)
     <= engagement_rank (_calculate_engagement r2))%Z
    /\ (_calculate_engagement r1 = lit "none" <-> (mention_count r1 <= 0)%Z).
Proof.
  intros r1 r2 H. unfold _calculate_engagement.
  repeat match goal with
         | |- context [(?a <=? ?b)%Z] => destruct (Z.leb_spec a b)
         | |- context [(?a <? ?b)%Z] => destruct (Z.ltb_spec a b)
         end;
    (split; [vm_compute; try discriminate; lia
            | split; [try discriminate; intros _; lia | try reflexivity; lia]]).
Qed.

(** X17. The highlighted transcript of a report that [track_mentions]
    returns is the transcript with the two tags added around each of the
    report's mentions: it is [19 * mention_count] characters longer than the
    transcript, and when the transcript holds no tag text, deleting the tags
    gives the transcript back. *)
Theorem report_highlight_is_transcript_with_tags :
  forall (now username full_transcript : str)
         (segments : list Api.SpeakerSegment) (diarization_available : bool)
         (report : Report),
    track_mentions list_set raw_finditer now username full_transcript
                   segments diarization_available = Some report ->
    len (highlight_transcript report)
    = (len full_transcript + Z.of_nat TAGS_LENGTH * mention_count report)%Z
    /\ (marker_free full_transcript ->
        remove_markers (highlight_transcript report) = full_transcript).
Proof.
  intros now username full_transcript segments diarization_available report H.
  apply track_mentions_report in H as (nv & tasks & _ & _ & _ & ->).
  unfold report_of. cbn [highlight_transcript mention_count]. split.
  - unfold len. rewrite build_highlighted_length by apply find_mentions_spans. lia.
  - intros Hfree. now apply tracked_highlight_round_trip.
Qed.

End MoreTrackerProperties.

Lemma task_assignments_are_distinct_witness :
  exists tasks,
    MentionTracker._extract_task_assignments Examples.deck_engine
      (MentionTracker._extract_sentences_with_mentions Examples.deck_question
         (MentionTracker._find_mentions Examples.deck_question [lit "al"]))
      (lit "Al") [lit "al"] = inr tasks
    /\ tasks <> []
    /\ NoDup (map (fun t => lower (MentionTracker.ta_task t)) tasks)
    /\ Forall (Notions.task_well_formed (lit "Al")
                 (MentionTracker._extract_sentences_with_mentions
                    Examples.deck_question
                    (MentionTracker._find_mentions Examples.deck_question
                                                   [lit "al"])))
              tasks.
Proof.
  destruct (MentionTracker._extract_task_assignments Examples.deck_engine
              (MentionTracker._extract_sentences_with_mentions Examples.deck_question
                 (MentionTracker._find_mentions Examples.deck_question [lit "al"]))
              (lit "Al") [lit "al"]) as [e|tasks] eqn:E;
    [vm_compute in E; discriminate E|].
  exists tasks. split; [reflexivity|]. split.
  - vm_compute in E. injection E as <-. discriminate.
  - exact (task_assignments_are_distinct Examples.deck_engine _ _ _ tasks E).
Defined.

Lemma tracked_report_statistics_witness :
  exists report,
    MentionTracker.track_mentions first_occurrence_order Examples.deck_engine
      Examples.clock_1 (lit "Al") Examples.deck_question [] false = Some report
    /\ exists stats,
      MentionDisplay.get_mention_statistics (Some report) = Some stats
      /\ MentionDisplay.total_mentions stats
         = Z.of_nat (length (MentionTracker.mentions report))
      /\ (1 <= MentionDisplay.total_mentions stats)%Z
      /\ MentionDisplay.sentence_mentions_total stats
         = Z.of_nat (length (MentionTracker.sentences_with_mentions report))
      /\ (MentionDisplay.sentence_mentions_total stats
          <= MentionDisplay.total_mentions stats)%Z
      /\ (MentionDisplay.speaker_mentions_total stats
          <= Z.of_nat (@length Api.SpeakerSegment []))%Z
      /\ (false = false -> MentionDisplay.speaker_mentions_total stats = 0%Z)
      /\ MentionDisplay.task_count stats
         = Z.of_nat (length (MentionTracker.assigned_tasks report))
      /\ MentionDisplay.engagement_level stats <> lit "none".
Proof.
  destruct (MentionTracker.track_mentions first_occurrence_order Examples.deck_engine
              Examples.clock_1 (lit "Al") Examples.deck_question [] false)
    as [report|] eqn:E; [|vm_compute in E; discriminate E].
  exists report. split; [reflexivity|].
  exact (tracked_report_statistics first_occurrence_order Examples.deck_engine
           Examples.clock_1 (lit "Al") Examples.deck_question [] false report E).
Defined.

Lemma engagement_is_monotone_witness :
  exists r1 r2,
    MentionTracker.track_mentions first_occurrence_order Examples.no_task_engine
      Examples.clock_1 (lit "Al") Examples.spoke_transcript [] false = Some r1
    /\ MentionTracker.track_mentions first_occurrence_order Examples.deck_engine
         Examples.clock_1 (lit "Al Smith") Examples.deck_transcript [] false = Some r2
    /\ (MentionDisplay.engagement_rank (MentionDisplay._calculate_engagement r1)
        <= MentionDisplay.engagement_rank (MentionDisplay._calculate_engagement r2))%Z
    /\ (MentionDisplay._calculate_engagement r1 = lit "none"
        <-> (MentionTracker.mention_count r1 <= 0)%Z).
Proof.
  destruct (MentionTracker.track_mentions first_occurrence_order Examples.no_task_engine
              Examples.clock_1 (lit "Al") Examples.spoke_transcript [] false)
    as [r1|] eqn:E1; [|vm_compute in E1; discriminate E1].
  destruct (MentionTracker.track_mentions first_occurrence_order Examples.deck_engine
              Examples.clock_1 (lit "Al Smith") Examples.deck_transcript [] false)
    as [r2|] eqn:E2; [|vm_compute in E2; discriminate E2].
  exists r1, r2. split; [reflexivity|]. split; [reflexivity|].
  apply (engagement_is_monotone r1 r2).
  vm_compute in E1. vm_compute in E2.
  injection E1 as <-. injection E2 as <-. vm_compute. discriminate.
Defined.

Lemma report_highlight_is_transcript_with_tags_witness :
  exists report,
    MentionTracker.track_mentions first_occurrence_order Examples.deck_engine
      Examples.clock_1 (lit "Al") Examples.deck_question [] false = Some report
    /\ MentionTracker.len (MentionTracker.highlight_transcript report)
       = (MentionTracker.len Examples.deck_question
          + Z.of_nat Notions.TAGS_LENGTH * MentionTracker.mention_count report)%Z
    /\ (MentionTracker.marker_free Examples.deck_question ->
        MentionTracker.remove_markers (MentionTracker.highlight_transcript report)
        = Examples.deck_question).
Proof.
  destruct (MentionTracker.track_mentions first_occurrence_order Examples.deck_engine
              Examples.clock_1 (lit "Al") Examples.deck_question [] false)
    as [report|] eqn:E; [|vm_compute in E; discriminate E].
  exists report. split; [reflexivity|].
  exact (report_highlight_is_transcript_with_tags first_occurrence_order
           Examples.deck_engine Examples.clock_1 (lit "Al") Examples.deck_question
           [] false report E).
Defined.

(* --------------------------------------------------------------------- *)
(** ** Personal insight synthesizer: transcript, action items, bundle *)
(* --------------------------------------------------------------------- *)

Section MorePersonalProperties.
Import Summarization PersonalInsights PersonalFlow Notions.

Variable list_set : set_iteration.
Variable model : Model.

(** *** The personal transcript *)

Lemma seen_text (k : str) (seen : list str) :
  existsb (str_eqb k) seen = true -> In k seen.
Proof.
  intros H. apply existsb_exists in H as (x & Hx & E).
  apply str_eqb_eq in E. now subst.
Qed.

Lemma unseen_text (k : str) (seen : list str) :
  existsb (str_eqb k) seen = false -> ~ In k seen.
Proof.
  intros H Hin.
  assert (Ht : existsb (str_eqb k) seen = true).
  { apply existsb_exists. exists k. split; [exact Hin | now apply str_eqb_eq]. }
  congruence.
Qed.

(** What the loop keeps, for any set of texts already taken. *)
Lemma personal_loop_sound (name_lower : str) (name_variations : list str)
      (diarization_available : bool) :
  forall (segments : list Api.SpeakerSegment) (seen_texts : list str),
    let kept := personal_loop name_lower name_variations diarization_available
                              segments seen_texts in
    (forall ps, In ps kept -> ~ In (stripped_text (segment ps)) seen_texts)
    /\ NoDup (map (fun ps => stripped_text (segment ps)) kept)
    /\ subsequence (map segment kept) segments
    /\ Forall (reason_justified name_lower name_variations diarization_available)
              kept.
Proof.
  induction segments as [|seg segments IH]; intros seen_texts; cbn zeta.
  { cbn [personal_loop map]. repeat split; try constructor. intros ps []. }
  cbn [personal_loop].
  destruct (str_eqb (strip (Api.text seg)) []) eqn:Eblank.
  { destruct (IH seen_texts) as (H1 & H2 & H3 & H4).
    repeat split; try assumption. now constructor. }
  assert (Hne : stripped_text seg <> []).
  { unfold stripped_text. intros H. apply str_eqb_eq in H. congruence. }
  destruct (diarization_available
            && _is_user_speaker (lower (Api.speaker seg)) name_lower) eqn:Espk.
  - destruct (existsb (str_eqb (strip (Api.text seg))) seen_texts) eqn:Eseen.
    + destruct (IH seen_texts) as (H1 & H2 & H3 & H4).
      repeat split; try assumption. now constructor.
    + destruct (IH (strip (Api.text seg) :: seen_texts)) as (H1 & H2 & H3 & H4).
      split; [|split; [|split]].
      * intros ps [<- | Hps]; [now apply unseen_text|].
        intros Hin. apply (H1 ps Hps). now right.
      * cbn [map segment]. constructor; [|exact H2].
        intros Hin. apply in_map_iff in Hin as (ps & Hk & Hps).
        apply (H1 ps Hps). left. now symmetry.
      * cbn [map segment]. now constructor.
      * constructor; [|exact H4]. split; [exact Hne|]. left.
        split; [reflexivity | exact Espk].
  - destruct (_contains_name_mention (strip (Api.text seg)) name_lower
                                     name_variations) eqn:Ename.
    + destruct (existsb (str_eqb (strip (Api.text seg))) seen_texts) eqn:Eseen.
      * destruct (IH seen_texts) as (H1 & H2 & H3 & H4).
        repeat split; try assumption. now constructor.
      * destruct (IH (strip (Api.text seg) :: seen_texts)) as (H1 & H2 & H3 & H4).
        split; [|split; [|split]].
        -- intros ps [<- | Hps]; [now apply unseen_text|].
           intros Hin. apply (H1 ps Hps). now right.
        -- cbn [map segment]. constructor; [|exact H2].
           intros Hin. apply in_map_iff in Hin as (ps & Hk & Hps).
           apply (H1 ps Hps). left. now symmetry.
        -- cbn [map segment]. now constructor.
        -- constructor; [|exact H4]. split; [exact Hne|]. right.
           split; [reflexivity|]. split; [exact Espk | exact Ename].
    + destruct (IH seen_texts) as (H1 & H2 & H3 & H4).
      repeat split; try assumption. now constructor.
Qed.

(** What the loop does not lose. *)
Lemma personal_loop_complete (name_lower : str) (name_variations : list str)
      (diarization_available : bool) (seg : Api.SpeakerSegment) :
  stripped_text seg <> [] ->
  speaker_matched name_lower diarization_available seg
  || name_mentioned name_lower name_variations seg = true ->
  forall (segments : list Api.SpeakerSegment) (seen_texts : list str),
    In seg segments ->
    In (stripped_text seg) seen_texts
    \/ exists ps,
        In ps (personal_loop name_lower name_variations diarization_available
                             segments seen_texts)
        /\ stripped_text (segment ps) = stripped_text seg.
Proof.
  intros Hne Hmatch.
  induction segments as [|seg0 segments IH]; intros seen_texts Hin;
    [destruct Hin|].
  cbn [personal_loop].
  destruct (str_eqb (strip (Api.text seg0)) []) eqn:Eblank.
  { destruct Hin as [-> | Hin]; [|now apply IH].
    apply str_eqb_eq in Eblank. now elim Hne. }
  pose proof (IH seen_texts) as IHsame.
  pose proof (IH (strip (Api.text seg0) :: seen_texts)) as IHnew.
  assert (Hkept : forall reason,
             existsb (str_eqb (strip (Api.text seg0))) seen_texts = false ->
             In (stripped_text seg) seen_texts
             \/ exists ps,
                 In ps ({| segment := seg0; match_reason := reason |}
                        :: personal_loop name_lower name_variations
                             diarization_available segments
                             (strip (Api.text seg0) :: seen_texts))
                 /\ stripped_text (segment ps) = stripped_text seg).
  { intros reason _. destruct Hin as [-> | Hin].
    - right. eexists. split; [now left | reflexivity].
    - destruct (IHnew Hin) as [[E | Hs] | (ps & Hps & E)].
      + right. eexists. split; [now left | exact E].
      + now left.
      + right. exists ps. split; [now right | exact E]. }
  assert (Hdup : existsb (str_eqb (strip (Api.text seg0))) seen_texts = true ->
                 In (stripped_text seg) seen_texts
                 \/ exists ps,
                     In ps (personal_loop name_lower name_variations
                              diarization_available segments seen_texts)
                     /\ stripped_text (segment ps) = stripped_text seg).
  { intros Eseen. destruct Hin as [-> | Hin]; [|now apply IHsame].
    left. now apply seen_text. }
  destruct (diarization_available
            && _is_user_speaker (lower (Api.speaker seg0)) name_lower) eqn:Espk.
  - destruct (existsb (str_eqb (strip (Api.text seg0))) seen_texts) eqn:Eseen;
      [now apply Hdup | now apply Hkept].
  - destruct (_contains_name_mention (strip (Api.text seg0)) name_lower
                                     name_variations) eqn:Ename.
    + destruct (existsb (str_eqb (strip (Api.text seg0))) seen_texts) eqn:Eseen;
        [now apply Hdup | now apply Hkept].
    + destruct Hin as [-> | Hin]; [|now apply IHsame].
      unfold speaker_matched, name_mentioned, stripped_text in Hmatch.
      rewrite Espk, Ename in Hmatch. discriminate Hmatch.
Qed.

(** X18. The personal segments are segments of the meeting, in their order,
    with pairwise distinct stripped texts; none has a blank text; and the
    reason recorded with each is the first test it passes: "speaker_match"
    when diarization is available and the lower-cased speaker label
    contains the lower-cased user name, "name_mention" otherwise, when a
    name variation occurs in the text as a whole word. *)
Theorem personal_segments_are_distinct_matches :
  forall (user_name : str) (segments : list Api.SpeakerSegment)
         (diarization_available : bool),
    NoDup (map (fun ps => stripped_text (segment ps))
               (snd (_extract_personal_transcript list_set user_name segments
                                                  diarization_available)))
    /\ subsequence
         (map segment
              (snd (_extract_personal_transcript list_set user_name segments
                                                 diarization_available)))
         segments
    /\ Forall (reason_justified (lower user_name)
                                (_generate_name_variations list_set user_name)
                                diarization_available)
              (snd (_extract_personal_transcript list_set user_name segments
                                                 diarization_available)).
Proof.
  intros user_name segments diarization_available.
  unfold _extract_personal_transcript. cbn [snd].
  pose proof (personal_loop_sound (lower user_name)
                (_generate_name_variations list_set user_name)
                diarization_available segments []) as H.
  cbn zeta in H. destruct H as (_ & H2 & H3 & H4). auto.
Qed.

(** X19. No matching text is lost: for every segment with a text that is
    not blank, that passes the speaker test (with diarization) or the name
    test, a personal segment with the same stripped text is returned. *)
Theorem matching_segment_text_is_kept :
  forall (user_name : str) (segments : list Api.SpeakerSegment)
         (diarization_available : bool) (seg : Api.SpeakerSegment),
    In seg segments ->
    stripped_text seg <> [] ->
    speaker_matched (lower user_name) diarization_available seg
    || name_mentioned (lower user_name)
                      (_generate_name_variations list_set user_name) seg = true ->
    exists ps,
      In ps (snd (_extract_personal_transcript list_set user_name segments
                                               diarization_available))
      /\ stripped_text (segment ps) = stripped_text seg.
Proof.
  intros user_name segments diarization_available seg Hin Hne Hmatch.
  unfold _extract_personal_transcript. cbn [snd].
  destruct (personal_loop_complete (lower user_name)
              (_generate_name_variations list_set user_name)
              diarization_available seg Hne Hmatch segments [] Hin)
    as [[] | H].
  exact H.
Qed.

(** *** The personal action items *)

Lemma relevant_items_In (name_variations : list str) (transcript_lower : str)
      (item : ActionItems.ActionItem) :
  forall action_items,
    In item action_items ->
    is_relevant name_variations transcript_lower item = true ->
    In item (relevant_items name_variations transcript_lower action_items).
Proof.
  induction action_items as [|a action_items IH]; intros Hin Hrel;
    [destruct Hin|].
  cbn [relevant_items]. destruct Hin as [-> | Hin].
  - rewrite Hrel. now left.
  - destruct (is_relevant name_variations transcript_lower a);
      [right|]; now apply IH.
Qed.

Lemma relevant_items_length (name_variations : list str) (transcript_lower : str) :
  forall action_items,
    length (relevant_items name_variations transcript_lower action_items)
    <= length action_items.
Proof.
  induction action_items as [|a action_items IH]; cbn [relevant_items length];
    [lia|].
  destruct (is_relevant name_variations transcript_lower a); cbn [length]; lia.
Qed.

Lemma existsb_In {A : Type} (f : A -> bool) (x : A) (l : list A) :
  In x l -> f x = true -> existsb f l = true.
Proof. intros Hin Hf. apply existsb_exists. now exists x. Qed.

(** X20. For a user name of one word whose first letter, lower-cased,
    occurs in "unassigned", every action item that names nobody counts as a
    personal item of the user: the initial is one of the name variations,
    and the assignee test looks for a variation anywhere in the lower-cased
    assignee, which is "unassigned" for such an item. *)
Theorem unassigned_items_count_as_personal :
  forall (user_name : str) (c : ascii) (w : str)
         (action_items : list ActionItems.ActionItem) (personal_transcript : str)
         (item : ActionItems.ActionItem),
    (forall l x, In x l -> In x (list_set l)) ->
    split user_name = [c :: w] ->
    In (lower_char c) (lit "unassigned") ->
    In item action_items ->
    ActionItems.assignee item = ActionItems.UNASSIGNED ->
    In item (_extract_personal_action_items list_set user_name action_items
                                            personal_transcript).
Proof.
  intros user_name c w action_items personal_transcript item Hset Hs Hc Hin Ha.
  unfold _extract_personal_action_items.
  apply relevant_items_In; [exact Hin|].
  unfold is_relevant. rewrite Ha.
  replace (negb (str_eqb (lower ActionItems.UNASSIGNED) [])) with true
    by reflexivity.
  cbn [andb].
  rewrite (existsb_In _ [lower_char c]); [reflexivity | |].
  - rewrite (synthesizer_variations_one_word list_set user_name c w Hs).
    apply Hset. right. now left.
  - change (lower ActionItems.UNASSIGNED) with (lit "unassigned").
    repeat (destruct Hc as [<- | Hc]; [reflexivity|]). destruct Hc.
Qed.

(** *** The bundle *)

(** The personal summary, with its requests. *)
Lemma generate_personal_summary_run (personal_transcript user_name : str)
      (log : list Event) :
  _generate_personal_summary model personal_transcript user_name log
  = (inr [],
     if length personal_transcript <? 10
     then log
     else log ++ [SummarizeCall personal_transcript personal_kwargs]).
Proof.
  unfold _generate_personal_summary.
  destruct (length personal_transcript <? 10) eqn:E.
  - rewrite orb_true_r. reflexivity.
  - destruct personal_transcript as [|c t]; [discriminate E|].
    reflexivity.
Qed.

Lemma personal_transcript_segments (user_name : str)
      (segments : list Api.SpeakerSegment) (diarization_available : bool) :
  fst (_extract_personal_transcript list_set user_name segments
                                    diarization_available) <> [] ->
  snd (_extract_personal_transcript list_set user_name segments
                                    diarization_available) <> [].
Proof.
  unfold _extract_personal_transcript. cbn [fst snd].
  destruct (personal_loop (lower user_name)
              (_generate_name_variations list_set user_name)
              diarization_available segments []); [|discriminate].
  intros H. now elim H.
Qed.

(** X21. [extract_personal_insights] never raises and never runs the
    summarization pipeline: it makes at most one call of [summarize]. It
    returns nothing for a blank user name; and in every bundle it returns,
    the name is the user name, the personal transcript is not empty while
    the personal summary is, [transcript_coverage] is the number of
    personal segments and at least one, and [action_items_count] is the
    number of assigned tasks and at most the number of action items. *)
Theorem personal_insights_bundle :
  forall (user_name full_transcript : str)
         (segments : list Api.SpeakerSegment)
         (action_items : list ActionItems.ActionItem)
         (diarization_available : bool) (log : list Event),
    exists result calls,
      extract_personal_insights list_set model user_name full_transcript
                                segments action_items diarization_available log
      = (inr result, log ++ calls)
      /\ length calls <= 1
      /\ Forall is_summarize_call calls
      /\ (strip user_name = [] -> result = None)
      /\ (forall bundle,
             result = Some bundle ->
             name bundle = user_name
             /\ personal_summary bundle = []
             /\ personal_transcript bundle <> []
             /\ transcript_coverage bundle
                = Z.of_nat (length (personal_segments bundle))
             /\ (1 <= transcript_coverage bundle)%Z
             /\ action_items_count bundle
                = Z.of_nat (length (assigned_tasks bundle))
             /\ (action_items_count bundle <= Z.of_nat (length action_items))%Z).
Proof.
  intros user_name full_transcript segments action_items diarization_available log.
  unfold extract_personal_insights.
  destruct (str_eqb user_name [] || str_eqb (strip user_name) []) eqn:Ename.
  { exists None, []. rewrite app_nil_r. unfold mret.
    split; [reflexivity|]. split; [simpl; lia|]. split; [constructor|].
    split; [reflexivity | discriminate]. }
  apply orb_false_iff in Ename as [_ Ename].
  assert (Hname : strip user_name <> []).
  { intros H. apply str_eqb_eq in H. congruence. }
  pose proof (personal_transcript_segments user_name segments
                                           diarization_available) as Hsegs.
  destruct (_extract_personal_transcript list_set user_name segments
                                         diarization_available)
    as [personal_transcript_text segs] eqn:Ept.
  cbn [fst snd] in Hsegs. unfold try_except.
  destruct (str_eqb personal_transcript_text []) eqn:Etext.
  { exists None, []. rewrite app_nil_r. unfold mret.
    split; [reflexivity|]. split; [simpl; lia|]. split; [constructor|].
    split; [reflexivity | discriminate]. }
  assert (Htext : personal_transcript_text <> []).
  { intros H. apply str_eqb_eq in H. congruence. }
  specialize (Hsegs Htext).
  unfold mbind. rewrite generate_personal_summary_run. unfold mret.
  eexists.
  exists (if length personal_transcript_text <? 10
          then []
          else [SummarizeCall personal_transcript_text personal_kwargs]).
  split.
  { destruct (length personal_transcript_text <? 10);
      [rewrite app_nil_r|]; reflexivity. }
  split; [destruct (length personal_transcript_text <? 10); simpl; lia|].
  split.
  { destruct (length personal_transcript_text <? 10); repeat constructor. }
  split; [intros H; now elim Hname|].
  intros bundle [= <-].
  cbn [name personal_summary personal_transcript transcript_coverage
       personal_segments action_items_count assigned_tasks].
  pose proof (relevant_items_length (_generate_name_variations list_set user_name)
                (lower personal_transcript_text) action_items) as Hlen.
  unfold _extract_personal_action_items.
  repeat split; try reflexivity; try assumption; try lia.
  destruct segs; [congruence | simpl; lia].
Qed.

End MorePersonalProperties.

Lemma first_occurrence_order_In (l : list str) (x : str) :
  In x l -> In x (first_occurrence_order l).
Proof.
  intros H. unfold first_occurrence_order.
  apply -> in_rev. apply nodup_In. now apply -> in_rev.
Qed.

Lemma matching_segment_text_is_kept_witness :
  exists ps,
    In ps (snd (PersonalFlow._extract_personal_transcript first_occurrence_order
                  (lit "Al") Examples.spoken_segments false))
    /\ Notions.stripped_text (PersonalFlow.segment ps)
       = Notions.stripped_text
           (nth 2 Examples.spoken_segments
                (Api.mkSpeakerSegment 0%float 0%float [] [])).
Proof.
  apply (matching_segment_text_is_kept first_occurrence_order (lit "Al")
           Examples.spoken_segments false
           (nth 2 Examples.spoken_segments
                (Api.mkSpeakerSegment 0%float 0%float [] []))).
  - right. right. left. reflexivity.
  - vm_compute. discriminate.
  - vm_compute. reflexivity.
Defined.

Lemma unassigned_items_count_as_personal_witness :
  In Examples.unassigned_item
     (PersonalFlow._extract_personal_action_items first_occurrence_order
        (lit "Dana") [Examples.unassigned_item]
        (lit "Al will send the report on Friday.")).
Proof.
  apply (unassigned_items_count_as_personal first_occurrence_order
           (lit "Dana") "D"%char (lit "ana") [Examples.unassigned_item]
           (lit "Al will send the report on Friday.") Examples.unassigned_item).
  - exact first_occurrence_order_In.
  - reflexivity.
  - vm_compute. tauto.
  - now left.
  - reflexivity.
Defined.

(* --------------------------------------------------------------------- *)
(** ** Summarization service: chunks, requests, results *)
(* --------------------------------------------------------------------- *)

Section MoreSummarizationProperties.
Import Summarization Notions.

Variable model : Model.

(** *** [text.split('. ')] and ['. '.join] *)

Lemma split_on_from_skip (sep p : str) :
  forall (cur s : str),
    split_on_from sep cur (length p) (p ++ s) = split_on_from sep cur 0 s.
Proof.
  induction p as [|c p IH]; intros cur s; [reflexivity|].
  cbn [length app split_on_from]. apply IH.
Qed.

Lemma split_on_from_nonempty (sep : str) :
  forall (s cur : str) (skip : nat), split_on_from sep cur skip s <> [].
Proof.
  induction s as [|c s IH]; intros cur skip; cbn [split_on_from]; [discriminate|].
  destruct skip; [|apply IH].
  destruct (starts_with sep (c :: s)); [discriminate | apply IH].
Qed.

Lemma starts_with_prefix (p : str) :
  forall s, starts_with p s = true -> s = p ++ skipn (length p) s.
Proof.
  induction p as [|a p IH]; intros [|b s]; cbn; try easy.
  intros H. apply andb_true_iff in H as [H1 H2].
  apply Ascii.eqb_eq in H1. subst. f_equal. now apply IH.
Qed.

Lemma join_cons (sep x : str) (l : list str) :
  l <> [] -> join sep (x :: l) = x ++ sep ++ join sep l.
Proof. destruct l; [congruence | reflexivity]. Qed.

Lemma join_split_from (sep : str) :
  sep <> [] ->
  forall (n : nat) (s cur : str),
    length s <= n ->
    join sep (split_on_from sep cur 0 s) = rev cur ++ s.
Proof.
  intros Hsep. induction n as [|n IH]; intros s cur Hn.
  { destruct s; [|simpl in Hn; lia]. cbn. now rewrite app_nil_r. }
  destruct s as [|c s]; [cbn; now rewrite app_nil_r|].
  cbn [split_on_from].
  destruct (starts_with sep (c :: s)) eqn:E.
  - apply starts_with_prefix in E.
    destruct sep as [|a p]; [congruence|].
    cbn [length skipn app] in E. injection E as <- Es.
    change (length (?x :: p) - 1) with (length p - 0). rewrite Nat.sub_0_r.
    rewrite join_cons by apply split_on_from_nonempty.
    rewrite Es at 1. rewrite split_on_from_skip.
    rewrite IH.
    + cbn [rev app]. rewrite Es at 2. reflexivity.
    + rewrite length_skipn. simpl in Hn. lia.
  - rewrite IH by (simpl in Hn; lia).
    cbn [rev]. now rewrite <- app_assoc.
Qed.

(** ['. '.join(text.split('. ')) == text] *)
Lemma join_split_on (text : str) :
  join (lit ". ") (split_on (lit ". ") text) = text.
Proof.
  unfold split_on.
  now rewrite (join_split_from (lit ". ") ltac:(discriminate) (length text)).
Qed.

(** *** The chunking loop *)

Lemma group_tokens_app (a b : list str) :
  group_tokens model (a ++ b) = group_tokens model a + group_tokens model b.
Proof. unfold group_tokens. now rewrite map_app, list_sum_app. Qed.

Lemma chunk_loop_groups :
  forall (sentences current_chunk : list str) (current_length : nat),
    current_length = group_tokens model current_chunk ->
    group_fits model current_chunk ->
    exists groups last,
      chunk_loop model sentences current_chunk current_length
      = (map (join (lit ". ")) groups, last)
      /\ concat groups ++ last = current_chunk ++ sentences
      /\ Forall (group_fits model) groups
      /\ group_fits model last
      /\ (current_chunk <> [] -> Forall (fun g => g <> []) groups)
      /\ Forall (fun g => g <> []) (tl groups)
      /\ (current_chunk <> [] \/ sentences <> [] -> last <> []).
Proof.
  induction sentences as [|s rest IH]; intros cur len Hlen Hfit.
  { exists [], cur. cbn [chunk_loop map concat app tl]. rewrite app_nil_r.
    split; [reflexivity|]. split; [reflexivity|]. split; [constructor|].
    split; [exact Hfit|]. split; [intros _; constructor|].
    split; [constructor|].
    intros [H | H]; [exact H | congruence]. }
  cbn [chunk_loop].
  destruct (800 <? len + token_count model s) eqn:E.
  - destruct (IH [s] (token_count model s)) as (groups & last & Hc & Hcat & Hg & Hl & Hne & _ & Hlast).
    { unfold group_tokens. simpl. lia. }
    { left. simpl. lia. }
    exists (cur :: groups), last. rewrite Hc.
    split; [reflexivity|].
    split.
    { cbn [concat]. rewrite <- app_assoc, Hcat. reflexivity. }
    split; [now constructor|].
    split; [exact Hl|].
    assert (Hgroups : Forall (fun g => g <> []) groups)
      by (apply Hne; discriminate).
    split; [intros Hcur; now constructor|].
    split; [exact Hgroups|].
    intros _. apply Hlast. left. discriminate.
  - apply Nat.ltb_ge in E.
    destruct (IH (cur ++ [s]) (len + token_count model s))
      as (groups & last & Hc & Hcat & Hg & Hl & Hne & _ & Hlast).
    { rewrite group_tokens_app. unfold group_tokens at 2. simpl. lia. }
    { right. rewrite group_tokens_app. unfold group_tokens at 2. simpl. lia. }
    exists groups, last.
    split; [exact Hc|].
    split; [now rewrite Hcat, <- app_assoc|].
    split; [exact Hg|]. split; [exact Hl|].
    assert (Hgroups : Forall (fun g => g <> []) groups).
    { apply Hne. now destruct cur. }
    split; [intros _; exact Hgroups|].
    split; [destruct groups; [constructor | now inversion Hgroups]|].
    intros _. apply Hlast. left. now destruct cur.
Qed.

(** X22. The chunks of a long text are its sentences, grouped in order:
    there are groups of sentences, at least one, whose chunks are the
    groups joined by ". " and which, joined all together by ". ", give the
    text back. Each group has at most 800 tokens or is a single sentence,
    and only the first group can be empty. The division by the number of
    chunks therefore never fails. *)
Theorem long_text_chunks_partition_sentences :
  forall text : str,
    exists groups,
      long_text_chunks model text = map (join (lit ". ")) groups
      /\ groups <> []
      /\ join (lit ". ") (concat groups) = text
      /\ Forall (group_fits model) groups
      /\ Forall (fun g => g <> []) (tl groups)
      /\ forall max_length,
          _summarize_long_text model text max_length
          = (chunk_summaries <~
               summarize_chunks model (long_text_chunks model text)
                 (max_length / Z.of_nat (length groups)) ;;
             _summarize_chunk model (join (lit " ") chunk_summaries) max_length).
Proof.
  intros text.
  destruct (chunk_loop_groups (split_on (lit ". ") text) [] 0)
    as (groups & last & Hc & Hcat & Hg & Hl & _ & Htl & Hlast).
  { reflexivity. }
  { left. simpl. lia. }
  assert (Hne : last <> []).
  { apply Hlast. right. apply split_on_from_nonempty. }
  exists (groups ++ [last]).
  assert (Hchunks : long_text_chunks model text
                    = map (join (lit ". ")) (groups ++ [last])).
  { unfold long_text_chunks. rewrite Hc.
    destruct last; [congruence|]. now rewrite map_app. }
  split; [exact Hchunks|].
  split; [now destruct groups|].
  split.
  { rewrite concat_app. cbn [concat]. rewrite app_nil_r, Hcat.
    apply join_split_on. }
  split; [apply Forall_app; split; [exact Hg | now constructor]|].
  split.
  { destruct groups as [|g groups]; [constructor|].
    cbn [tl app] in *. apply Forall_app. split; [exact Htl|].
    constructor; [exact Hne | constructor]. }
  intros max_length. unfold _summarize_long_text.
  unfold long_text_chunks in Hchunks. rewrite Hc in *.
  destruct last as [|l0 last]; [congruence|].
  replace (long_text_chunks model text)
    with (map (join (lit ". ")) groups ++ [join (lit ". ") (l0 :: last)])
    by (unfold long_text_chunks; now rewrite Hc).
  replace (length (groups ++ [l0 :: last]))
    with (length (map (join (lit ". ")) groups ++ [join (lit ". ") (l0 :: last)]))
    by (now rewrite !length_app, length_map).
  destruct (map (join (lit ". ")) groups ++ [join (lit ". ") (l0 :: last)]) eqn:Em;
    [|reflexivity].
  apply app_eq_nil in Em as [_ Em]. discriminate Em.
Qed.

(** *** The requests and the result of [summarize] *)

Lemma summarize_chunk_run (text : str) (max_length : Z) (log : list Event) :
  _summarize_chunk model text max_length log
  = (summarizer model text max_length 30,
     log ++ [PipelineRun text max_length 30]).
Proof. reflexivity. Qed.

Lemma summarize_chunks_log (max_length : Z) :
  forall (chunks : list str) (log : list Event),
    exists runs,
      snd (summarize_chunks model chunks max_length log) = log ++ runs.
Proof.
  induction chunks as [|chunk chunks IH]; intros log.
  { exists []. cbn. now rewrite app_nil_r. }
  cbn [summarize_chunks]. unfold mbind at 1. rewrite summarize_chunk_run.
  destruct (summarizer model chunk max_length 30) as [e|s].
  { eexists. reflexivity. }
  unfold mbind.
  destruct (IH (log ++ [PipelineRun chunk max_length 30])) as (runs & Hr).
  destruct (summarize_chunks model chunks max_length
              (log ++ [PipelineRun chunk max_length 30])) as [[e|later] log'];
    cbn [snd] in *; subst log'; rewrite <- app_assoc; eexists; reflexivity.
Qed.

Lemma summarize_long_text_run (text : str) (max_length : Z) (log : list Event)
      (summary_text : str) (log' : list Event) :
  _summarize_long_text model text max_length log = (inr summary_text, log') ->
  exists runs final_text,
    log' = log ++ runs ++ [PipelineRun final_text max_length 30]
    /\ summarizer model final_text max_length 30 = inr summary_text.
Proof.
  unfold _summarize_long_text.
  destruct (chunk_loop model (split_on (lit ". ") text) [] 0) as [chunks last].
  set (all := match last with
              | [] => chunks
              | _ :: _ => chunks ++ [join (lit ". ") last]
              end).
  destruct all as [|c0 all]; [discriminate|].
  unfold mbind.
  destruct (summarize_chunks_log (max_length / Z.of_nat (length (c0 :: all)))
                                 (c0 :: all) log) as (runs & Hr).
  destruct (summarize_chunks model (c0 :: all)
              (max_length / Z.of_nat (length (c0 :: all))) log)
    as [[e|summaries] log1]; [discriminate|].
  cbn [snd] in Hr. subst log1. rewrite summarize_chunk_run.
  intros [= Hs <-]. exists runs. eexists.
  split; [now rewrite app_assoc | exact Hs].
Qed.

(** X23. A dictionary that [summarize] returns has a summary that is not
    empty, the summary being what the last run of the pipeline returned,
    with [max_length] as asked and [min_length] 30; [original_length] and
    [summary_length] are the lengths of the text and of the summary. For a
    text of at most 1024 characters that run is the only request, and its
    input is the text. *)
Theorem summarize_result_is_consistent :
  forall (text : str) (max_length : Z) (log : list Event)
         (result : Summary) (log' : list Event),
    summarize model text max_length log = (inr result, log') ->
    summary result <> []
    /\ original_length result = Z.of_nat (length text)
    /\ summary_length result = Z.of_nat (length (summary result))
    /\ exists runs final_text,
        log' = log ++ runs ++ [PipelineRun final_text max_length 30]
        /\ summarizer model final_text max_length 30 = inr (summary result)
        /\ (length text <= 1024 -> runs = [] /\ final_text = text).
Proof.
  intros text max_length log result log'. unfold summarize, mbind.
  destruct (1024 <? length text) eqn:Elong.
  - apply Nat.ltb_lt in Elong.
    destruct (_summarize_long_text model text max_length log)
      as [[e|summary_text] log1] eqn:E; [discriminate|].
    apply summarize_long_text_run in E as (runs & final_text & -> & Hs).
    destruct summary_text as [|c summary_text]; [discriminate|].
    unfold mret. intros [= <- <-]. cbn [summary original_length summary_length].
    split; [discriminate|]. split; [reflexivity|]. split; [reflexivity|].
    exists runs, final_text. split; [reflexivity|]. split; [exact Hs | lia].
  - rewrite summarize_chunk_run.
    destruct (summarizer model text max_length 30) as [e|summary_text] eqn:Hs;
      [discriminate|].
    destruct summary_text as [|c summary_text]; [discriminate|].
    unfold mret. intros [= <- <-]. cbn [summary original_length summary_length].
    split; [discriminate|]. split; [reflexivity|]. split; [reflexivity|].
    exists [], text. split; [reflexivity|]. split; [exact Hs | auto].
Qed.

(** X24. When the pipeline returns an empty summary for a text of at most
    1024 characters, [summarize] raises [ZeroDivisionError], from the
    compression ratio, after its single run of the pipeline. *)
Theorem empty_summary_raises :
  forall (text : str) (max_length : Z) (log : list Event),
    length text <= 1024 ->
    summarizer model text max_length 30 = inr [] ->
    summarize model text max_length log
    = (inl ZeroDivisionError, log ++ [PipelineRun text max_length 30]).
Proof.
  intros text max_length log Hlen Hs. unfold summarize, mbind.
  apply Nat.ltb_ge in Hlen. rewrite Hlen, summarize_chunk_run, Hs. reflexivity.
Qed.

End MoreSummarizationProperties.

Lemma summarize_result_is_consistent_witness :
  exists result log',
    Summarization.summarize Examples.prefix_model Examples.report_transcript 200 []
    = (inr result, log')
    /\ Summarization.summary result <> []
    /\ Summarization.original_length result
       = Z.of_nat (length Examples.report_transcript)
    /\ Summarization.summary_length result
       = Z.of_nat (length (Summarization.summary result))
    /\ exists runs final_text,
        log' = [] ++ runs ++ [Summarization.PipelineRun final_text 200 30]
        /\ Summarization.summarizer Examples.prefix_model final_text 200 30
           = inr (Summarization.summary result)
        /\ (length Examples.report_transcript <= 1024 ->
            runs = [] /\ final_text = Examples.report_transcript).
Proof.
  destruct (Summarization.summarize Examples.prefix_model
              Examples.report_transcript 200 []) as [[e|result] log'] eqn:E;
    [vm_compute in E; discriminate E|].
  exists result, log'. split; [reflexivity|].
  exact (summarize_result_is_consistent Examples.prefix_model
           Examples.report_transcript 200 [] result log' E).
Defined.

Lemma empty_summary_raises_witness :
  Summarization.summarize Examples.silent_model Examples.report_transcript 200 []
  = (inl ZeroDivisionError,
     [] ++ [Summarization.PipelineRun Examples.report_transcript 200 30]).
Proof.
  apply (empty_summary_raises Examples.silent_model Examples.report_transcript
           200 []).
  - vm_compute. lia.
  - reflexivity.
Defined.

(* --------------------------------------------------------------------- *)
(** ** Mention tracker: user names of blanks *)
(* --------------------------------------------------------------------- *)

Section MoreNameProperties.
Import MentionTracker Notions.

Variable list_set : set_iteration.
Variable raw_finditer : RawFinditer.

Lemma split_aux_nil (s cur : str) :
  split_aux cur s = [] <-> cur = [] /\ forallb is_space s = true.
Proof.
  revert cur. induction s as [|c s IH]; intros cur; cbn [split_aux forallb].
  - destruct cur; split; try easy; try (now intros [H _]).
  - destruct (is_space c); cbn [andb].
    + destruct cur.
      * apply IH.
      * split; [discriminate | now intros [H _]].
    + rewrite IH. split; [now intros [H _] | now intros [_ H]].
Qed.

Lemma split_nil (s : str) : split s = [] <-> forallb is_space s = true.
Proof.
  unfold split. rewrite split_aux_nil. split; [now intros [_ H] | auto].
Qed.

(** X25. [_generate_name_variations] of the mention tracker raises exactly
    for a name that contains a space and consists of blanks only: the
    first name of such a name is [username.split()[0]] of an empty list,
    an [IndexError]. It raises nothing else. *)
Theorem name_of_blanks_raises_index_error :
  forall username : str,
    (_generate_name_variations list_set username = inl IndexError
     <-> contains (lit " ") username = true /\ forallb is_space username = true)
    /\ (forall e, _generate_name_variations list_set username = inl e ->
                  e = IndexError).
Proof.
  intros username. unfold _generate_name_variations, first_token.
  destruct (contains (lit " ") username).
  - destruct (split username) as [|first rest] eqn:Es.
    + apply split_nil in Es. cbn. split; [tauto|]. now intros e [= <-].
    + assert (Hn : forallb is_space username <> true).
      { intros H. apply split_nil in H. congruence. }
      cbn. split; [|discriminate].
      split; [discriminate | tauto].
  - cbn. split; [|discriminate].
    split; [discriminate | intros [H _]; discriminate H].
Qed.

(** X26. A user name of blanks is tracked as the empty name: when the set
    of variations holds only what was put in it, every mention of a report
    returned for such a name is an empty span of the transcript. *)
Theorem blank_user_name_gives_empty_mentions :
  forall (now username full_transcript : str)
         (segments : list Api.SpeakerSegment) (diarization_available : bool)
         (report : Report),
    (forall l x, In x (list_set l) -> In x l) ->
    strip username = [] ->
    track_mentions list_set raw_finditer now username full_transcript
                   segments diarization_available = Some report ->
    mentions report <> []
    /\ Forall (fun m => matched_text m = [] /\ variation m = []
                        /\ end_position m = position m)
              (mentions report).
Proof.
  intros now username full_transcript segments diarization_available report
         Hset Hblank H.
  apply track_mentions_report in H as (nv & tasks & Hv & Hne & _ & ->).
  rewrite Hblank in Hv. injection Hv as <-.
  unfold report_of. cbn [mentions].
  split; [exact Hne|].
  apply Forall_forall. intros x Hx.
  apply find_mentions_occurrence in Hx as (Hv & (H0 & H1 & H2) & Hok & _ & Hlen).
  apply Hset in Hv. destruct Hv as [Hv | []]. cbn in Hv.
  rewrite <- Hv in Hlen. unfold len in Hlen. cbn in Hlen.
  assert (He : end_position x = position x) by lia.
  split; [|split; [now symmetry | exact He]].
  rewrite Hok, He. unfold slice. now rewrite Nat.sub_diag.
Qed.

End MoreNameProperties.

Lemma first_occurrence_order_incl (l : list str) (x : str) :
  In x (first_occurrence_order l) -> In x l.
Proof.
  unfold first_occurrence_order. intros H.
  apply in_rev in H. apply nodup_In in H. now apply in_rev in H.
Qed.

Lemma blank_user_name_gives_empty_mentions_witness :
  exists report,
    MentionTracker.track_mentions first_occurrence_order Examples.no_task_engine
      Examples.clock_1 (lit "  ") Examples.spoke_transcript [] false = Some report
    /\ MentionTracker.mentions report <> []
    /\ Forall (fun m => MentionTracker.matched_text m = []
                        /\ MentionTracker.variation m = []
                        /\ MentionTracker.end_position m = MentionTracker.position m)
              (MentionTracker.mentions report).
Proof.
  destruct (MentionTracker.track_mentions first_occurrence_order
              Examples.no_task_engine Examples.clock_1 (lit "  ")
              Examples.spoke_transcript [] false) as [report|] eqn:E;
    [|vm_compute in E; discriminate E].
  exists report. split; [reflexivity|].
  exact (blank_user_name_gives_empty_mentions first_occurrence_order
           Examples.no_task_engine Examples.clock_1 (lit "  ")
           Examples.spoke_transcript [] false report
           first_occurrence_order_incl eq_refl E).
Defined.

(* --------------------------------------------------------------------- *)
(** ** Action item extractor: the confidence of the items returned *)
(* --------------------------------------------------------------------- *)

Section MoreConfidenceProperties.
Import ActionItems.

Lemma sentence_item_confidence (sent : Sent) (item : ActionItem) :
  sentence_item sent = Some item ->
  In (confidence item) [0.6; 0.7; 0.8; 1.0]%float.
Proof.
  unfold sentence_item.
  destruct (negb (_contains_action_verb (strip (sent_text sent)))); [discriminate|].
  unfold _calculate_confidence.
  destruct (is_some (_extract_assignee sent)),
    (is_some (_extract_deadline (strip (sent_text sent)))),
    ((5 <=? word_count (strip (sent_text sent)))
     && (word_count (strip (sent_text sent)) <=? 30));
    match goal with
    | |- (if ?g && ?t then _ else _) = _ -> _ =>
        let v := eval vm_compute in g in change g with v
    end; cbn [andb];
    try discriminate;
    (destruct (negb (str_eqb (_extract_task_description
                                (strip (sent_text sent))) []));
     [|discriminate]);
    intros [= <-]; cbn [confidence]; vm_compute;
    repeat (first [left; reflexivity | right]).
Qed.

(** X27. The confidence of every item that [extract] returns is one of
    0.6, 0.7, 0.8 and 1.0. *)
Theorem emitted_confidence_values :
  forall (nlp : Nlp) (text : str) (items : list ActionItem) (item : ActionItem),
    extract nlp text = inr items ->
    In item items ->
    In (confidence item) [0.6; 0.7; 0.8; 1.0]%float.
Proof.
  intros nlp text items item. unfold extract.
  destruct (nlp text) as [e|doc]; [discriminate|].
  intros [= <-] Hin.
  apply in_extract_from_doc in Hin as (sent & _ & Hs).
  now apply sentence_item_confidence in Hs.
Qed.

Lemma emitted_confidence_values_witness :
  exists items item,
    extract Examples.meeting_nlp Examples.meeting_text = inr items
    /\ In item items
    /\ In (confidence item) [0.6; 0.7; 0.8; 1.0]%float.
Proof.
  destruct (extract Examples.meeting_nlp Examples.meeting_text)
    as [e|items] eqn:E; [vm_compute in E; discriminate E|].
  destruct items as [|item items]; [vm_compute in E; discriminate E|].
  exists (item :: items), item. split; [reflexivity|].
  split; [now left|].
  exact (emitted_confidence_values Examples.meeting_nlp Examples.meeting_text
           (item :: items) item E (or_introl eq_refl)).
Defined.

End MoreConfidenceProperties.

